(** * SecureAgentMessaging: connection lifecycle and liveness management

    A shallow embedding of the TCP server ([index.ts]) and of the TCP client
    ([client/index.ts]), and the properties of the registry, of the two
    periodic timers per connection and of the message dispatcher.

    Modelling conventions.
    - A JavaScript string is the list of its UTF-16 code units.
    - The Node.js runtime is the environment: a socket is known by the calls
      made on it ([write], [end], [destroy]), which are appended to a trace;
      [setInterval] and [clearInterval] act on a table of scheduled timers;
      the event loop is the list of events fed to [step].
    - [Date.now()] is read once per callback: every read inside one
      synchronous callback returns the same millisecond. An interval runs
      at the time it is due.
    - Console output is not modelled; building it is, where it can throw:
      the conversion of a value to a string in a template literal, and the
      format pass of [console.log] over its first argument.
    - A number is the double that [JSON.parse] makes of its text, and
      [JSON.stringify] writes it as [Number::toString] does.
    - The stack of the runtime is not modelled: [JSON.stringify] and the
      conversion of an array to a string are taken to return on every
      value. They recurse on the nesting of the value and throw a
      [RangeError] when the stack is exhausted, some thousands of levels
      deep; the properties that have the server or the client write or
      convert a value of any shape are stated for values nested at most
      [stack_safe] deep. *)

From Stdlib Require Import ZArith NArith Ascii String DecimalString.
From Stdlib Require DecimalPos DecimalZ DecimalFacts.
From stdpp Require Import base option list gmap.

Local Open Scope Z_scope.

(** ** JavaScript strings *)

Abbreviation jsstring := (list N).

(** The code units of an ASCII literal. *)
Definition js (s : string) : jsstring :=
  (λ a, N_of_ascii a) <$> list_ascii_of_string s.

(** [jq s] is [js s] with every apostrophe turned into a double quote, so
    that JSON texts can be written as literals. *)
Definition jq (s : string) : jsstring :=
  (λ c, if (c =? 39)%N then 34%N else c) <$> js s.

Definition newline : jsstring := [10%N].

(** Decimal rendering of an integer, as a template literal or
    [JSON.stringify] prints it. *)
Definition decimal (z : Z) : jsstring :=
  js (NilZero.string_of_int (Z.to_int z)).

(** ** Numbers

    The numbers [JSON.parse] produces: a double, that is a signed zero, a
    finite value [m * 2^e] with [m] odd, or a signed infinity for a text
    that overflows. *)

Module Number.

Inductive number :=
| Zero (negative : bool)
| Infinity (negative : bool)
| Finite (negative : bool) (m : positive) (e : Z).

#[export] Instance number_eq_dec : EqDecision number.
Proof. solve_decision. Defined.

(** [p / q] rounded to the nearest integer, ties to even. *)
Definition round_half_even (p q : Z) : Z :=
  match 2 * (p mod q) ?= q with
  | Lt => p / q
  | Gt => p / q + 1
  | Eq => if Z.even (p / q) then p / q else p / q + 1
  end.

Fixpoint odd_part (m : positive) (e : Z) : positive * Z :=
  match m with
  | xO m' => odd_part m' (e + 1)
  | _ => (m, e)
  end.

(** The floor of the binary logarithm of [p / q]. *)
Definition log2_ratio (p q : Z) : Z :=
  let l := Z.log2 p - Z.log2 q in
  if (if 0 <=? l then q * 2 ^ l <=? p else q <=? p * 2 ^ (- l)) then l
  else l - 1.

(** The double nearest to [p / q], for positive [p] and [q]: 53 bits of
    mantissa, the unit in the last place between [2^-1074] and [2^971],
    ties to even, and an infinity from [2^1024] on. *)
Definition of_ratio (negative : bool) (p q : Z) : number :=
  let e := Z.max (log2_ratio p q - 52) (-1074) in
  let m := if 0 <=? e then round_half_even p (q * 2 ^ e)
           else round_half_even (p * 2 ^ (- e)) q in
  match m with
  | Zpos m' =>
      if 1024 <=? Z.log2 m + e then Infinity negative
      else let '(m'', e') := odd_part m' e in Finite negative m'' e'
  | _ => Zero negative
  end.

Definition nb_digits (d : Z) : Z :=
  Z.of_nat (Decimal.nb_digits (N.to_uint (Z.to_N d))).

(** The double nearest to [d * 10^x]. A value of more than 310 digits is
    an infinity and one below [10^-330] a zero, whatever its digits. *)
Definition of_decimal (negative : bool) (d x : Z) : number :=
  if d <=? 0 then Zero negative
  else if 310 <? x then Infinity negative
  else if nb_digits d + x <? -330 then Zero negative
  else if 0 <=? x then of_ratio negative (d * 10 ^ x) 1
  else of_ratio negative d (10 ^ (- x)).

Definition of_Z (z : Z) : number := of_decimal (z <? 0) (Z.abs z) 0.

(** *** The value of a number text

    The lexer has checked the text: a sign, digits, a fraction, an
    exponent. *)

Definition is_digit (c : N) : bool := ((48 <=? c) && (c <=? 57))%N.

(** The digits at the head of [s], read after [count] digits worth
    [acc]; and what follows them. *)
Fixpoint read_digits (s : jsstring) (acc count : Z) : Z * Z * jsstring :=
  match s with
  | c :: s' =>
      if is_digit c
      then read_digits s' (10 * acc + Z.of_N (c - 48)) (count + 1)
      else (acc, count, s)
  | [] => (acc, count, [])
  end.

Definition read_exponent (s : jsstring) : Z :=
  match s with
  | c :: s' =>
      if ((c =? 101) || (c =? 69))%N then
        match s' with
        | 45%N :: s'' => - (read_digits s'' 0 0).1.1
        | 43%N :: s'' => (read_digits s'' 0 0).1.1
        | _ => (read_digits s' 0 0).1.1
        end
      else 0
  | [] => 0
  end.

Definition of_lexeme (s : jsstring) : number :=
  let '(negative, s1) :=
    match s with
    | 45%N :: s' => (true, s')
    | _ => (false, s)
    end in
  let '(i, _, s2) := read_digits s1 0 0 in
  let '(d, f, s3) :=
    match s2 with
    | 46%N :: s' => read_digits s' i 0
    | _ => (i, 0, s2)
    end in
  of_decimal negative d (read_exponent s3 - f).

(** *** [Number::toString]

    The digits [s] and the exponent [x] of the shortest decimal
    [s * 10^x] that reads back as the number, the nearest to it if there
    are several. *)

(** The [n] with [10^(n-1) <= p / q < 10^n]. *)
Definition magnitude (p q : Z) : Z :=
  if q <=? p then nb_digits (p / q)
  else
    let digits := nb_digits (q / p) in
    if q =? p * 10 ^ (digits - 1) then 2 - digits else 1 - digits.

(** The two decimals of [k] digits around [p / q], the nearer first. *)
Definition candidates (p q n k : Z) : list (Z * Z) :=
  let num := if 0 <=? k - n then p * 10 ^ (k - n) else p in
  let den := if 0 <=? k - n then q else q * 10 ^ (n - k) in
  let lo := (num / den, n - k) in
  let hi := if num / den + 1 =? 10 ^ k then (10 ^ (k - 1), n + 1 - k)
            else (num / den + 1, n - k) in
  match 2 * (num mod den) ?= den with
  | Lt => [lo; hi]
  | Gt => [hi; lo]
  | Eq => if Z.even (num / den) then [lo; hi] else [hi; lo]
  end.

Definition reads_as (target : number) (c : Z * Z) : bool :=
  bool_decide (of_decimal false c.1 c.2 = target).

(** The search, from [k] digits on, for [fuel] lengths: 17 digits tell
    any two doubles apart. *)
Fixpoint search (fuel : nat) (target : number) (p q n k : Z)
  : option (Z * Z) :=
  match fuel with
  | O => None
  | S fuel' =>
      match List.find (reads_as target) (candidates p q n k) with
      | Some c => Some c
      | None => search fuel' target p q n (k + 1)
      end
  end.

Definition digits_found (m : positive) (e : Z) : option (Z * Z) :=
  let p := if 0 <=? e then Zpos m * 2 ^ e else Zpos m in
  let q := if 0 <=? e then 1 else 2 ^ (- e) in
  search 17 (Finite false m e) p q (magnitude p q) 1.

Definition shortest (m : positive) (e : Z) : Z * Z :=
  default (1, 0) (digits_found m e).

Definition zeros (n : Z) : jsstring := replicate (Z.to_nat n) 48%N.

(** The notation of [s * 10^x]: with [k] digits and the decimal point
    after the [n]th, plain up to 21 digits before the point and 6 zeros
    after it, with an exponent otherwise. *)
Definition format (s x : Z) : jsstring :=
  let ds := decimal (Z.pos (Z.to_pos s)) in
  let k := Z.of_nat (length ds) in
  let n := x + k in
  if (k <=? n) && (n <=? 21) then ds ++ zeros (n - k)
  else if (0 <? n) && (n <=? 21) then
    take (Z.to_nat n) ds ++ js "." ++ drop (Z.to_nat n) ds
  else if (-6 <? n) && (n <=? 0) then js "0." ++ zeros (- n) ++ ds
  else
    take 1 ds ++ (if k =? 1 then [] else js "." ++ drop 1 ds)
    ++ js "e" ++ (if n - 1 <? 0 then js "-" else js "+")
    ++ decimal (Z.abs (n - 1)).

Definition to_string (x : number) : jsstring :=
  match x with
  | Zero _ => js "0"
  | Infinity negative => (if negative then js "-" else []) ++ js "Infinity"
  | Finite negative m e =>
      (if negative then js "-" else [])
      ++ format (shortest m e).1 (shortest m e).2
  end.

End Number.

(** ** Insertion-ordered maps

    A JavaScript [Map], and the own properties of an object read by
    [JSON.parse]: [set] on a key that is present keeps its place. *)

Module JSMap.
Section JSMap.
Context {K V : Type} `{EqDecision K}.

Fixpoint set (m : list (K * V)) (k : K) (v : V) : list (K * V) :=
  match m with
  | [] => [(k, v)]
  | (k', v') :: m' =>
      if decide (k' = k) then (k, v) :: m' else (k', v') :: set m' k v
  end.

Fixpoint get (m : list (K * V)) (k : K) : option V :=
  match m with
  | [] => None
  | (k', v') :: m' => if decide (k' = k) then Some v' else get m' k
  end.

(** A [Map] holds at most one entry per key; on a list that held more,
    [delete] drops them all. *)
Fixpoint delete (m : list (K * V)) (k : K) : list (K * V) :=
  match m with
  | [] => []
  | (k', v') :: m' =>
      if decide (k' = k) then delete m' k else (k', v') :: delete m' k
  end.

Definition keys (m : list (K * V)) : list K := fst <$> m.
Definition size (m : list (K * V)) : nat := length m.
End JSMap.
End JSMap.

(** ** The JSON library of the runtime *)

Module JSON.

#[local] Set Warnings "-register-all".

Inductive value :=
| JNull
| JBool (b : bool)
| JNum (x : Number.number)
| JStr (s : jsstring)
| JArr (elements : list value)
| JObj (members : list (jsstring * value)).

(** *** Lexer: one code unit at a time *)

Inductive token :=
| TLBrace | TRBrace | TLBrack | TRBrack | TColon | TComma
| TStr (s : jsstring) | TNum (lexeme : jsstring)
| TTrue | TFalse | TNull.

(** Where the lexer is inside a number:
    [-], a leading [0], integer digits, [.], fraction digits, [e], the sign
    of the exponent, exponent digits. *)
Inductive numphase :=
| NMinus | NZero | NInt | NDot | NFrac | NExp | NExpSign | NExpDigits.

Definition num_accepting (p : numphase) : bool :=
  match p with
  | NZero | NInt | NFrac | NExpDigits => true
  | _ => false
  end.

Inductive lexstate :=
| LDefault
| LStr (acc : jsstring)
| LEsc (acc : jsstring)
| LUni (acc : jsstring) (digits : list N)
| LNum (p : numphase) (acc : jsstring)
| LLit (rest : jsstring) (t : token).

Definition is_ws (c : N) : bool :=
  ((c =? 32) || (c =? 9) || (c =? 10) || (c =? 13))%N.

Definition is_digit (c : N) : bool := ((48 <=? c) && (c <=? 57))%N.

Definition hex_digit (c : N) : option N :=
  if ((48 <=? c) && (c <=? 57))%N then Some (c - 48)%N
  else if ((97 <=? c) && (c <=? 102))%N then Some (c - 87)%N
  else if ((65 <=? c) && (c <=? 70))%N then Some (c - 55)%N
  else None.

(** A code unit met outside strings, numbers and literals. *)
Definition lex_default (c : N) : option (list token * lexstate) :=
  if is_ws c then Some ([], LDefault)
  else if (c =? 123)%N then Some ([TLBrace], LDefault)
  else if (c =? 125)%N then Some ([TRBrace], LDefault)
  else if (c =? 91)%N then Some ([TLBrack], LDefault)
  else if (c =? 93)%N then Some ([TRBrack], LDefault)
  else if (c =? 58)%N then Some ([TColon], LDefault)
  else if (c =? 44)%N then Some ([TComma], LDefault)
  else if (c =? 34)%N then Some ([], LStr [])
  else if (c =? 45)%N then Some ([], LNum NMinus [c])
  else if (c =? 48)%N then Some ([], LNum NZero [c])
  else if is_digit c then Some ([], LNum NInt [c])
  else if (c =? 116)%N then Some ([], LLit (js "rue") TTrue)
  else if (c =? 102)%N then Some ([], LLit (js "alse") TFalse)
  else if (c =? 110)%N then Some ([], LLit (js "ull") TNull)
  else None.

(** The next phase of a number on code unit [c], if [c] continues it. *)
Definition num_next (p : numphase) (c : N) : option numphase :=
  match p with
  | NMinus =>
      if (c =? 48)%N then Some NZero
      else if is_digit c then Some NInt else None
  | NZero =>
      if (c =? 46)%N then Some NDot
      else if ((c =? 101) || (c =? 69))%N then Some NExp else None
  | NInt =>
      if is_digit c then Some NInt
      else if (c =? 46)%N then Some NDot
      else if ((c =? 101) || (c =? 69))%N then Some NExp else None
  | NDot => if is_digit c then Some NFrac else None
  | NFrac =>
      if is_digit c then Some NFrac
      else if ((c =? 101) || (c =? 69))%N then Some NExp else None
  | NExp =>
      if ((c =? 43) || (c =? 45))%N then Some NExpSign
      else if is_digit c then Some NExpDigits else None
  | NExpSign => if is_digit c then Some NExpDigits else None
  | NExpDigits => if is_digit c then Some NExpDigits else None
  end.

Definition unescape (c : N) : option N :=
  if (c =? 34)%N then Some 34%N
  else if (c =? 92)%N then Some 92%N
  else if (c =? 47)%N then Some 47%N
  else if (c =? 98)%N then Some 8%N
  else if (c =? 102)%N then Some 12%N
  else if (c =? 110)%N then Some 10%N
  else if (c =? 114)%N then Some 13%N
  else if (c =? 116)%N then Some 9%N
  else None.

Definition lex_step (st : lexstate) (c : N) : option (list token * lexstate) :=
  match st with
  | LDefault => lex_default c
  | LStr acc =>
      if (c =? 34)%N then Some ([TStr acc], LDefault)
      else if (c =? 92)%N then Some ([], LEsc acc)
      else if (c <? 32)%N then None
      else Some ([], LStr (acc ++ [c]))
  | LEsc acc =>
      if (c =? 117)%N then Some ([], LUni acc [])
      else u ← unescape c; Some ([], LStr (acc ++ [u]))
  | LUni acc ds =>
      d ← hex_digit c;
      match ds with
      | [d1; d2; d3] =>
          Some ([], LStr (acc ++ [((d1 * 16 + d2) * 16 + d3) * 16 + d])%N)
      | _ => Some ([], LUni acc (ds ++ [d]))
      end
  | LNum p acc =>
      match num_next p c with
      | Some p' => Some ([], LNum p' (acc ++ [c]))
      | None =>
          if num_accepting p then
            '(ts, st') ← lex_default c; Some (TNum acc :: ts, st')
          else None
      end
  | LLit rest t =>
      match rest with
      | [] => None
      | [r] => if (c =? r)%N then Some ([t], LDefault) else None
      | r :: rest' => if (c =? r)%N then Some ([], LLit rest' t) else None
      end
  end.

Fixpoint lex_from (st : lexstate) (s : jsstring) : option (list token) :=
  match s with
  | [] =>
      match st with
      | LDefault => Some []
      | LNum p acc => if num_accepting p then Some [TNum acc] else None
      | _ => None
      end
  | c :: s' =>
      '(ts, st') ← lex_step st c;
      rest ← lex_from st' s';
      Some (ts ++ rest)
  end.

Definition lex (s : jsstring) : option (list token) := lex_from LDefault s.

(** The lexer part of the way through its input: the tokens so far and
    the state it is in; and what the end of the input makes of a state. *)
Fixpoint lex_run (st : lexstate) (s : jsstring)
  : option (list token * lexstate) :=
  match s with
  | [] => Some ([], st)
  | c :: s' =>
      '(ts, st') ← lex_step st c;
      '(rest, st'') ← lex_run st' s';
      Some (ts ++ rest, st'')
  end.

Definition lex_end (st : lexstate) : option (list token) :=
  match st with
  | LDefault => Some []
  | LNum p acc => if num_accepting p then Some [TNum acc] else None
  | _ => None
  end.

(** The rest of a literal being read holds no newline. *)
Definition literal_ok (st : lexstate) : Prop :=
  match st with
  | LLit rest _ => Forall (λ r, r ≠ 10%N) rest
  | _ => True
  end.

(** *** Parser: a pushdown automaton over the tokens *)

(** An open container: an array with the elements read so far, or an object
    with the members read so far and the key whose value is being read. *)
Inductive frame :=
| FArr (acc : list value)
| FObj (acc : list (jsstring * value)) (key : jsstring).

Inductive pstate :=
| PValue (stk : list frame)
| PArrStart (stk : list frame)
| PArrNext (acc : list value) (stk : list frame)
| PObjStart (stk : list frame)
| PObjKey (acc : list (jsstring * value)) (stk : list frame)
| PColon (acc : list (jsstring * value)) (key : jsstring) (stk : list frame)
| PObjNext (acc : list (jsstring * value)) (stk : list frame)
| PDone (v : value).

(** An array index: the decimal text of an integer below [2^32 - 1]. *)
Definition array_index (k : jsstring) : option Z :=
  match k with
  | [] => None
  | c :: k' =>
      let '(z, _, rest) := Number.read_digits k 0 0 in
      if bool_decide (rest = []) && (negb (c =? 48)%N || bool_decide (k' = []))
         && (z <=? 4294967294)
      then Some z else None
  end.

(** The own properties of an object are kept in the order in which they
    are enumerated: the array indices first, in ascending order, then the
    other names in the order of their creation. *)
Fixpoint insert_index (m : list (jsstring * value)) (i : Z)
    (k : jsstring) (v : value) : list (jsstring * value) :=
  match m with
  | (k', v') :: m' =>
      match array_index k' with
      | Some j => if j <? i then (k', v') :: insert_index m' i k v
                  else (k, v) :: m
      | None => (k, v) :: m
      end
  | [] => [(k, v)]
  end.

(** [CreateDataProperty]: a name that is present keeps its place. *)
Definition define_property (m : list (jsstring * value)) (k : jsstring)
    (v : value) : list (jsstring * value) :=
  match array_index k, JSMap.get m k with
  | Some i, None => insert_index m i k v
  | _, _ => JSMap.set m k v
  end.

(** A value is complete: it goes into the innermost open container. *)
Definition complete (v : value) (stk : list frame) : pstate :=
  match stk with
  | [] => PDone v
  | FArr acc :: stk' => PArrNext (acc ++ [v]) stk'
  | FObj acc k :: stk' => PObjNext (define_property acc k v) stk'
  end.

Definition parse_value (t : token) (stk : list frame) : option pstate :=
  match t with
  | TLBrace => Some (PObjStart stk)
  | TLBrack => Some (PArrStart stk)
  | TStr s => Some (complete (JStr s) stk)
  | TNum n => Some (complete (JNum (Number.of_lexeme n)) stk)
  | TTrue => Some (complete (JBool true) stk)
  | TFalse => Some (complete (JBool false) stk)
  | TNull => Some (complete JNull stk)
  | TRBrace | TRBrack | TColon | TComma => None
  end.

Definition parse_step (st : pstate) (t : token) : option pstate :=
  match st, t with
  | PValue stk, _ => parse_value t stk
  | PArrStart stk, TRBrack => Some (complete (JArr []) stk)
  | PArrStart stk, _ => parse_value t (FArr [] :: stk)
  | PArrNext acc stk, TComma => Some (PValue (FArr acc :: stk))
  | PArrNext acc stk, TRBrack => Some (complete (JArr acc) stk)
  | PObjStart stk, TRBrace => Some (complete (JObj []) stk)
  | PObjStart stk, TStr k => Some (PColon [] k stk)
  | PObjKey acc stk, TStr k => Some (PColon acc k stk)
  | PColon acc k stk, TColon => Some (PValue (FObj acc k :: stk))
  | PObjNext acc stk, TComma => Some (PObjKey acc stk)
  | PObjNext acc stk, TRBrace => Some (complete (JObj acc) stk)
  | _, _ => None
  end.

Fixpoint parse_from (st : pstate) (ts : list token) : option value :=
  match ts with
  | [] => match st with PDone v => Some v | _ => None end
  | t :: ts' => st' ← parse_step st t; parse_from st' ts'
  end.

(** The parser part of the way through the tokens. *)
Fixpoint parse_run (st : pstate) (ts : list token) : option pstate :=
  match ts with
  | [] => Some st
  | t :: ts' => st' ← parse_step st t; parse_run st' ts'
  end.

(** [JSON.parse]: [None] stands for the [SyntaxError] it throws. *)
Definition parse (text : jsstring) : option value :=
  ts ← lex text; parse_from (PValue []) ts.

(** *** [JSON.stringify] *)

Definition hex_char (d : N) : N := if (d <? 10)%N then (48 + d)%N else (87 + d)%N.

Definition unicode_escape (c : N) : jsstring :=
  [92; 117; hex_char (c / 4096 mod 16); hex_char (c / 256 mod 16);
   hex_char (c / 16 mod 16); hex_char (c mod 16)]%N.

Definition is_high_surrogate (c : N) : bool := ((55296 <=? c) && (c <=? 56319))%N.
Definition is_low_surrogate (c : N) : bool := ((56320 <=? c) && (c <=? 57343))%N.

Definition quote_unit (c : N) : jsstring :=
  if (c =? 8)%N then js "\b"
  else if (c =? 9)%N then js "\t"
  else if (c =? 10)%N then js "\n"
  else if (c =? 12)%N then js "\f"
  else if (c =? 13)%N then js "\r"
  else if (c =? 34)%N then [92; 34]%N
  else if (c =? 92)%N then [92; 92]%N
  else if (c <? 32)%N then unicode_escape c
  else if is_high_surrogate c || is_low_surrogate c then unicode_escape c
  else [c].

Fixpoint quote_units (s : jsstring) : jsstring :=
  match s with
  | [] => []
  | c :: s' =>
      match s' with
      | lo :: s'' =>
          if is_high_surrogate c && is_low_surrogate lo
          then c :: lo :: quote_units s''
          else quote_unit c ++ quote_units s'
      | [] => quote_unit c
      end
  end.

Definition quote (s : jsstring) : jsstring := [34%N] ++ quote_units s ++ [34%N].

Definition join_comma (parts : list jsstring) : jsstring :=
  match parts with
  | [] => []
  | p :: ps => p ++ concat ((λ q, 44%N :: q) <$> ps)
  end.

(** A number that is not finite is written [null]. *)
Definition stringify_number (x : Number.number) : jsstring :=
  match x with
  | Number.Infinity _ => js "null"
  | _ => Number.to_string x
  end.

Fixpoint stringify (v : value) : jsstring :=
  match v with
  | JNull => js "null"
  | JBool true => js "true"
  | JBool false => js "false"
  | JNum x => stringify_number x
  | JStr s => quote s
  | JArr xs => [91%N] ++ join_comma (map stringify xs) ++ [93%N]
  | JObj ms =>
      [123%N] ++
      join_comma (map (λ kv, quote (fst kv) ++ [58%N] ++ stringify (snd kv)) ms)
      ++ [125%N]
  end.

(** The nesting of a value, and a nesting that leaves the stack of the
    runtime room. *)
Fixpoint nesting (v : value) : nat :=
  match v with
  | JArr xs => S (foldr Nat.max 0%nat (map nesting xs))
  | JObj ms => S (foldr Nat.max 0%nat (map (λ kv, nesting (snd kv)) ms))
  | _ => 0%nat
  end.

Definition stack_safe : nat := 500.

End JSON.

Arguments Number.of_decimal : simpl never.
Arguments Number.of_Z : simpl never.
Arguments Number.of_lexeme : simpl never.
Arguments Number.to_string : simpl never.
Arguments JSON.stringify_number : simpl never.


(** ** Completions: a callback returns or throws *)

Inductive exn := SyntaxError | TypeError.

Inductive completion (A : Type) :=
| Normal (a : A)
| Abrupt (e : exn).
Arguments Normal {A} a.
Arguments Abrupt {A} e.

(** A computation over the state [S] of the running program: what it did
    to the state is kept when it throws. *)
Definition M (S A : Type) : Type := S → completion A * S.

#[export] Instance M_ret {S} : MRet (M S) := λ A a s, (Normal a, s).
#[export] Instance M_bind {S} : MBind (M S) := λ A B f m s,
  match m s with
  | (Normal a, s') => f a s'
  | (Abrupt e, s') => (Abrupt e, s')
  end.

Definition throw {S A} (e : exn) : M S A := λ s, (Abrupt e, s).
Definition gets {S A} (f : S → A) : M S A := λ s, (Normal (f s), s).
Definition modify {S} (f : S → S) : M S unit := λ s, (Normal (), f s).

(** [try { body } catch (error) { handler }] *)
Definition try_catch {S A} (body : M S A) (handler : exn → M S A) : M S A :=
  λ s, match body s with
       | (Normal a, s') => (Normal a, s')
       | (Abrupt e, s') => handler e s'
       end.

(** The state a callback leaves; an exception that reaches the event loop
    unwinds the callback. *)
Definition exec {S A} (m : M S A) (s : S) : S := snd (m s).

(** [preserves P m]: whatever [m] does, and whether it returns or throws,
    it keeps [P]. *)
Definition preserves {S A} (P : S → Prop) (m : M S A) : Prop :=
  ∀ s, P s → P (snd (m s)).

(** ** Protocol messages *)

(** The object literals the program passes to [sendMessage]. A property
    whose value is [undefined] is [None]; [id] is whatever the inbound
    message carried. *)
Record ProtocolMessage := {
  type : jsstring;
  payload : option JSON.value;
  timestamp : Z;
  id : option JSON.value;
}.

Definition optional_member (k : jsstring) (v : option JSON.value)
  : list (jsstring * JSON.value) :=
  match v with Some x => [(k, x)] | None => [] end.

(** [JSON.stringify(message)]: own properties in creation order, those
    that are [undefined] left out. *)
Definition stringify_message (m : ProtocolMessage) : jsstring :=
  JSON.stringify
    (JSON.JObj ([(js "type", JSON.JStr (type m))]
                ++ optional_member (js "payload") (payload m)
                ++ [(js "timestamp", JSON.JNum (Number.of_Z (timestamp m)))]
                ++ optional_member (js "id") (id m))).

(** [message.key] on a value read by [JSON.parse]: a [TypeError] on
    [null], [undefined] on a missing key and on the other non-objects. *)
Definition prop {S} (message : JSON.value) (key : jsstring)
  : M S (option JSON.value) :=
  match message with
  | JSON.JNull => throw TypeError
  | JSON.JObj members => mret (JSMap.get members key)
  | _ => mret None
  end.

(** [`${v}`], the conversion of a value to a string in a template literal,
    throws a [TypeError] on an object that has a property [toString] of its
    own (no value read by [JSON.parse] is callable, and the inherited
    [valueOf] returns the object), and on an array with such an element;
    [null] elements of an array are skipped. *)
Fixpoint ToString_throws (v : JSON.value) : bool :=
  match v with
  | JSON.JObj members =>
      match JSMap.get members (js "toString") with
      | Some _ => true
      | None => false
      end
  | JSON.JArr elements => existsb ToString_throws elements
  | _ => false
  end.

Definition template {S} (v : option JSON.value) : M S unit :=
  match v with
  | Some x => if ToString_throws x then throw TypeError else mret ()
  | None => mret ()
  end.

(** The string a template literal makes of a value that has one: the
    elements of an array joined by commas, [null] elements left empty. *)
Fixpoint ToString (v : JSON.value) : jsstring :=
  match v with
  | JSON.JNull => js "null"
  | JSON.JBool true => js "true"
  | JSON.JBool false => js "false"
  | JSON.JNum x => Number.to_string x
  | JSON.JStr s => s
  | JSON.JArr elements =>
      JSON.join_comma
        (map (λ x, match x with JSON.JNull => [] | _ => ToString x end)
           elements)
  | JSON.JObj _ => js "[object Object]"
  end.

Definition template_text (v : option JSON.value) : jsstring :=
  match v with
  | Some x => ToString x
  | None => js "undefined"
  end.

(** *** [console.log(format, arg)]

    With a second argument, [console.log] reads its first as a format:
    the first [%s], [%j], [%d], [%O], [%o], [%i], [%f] or [%c] in it takes
    the argument; [%%] and a [%] before any other character take
    nothing. *)
Fixpoint first_specifier (format : jsstring) : option N :=
  match format with
  | 37%N :: c :: format' =>
      if ((c =? 115) || (c =? 106) || (c =? 100) || (c =? 79) || (c =? 111)
          || (c =? 105) || (c =? 102) || (c =? 99))%N
      then Some c else first_specifier format'
  | _ :: format' => first_specifier format'
  | [] => None
  end.

(** [%d] converts the argument with [Number], [%i] with [parseInt] and
    [%f] with [parseFloat]: each throws a [TypeError] on a value that has
    no conversion to a primitive. The others inspect it. *)
Definition console_log_throws (format : jsstring) (arg : option JSON.value)
  : bool :=
  match first_specifier format, arg with
  | Some c, Some v =>
      ((c =? 100) || (c =? 105) || (c =? 102))%N && ToString_throws v
  | _, _ => false
  end.

Definition console_log {S} (format : jsstring) (arg : option JSON.value)
  : M S unit :=
  if console_log_throws format arg then throw TypeError else mret ().

(** The line both sides log for a message received. *)
Definition received_line (ty : option JSON.value) (sender : jsstring)
  : jsstring :=
  js "Received " ++ template_text ty ++ js " from " ++ sender ++ js ":".

Arguments console_log_throws : simpl never.
Arguments received_line : simpl never.

Definition JSON_parse {S} (text : jsstring) : M S JSON.value :=
  match JSON.parse text with
  | Some v => mret v
  | None => throw SyntaxError
  end.

(** [setInterval] clamps a delay below 1 or above 2^31-1 to 1. *)
Definition timer_delay (delay : Z) : Z :=
  if (1 <=? delay) && (delay <=? 2147483647) then delay else 1.

(** ** The server ([index.ts]) *)

Module Server.

(** A socket is an identifier handed out by the runtime; [ref] is the
    identity of a [ConnectionInfo] object, [handle] what [setInterval]
    returns. *)
Abbreviation sock := nat.
Abbreviation ref := nat.
Abbreviation handle := nat.

Record ConnectionInfo := {
  socket : sock;
  lastActivity : Z;
  keepAliveInterval : option handle;
  isAlive : bool;
}.

#[export] Instance ConnectionInfo_inhabited : Inhabited ConnectionInfo :=
  populate {| socket := 0%nat; lastActivity := 0; keepAliveInterval := None;
              isAlive := false |}.

Definition set_lastActivity (t : Z) (c : ConnectionInfo) : ConnectionInfo :=
  {| socket := socket c; lastActivity := t;
     keepAliveInterval := keepAliveInterval c; isAlive := isAlive c |}.
Definition set_isAlive (b : bool) (c : ConnectionInfo) : ConnectionInfo :=
  {| socket := socket c; lastActivity := lastActivity c;
     keepAliveInterval := keepAliveInterval c; isAlive := b |}.
Definition set_keepAliveInterval (h : option handle) (c : ConnectionInfo)
  : ConnectionInfo :=
  {| socket := socket c; lastActivity := lastActivity c;
     keepAliveInterval := h; isAlive := isAlive c |}.

(** The two arrow functions given to [setInterval] in [startKeepAlive],
    with what each closes over: the [connection] object, and for the
    timeout check the [connectionId] too. *)
Inductive Callback :=
| Probe (connection : ref)
| TimeoutCheck (connection : ref) (connectionId : jsstring).

(** A scheduled interval: it fires at [due] and then every [period]. *)
Record Timer := {
  callback : Callback;
  period : Z;
  due : Z;
}.

(** The calls the server makes on the runtime. *)
Inductive Effect :=
| Write (s : sock) (text : jsstring)
| End (s : sock)
| Destroy (s : sock)
| SetInterval (h : handle)
| ClearInterval (h : handle)
| Listen (port : Z)
| CloseServer.

(** The fields of [TCPServer] ([this_keepAliveInterval] is
    [this.keepAliveInterval], the period of the probe; [ConnectionInfo]
    has a [keepAliveInterval] of its own), then the runtime: the
    [ConnectionInfo] objects by reference, the scheduled intervals, the
    next timer handle and the calls made so far. *)
Record TCPServer := {
  port : Z;
  connections : list (jsstring * ref);
  keepAliveTimeout : Z;
  this_keepAliveInterval : Z;
  heap : list ConnectionInfo;
  timers : gmap handle Timer;
  next_handle : handle;
  trace : list Effect;
}.

Definition set_connections (m : list (jsstring * ref)) (s : TCPServer) : TCPServer :=
  {| port := port s; connections := m; keepAliveTimeout := keepAliveTimeout s;
     this_keepAliveInterval := this_keepAliveInterval s; heap := heap s;
     timers := timers s; next_handle := next_handle s; trace := trace s |}.
Definition set_heap (h : list ConnectionInfo) (s : TCPServer) : TCPServer :=
  {| port := port s; connections := connections s;
     keepAliveTimeout := keepAliveTimeout s;
     this_keepAliveInterval := this_keepAliveInterval s; heap := h;
     timers := timers s; next_handle := next_handle s; trace := trace s |}.
Definition set_timers (t : gmap handle Timer) (s : TCPServer) : TCPServer :=
  {| port := port s; connections := connections s;
     keepAliveTimeout := keepAliveTimeout s;
     this_keepAliveInterval := this_keepAliveInterval s; heap := heap s;
     timers := t; next_handle := next_handle s; trace := trace s |}.
Definition set_next_handle (n : handle) (s : TCPServer) : TCPServer :=
  {| port := port s; connections := connections s;
     keepAliveTimeout := keepAliveTimeout s;
     this_keepAliveInterval := this_keepAliveInterval s; heap := heap s;
     timers := timers s; next_handle := n; trace := trace s |}.
Definition set_trace (t : list Effect) (s : TCPServer) : TCPServer :=
  {| port := port s; connections := connections s;
     keepAliveTimeout := keepAliveTimeout s;
     this_keepAliveInterval := this_keepAliveInterval s; heap := heap s;
     timers := timers s; next_handle := next_handle s; trace := t |}.

Abbreviation Srv := (M TCPServer).

(** *** The runtime *)

Definition emit (e : Effect) : Srv unit :=
  modify (λ s, set_trace (trace s ++ [e]) s).

(** Reading and writing a field of a [ConnectionInfo] object. *)
Definition deref (c : ref) : Srv ConnectionInfo := gets (λ s, heap s !!! c).
Definition update (c : ref) (f : ConnectionInfo → ConnectionInfo) : Srv unit :=
  modify (λ s, set_heap (alter f c (heap s)) s).

(** A new object. *)
Definition alloc (ci : ConnectionInfo) : Srv ref :=
  λ s, (Normal (length (heap s)), set_heap (heap s ++ [ci]) s).

(** [setInterval(callback, delay)], called at time [now]. *)
Definition setInterval (now : Z) (cb : Callback) (delay : Z) : Srv handle :=
  λ s,
    let h := next_handle s in
    let t := {| callback := cb; period := timer_delay delay;
                due := now + timer_delay delay |} in
    (Normal h,
     set_trace (trace s ++ [SetInterval h])
       (set_next_handle (S h) (set_timers (<[h := t]> (timers s)) s))).

(** [clearInterval(h)]: the interval is no longer scheduled. *)
Definition clearInterval (h : handle) : Srv unit :=
  modify (λ s, set_timers (delete h (timers s)) s);;
  emit (ClearInterval h).

(** *** The methods of [TCPServer] *)

(** The constructor; an argument left out is [None] and takes its
    default. *)
Definition new_TCPServer (port keepAliveTimeout keepAliveInterval : option Z)
  : TCPServer :=
  {| port := default 4000 port; connections := [];
     keepAliveTimeout := default 30000 keepAliveTimeout;
     this_keepAliveInterval := default 10000 keepAliveInterval; heap := [];
     timers := ∅; next_handle := 0%nat; trace := [] |}.

Definition sendMessage (socket : sock) (message : ProtocolMessage) : Srv unit :=
  emit (Write socket (stringify_message message ++ newline)).

Definition cleanupConnection (connectionId : jsstring) : Srv unit :=
  connection ← gets (λ s, JSMap.get (connections s) connectionId);
  match connection with
  | Some c =>
      ci ← deref c;
      match keepAliveInterval ci with
      | Some h => clearInterval h
      | None => mret ()
      end;;
      modify (λ s, set_connections (JSMap.delete (connections s) connectionId) s)
  | None => mret ()
  end.

Definition startKeepAlive (now : Z) (connectionId : jsstring) : Srv unit :=
  connection ← gets (λ s, JSMap.get (connections s) connectionId);
  match connection with
  | None => mret ()
  | Some c =>
      interval ← gets this_keepAliveInterval;
      h ← setInterval now (Probe c) interval;
      update c (set_keepAliveInterval (Some h));;
      timeout ← gets keepAliveTimeout;
      _ ← setInterval now (TimeoutCheck c connectionId) timeout;
      mret ()
  end.

(** [message.type === name], the test of one [case] of the [switch]. *)
Definition is_type (ty : option JSON.value) (name : string) : bool :=
  match ty with
  | Some (JSON.JStr t) => bool_decide (t = js name)
  | _ => false
  end.

Definition handleMessage (now : Z) (message : JSON.value) (connectionId : jsstring)
  : Srv unit :=
  connection ← gets (λ s, JSMap.get (connections s) connectionId);
  match connection with
  | None => mret ()
  | Some c =>
      update c (set_lastActivity now);;
      update c (set_isAlive true);;
      ty ← prop message (js "type");
      template ty;;
      logged ← prop message (js "payload");
      console_log (received_line ty connectionId) logged;;
      ci ← deref c;
      if is_type ty "data" then
        p ← prop message (js "payload");
        i ← prop message (js "id");
        sendMessage (socket ci)
          {| type := js "data"; payload := p; timestamp := now; id := i |}
      else if is_type ty "ping" then
        i ← prop message (js "id");
        sendMessage (socket ci)
          {| type := js "pong";
             payload := Some (JSON.JObj [(js "message", JSON.JStr (js "pong"))]);
             timestamp := now; id := i |}
      else if is_type ty "keepalive" then
        i ← prop message (js "id");
        sendMessage (socket ci)
          {| type := js "keepalive";
             payload := Some (JSON.JObj [(js "status", JSON.JStr (js "alive"))]);
             timestamp := now; id := i |}
      else if is_type ty "close" then
        sendMessage (socket ci)
          {| type := js "close";
             payload := Some (JSON.JObj [(js "message",
                          JSON.JStr (js "Connection closed by client"))]);
             timestamp := now; id := None |};;
        emit (End (socket ci))
      else mret ()
  end.

(** The identifier of a connection: the template literal
    [`${socket.remoteAddress}:${socket.remotePort}`], either of which may
    be [undefined]. *)
Definition connectionId_of (remoteAddress : option jsstring) (remotePort : option N)
  : jsstring :=
  default (js "undefined") remoteAddress ++ js ":" ++
  match remotePort with
  | Some p => decimal (Z.of_N p)
  | None => js "undefined"
  end.

Definition invalid_format (now : Z) : ProtocolMessage :=
  {| type := js "data";
     payload := Some (JSON.JObj [(js "error",
                  JSON.JStr (js "Invalid message format"))]);
     timestamp := now; id := None |}.

(** [socket.on('data', ...)] of [setupSocketHandlers]; [data] is
    [data.toString()]. *)
Definition on_data (now : Z) (socket : sock) (connectionId : jsstring)
    (data : jsstring) : Srv unit :=
  try_catch
    (message ← JSON_parse data;
     handleMessage now message connectionId)
    (λ error, sendMessage socket (invalid_format now)).

(** The ['end'], ['error'] and ['close'] handlers of a socket. *)
Definition on_end (connectionId : jsstring) : Srv unit :=
  cleanupConnection connectionId.
Definition on_error (connectionId : jsstring) : Srv unit :=
  cleanupConnection connectionId.
Definition on_close (connectionId : jsstring) : Srv unit :=
  cleanupConnection connectionId.

(** [server.on('connection', ...)]. [setupSocketHandlers] installs the
    four handlers above, closed over [socket] and [connectionId]. *)
Definition on_connection (now : Z) (socket : sock)
    (remoteAddress : option jsstring) (remotePort : option N) : Srv unit :=
  let connectionId := connectionId_of remoteAddress remotePort in
  connectionInfo ← alloc {| socket := socket; lastActivity := now;
                            keepAliveInterval := None; isAlive := true |};
  modify (λ s, set_connections
                 (JSMap.set (connections s) connectionId connectionInfo) s);;
  startKeepAlive now connectionId.

(** The bodies of the two interval callbacks of [startKeepAlive]. *)
Definition run_callback (now : Z) (cb : Callback) : Srv unit :=
  match cb with
  | Probe c =>
      connection ← deref c;
      if isAlive connection then
        sendMessage (socket connection)
          {| type := js "keepalive";
             payload := Some (JSON.JObj [(js "message",
                          JSON.JStr (js "keepalive"))]);
             timestamp := now; id := None |}
      else mret ()
  | TimeoutCheck c connectionId =>
      connection ← deref c;
      timeout ← gets keepAliveTimeout;
      if now - lastActivity connection >? timeout then
        emit (Destroy (socket connection));;
        cleanupConnection connectionId
      else mret ()
  end.

Definition reschedule (t : Timer) : Timer :=
  {| callback := callback t; period := period t; due := due t + period t |}.

(** The event loop runs the interval [h]: nothing if it is not scheduled
    (never set, or cleared); otherwise its callback runs at the time it
    was due and the interval is due again one period later. *)
Definition fire (h : handle) : Srv unit :=
  scheduled ← gets (λ s, timers s !! h);
  match scheduled with
  | None => mret ()
  | Some t =>
      modify (λ s, set_timers (<[h := reschedule t]> (timers s)) s);;
      run_callback (due t) (callback t)
  end.

Definition start : Srv unit :=
  p ← gets port; emit (Listen p).

Fixpoint stop_loop (entries : list (jsstring * ref)) : Srv unit :=
  match entries with
  | [] => mret ()
  | (connectionId, c) :: rest =>
      connection ← deref c;
      match keepAliveInterval connection with
      | Some h => clearInterval h
      | None => mret ()
      end;;
      emit (Destroy (socket connection));;
      stop_loop rest
  end.

Definition stop : Srv unit :=
  entries ← gets connections;
  stop_loop entries;;
  modify (set_connections []);;
  emit CloseServer.

Definition getConnectionCount (s : TCPServer) : nat :=
  JSMap.size (connections s).
Definition getConnections (s : TCPServer) : list jsstring :=
  JSMap.keys (connections s).

(** *** The event loop *)

(** What can happen to a running server. A socket event names the socket
    and the [connectionId] its handlers were installed with. *)
Inductive Event :=
| OnConnection (now : Z) (socket : sock)
    (remoteAddress : option jsstring) (remotePort : option N)
| OnData (now : Z) (socket : sock) (connectionId : jsstring) (data : jsstring)
| OnEnd (connectionId : jsstring)
| OnError (connectionId : jsstring)
| OnClose (connectionId : jsstring)
| OnTimer (h : handle)
| OnServerError
| CallStart
| CallStop.

Definition handler (e : Event) : Srv unit :=
  match e with
  | OnConnection now socket addr p => on_connection now socket addr p
  | OnData now socket connectionId data => on_data now socket connectionId data
  | OnEnd connectionId => on_end connectionId
  | OnError connectionId => on_error connectionId
  | OnClose connectionId => on_close connectionId
  | OnTimer h => fire h
  | OnServerError => mret ()
  | CallStart => start
  | CallStop => stop
  end.

Definition step (s : TCPServer) (e : Event) : TCPServer := exec (handler e) s.

Definition run (s : TCPServer) (events : list Event) : TCPServer :=
  foldl step s events.

End Server.

(** ** The client ([client/index.ts]) *)

Module Client.

Abbreviation handle := nat.

(** What the client schedules: the two intervals of [startKeepAlive] and
    the [setTimeout] of [disconnect]. *)
Inductive Callback := Probe | TimeoutCheck | EndSocket.

(** [period] is [None] for a [setTimeout], which runs once. *)
Record Timer := {
  callback : Callback;
  period : option Z;
  due : Z;
}.

(** The calls the client makes on the runtime. *)
Inductive Effect :=
| Connect (port : Z) (host : jsstring)
| Write (text : jsstring)
| End
| Destroy
| SetInterval (h : handle)
| SetTimeout (h : handle)
| ClearInterval (h : handle).

(** The fields of [TCPClient], then the runtime as for the server. *)
Record TCPClient := {
  host : jsstring;
  port : Z;
  keepAliveTimeout : Z;
  keepAliveInterval : Z;
  keepAliveTimer : option handle;
  timeoutTimer : option handle;
  lastActivity : Z;
  isConnected : bool;
  messageId : Z;
  timers : gmap handle Timer;
  next_handle : handle;
  trace : list Effect;
}.

Definition set_keepAliveTimer (h : option handle) (c : TCPClient) : TCPClient :=
  {| host := host c; port := port c; keepAliveTimeout := keepAliveTimeout c;
     keepAliveInterval := keepAliveInterval c; keepAliveTimer := h;
     timeoutTimer := timeoutTimer c; lastActivity := lastActivity c;
     isConnected := isConnected c; messageId := messageId c;
     timers := timers c; next_handle := next_handle c; trace := trace c |}.
Definition set_timeoutTimer (h : option handle) (c : TCPClient) : TCPClient :=
  {| host := host c; port := port c; keepAliveTimeout := keepAliveTimeout c;
     keepAliveInterval := keepAliveInterval c; keepAliveTimer := keepAliveTimer c;
     timeoutTimer := h; lastActivity := lastActivity c;
     isConnected := isConnected c; messageId := messageId c;
     timers := timers c; next_handle := next_handle c; trace := trace c |}.
Definition set_lastActivity (t : Z) (c : TCPClient) : TCPClient :=
  {| host := host c; port := port c; keepAliveTimeout := keepAliveTimeout c;
     keepAliveInterval := keepAliveInterval c; keepAliveTimer := keepAliveTimer c;
     timeoutTimer := timeoutTimer c; lastActivity := t;
     isConnected := isConnected c; messageId := messageId c;
     timers := timers c; next_handle := next_handle c; trace := trace c |}.
Definition set_isConnected (b : bool) (c : TCPClient) : TCPClient :=
  {| host := host c; port := port c; keepAliveTimeout := keepAliveTimeout c;
     keepAliveInterval := keepAliveInterval c; keepAliveTimer := keepAliveTimer c;
     timeoutTimer := timeoutTimer c; lastActivity := lastActivity c;
     isConnected := b; messageId := messageId c;
     timers := timers c; next_handle := next_handle c; trace := trace c |}.
Definition set_messageId (n : Z) (c : TCPClient) : TCPClient :=
  {| host := host c; port := port c; keepAliveTimeout := keepAliveTimeout c;
     keepAliveInterval := keepAliveInterval c; keepAliveTimer := keepAliveTimer c;
     timeoutTimer := timeoutTimer c; lastActivity := lastActivity c;
     isConnected := isConnected c; messageId := n;
     timers := timers c; next_handle := next_handle c; trace := trace c |}.
Definition set_timers (t : gmap handle Timer) (c : TCPClient) : TCPClient :=
  {| host := host c; port := port c; keepAliveTimeout := keepAliveTimeout c;
     keepAliveInterval := keepAliveInterval c; keepAliveTimer := keepAliveTimer c;
     timeoutTimer := timeoutTimer c; lastActivity := lastActivity c;
     isConnected := isConnected c; messageId := messageId c;
     timers := t; next_handle := next_handle c; trace := trace c |}.
Definition set_next_handle (n : handle) (c : TCPClient) : TCPClient :=
  {| host := host c; port := port c; keepAliveTimeout := keepAliveTimeout c;
     keepAliveInterval := keepAliveInterval c; keepAliveTimer := keepAliveTimer c;
     timeoutTimer := timeoutTimer c; lastActivity := lastActivity c;
     isConnected := isConnected c; messageId := messageId c;
     timers := timers c; next_handle := n; trace := trace c |}.
Definition set_trace (t : list Effect) (c : TCPClient) : TCPClient :=
  {| host := host c; port := port c; keepAliveTimeout := keepAliveTimeout c;
     keepAliveInterval := keepAliveInterval c; keepAliveTimer := keepAliveTimer c;
     timeoutTimer := timeoutTimer c; lastActivity := lastActivity c;
     isConnected := isConnected c; messageId := messageId c;
     timers := timers c; next_handle := next_handle c; trace := t |}.

Abbreviation Cli := (M TCPClient).

(** *** The runtime *)

Definition emit (e : Effect) : Cli unit :=
  modify (λ c, set_trace (trace c ++ [e]) c).

Definition schedule (t : Timer) (e : handle → Effect) : Cli handle :=
  λ c,
    let h := next_handle c in
    (Normal h,
     set_trace (trace c ++ [e h])
       (set_next_handle (S h) (set_timers (<[h := t]> (timers c)) c))).

Definition setInterval (now : Z) (cb : Callback) (delay : Z) : Cli handle :=
  schedule {| callback := cb; period := Some (timer_delay delay);
              due := now + timer_delay delay |} SetInterval.

Definition setTimeout (now : Z) (cb : Callback) (delay : Z) : Cli handle :=
  schedule {| callback := cb; period := None;
              due := now + timer_delay delay |} SetTimeout.

Definition clearInterval (h : handle) : Cli unit :=
  modify (λ c, set_timers (delete h (timers c)) c);;
  emit (ClearInterval h).

(** [String.prototype.trim]: the code units that are white space or line
    terminators. *)
Definition is_js_space (c : N) : bool :=
  ((9 <=? c) && (c <=? 13) || (c =? 32) || (c =? 160) || (c =? 5760)
   || (8192 <=? c) && (c <=? 8202) || (c =? 8232) || (c =? 8233)
   || (c =? 8239) || (c =? 8287) || (c =? 12288) || (c =? 65279))%N.

Fixpoint trim_start (s : jsstring) : jsstring :=
  match s with
  | c :: s' => if is_js_space c then trim_start s' else s
  | [] => []
  end.

Definition trim (s : jsstring) : jsstring :=
  reverse (trim_start (reverse (trim_start s))).

(** *** The methods of [TCPClient] *)

(** The constructor, run at time [now]; an argument left out is [None]
    and takes its default. *)
Definition new_TCPClient (now : Z) (host : option jsstring)
    (port keepAliveTimeout keepAliveInterval : option Z) : TCPClient :=
  {| host := default (js "localhost") host; port := default 4000 port;
     keepAliveTimeout := default 30000 keepAliveTimeout;
     keepAliveInterval := default 10000 keepAliveInterval;
     keepAliveTimer := None; timeoutTimer := None; lastActivity := now;
     isConnected := false; messageId := 0; timers := ∅;
     next_handle := 0%nat; trace := [] |}.

Definition sendMessage (now : Z) (message : ProtocolMessage) : Cli unit :=
  connected ← gets isConnected;
  if negb connected then mret ()
  else
    emit (Write (stringify_message message ++ newline));;
    modify (set_lastActivity now).

(** [`${prefix}_${++this.messageId}`] *)
Definition next_id (prefix : string) : Cli JSON.value :=
  n ← gets messageId;
  modify (set_messageId (n + 1));;
  mret (JSON.JStr (js prefix ++ js "_" ++ decimal (n + 1))).

Definition startKeepAlive (now : Z) : Cli unit :=
  interval ← gets keepAliveInterval;
  h ← setInterval now Probe interval;
  modify (set_keepAliveTimer (Some h));;
  timeout ← gets keepAliveTimeout;
  h' ← setInterval now TimeoutCheck timeout;
  modify (set_timeoutTimer (Some h')).

Definition stopKeepAlive : Cli unit :=
  keepAlive ← gets keepAliveTimer;
  match keepAlive with
  | Some h => clearInterval h;; modify (set_keepAliveTimer None)
  | None => mret ()
  end;;
  timeout ← gets timeoutTimer;
  match timeout with
  | Some h => clearInterval h;; modify (set_timeoutTimer None)
  | None => mret ()
  end.

Definition connect : Cli unit :=
  p ← gets port; h ← gets host; emit (Connect p h).

Definition send (now : Z) (data : option JSON.value) : Cli unit :=
  i ← next_id "data";
  sendMessage now
    {| type := js "data"; payload := data; timestamp := now; id := Some i |}.

Definition ping (now : Z) : Cli unit :=
  i ← next_id "ping";
  sendMessage now
    {| type := js "ping";
       payload := Some (JSON.JObj [(js "message", JSON.JStr (js "ping"))]);
       timestamp := now; id := Some i |}.

Definition disconnect (now : Z) : Cli unit :=
  sendMessage now
    {| type := js "close";
       payload := Some (JSON.JObj [(js "message",
                    JSON.JStr (js "Client disconnecting"))]);
       timestamp := now; id := None |};;
  _ ← setTimeout now EndSocket 100;
  mret ().

Definition is_type (ty : option JSON.value) (name : string) : bool :=
  match ty with
  | Some (JSON.JStr t) => bool_decide (t = js name)
  | _ => false
  end.

Definition handleMessage (now : Z) (message : JSON.value) : Cli unit :=
  ty ← prop message (js "type");
  template ty;;
  logged ← prop message (js "payload");
  console_log (received_line ty (js "server")) logged;;
  if is_type ty "close" then disconnect now else mret ().

(** [client.on('data', ...)]; [data] is [data.toString()]. *)
Definition on_data (now : Z) (data : jsstring) : Cli unit :=
  modify (set_lastActivity now);;
  try_catch
    (message ← JSON_parse (trim data);
     handleMessage now message)
    (λ error, mret () : Cli unit).

Definition on_connect (now : Z) : Cli unit :=
  modify (set_isConnected true);;
  modify (set_lastActivity now);;
  startKeepAlive now.

Definition on_error : Cli unit := modify (set_isConnected false).

Definition on_end : Cli unit :=
  modify (set_isConnected false);; stopKeepAlive.

Definition on_close : Cli unit :=
  modify (set_isConnected false);; stopKeepAlive.

Definition isConnectedToServer (c : TCPClient) : bool := isConnected c.
Definition getLastActivity (c : TCPClient) : Z := lastActivity c.

(** The bodies of the scheduled callbacks. *)
Definition run_callback (now : Z) (cb : Callback) : Cli unit :=
  match cb with
  | Probe =>
      connected ← gets isConnected;
      if (connected : bool) then
        i ← next_id "keepalive";
        sendMessage now
          {| type := js "keepalive";
             payload := Some (JSON.JObj [(js "message",
                          JSON.JStr (js "keepalive"))]);
             timestamp := now; id := Some i |}
      else mret ()
  | TimeoutCheck =>
      last ← gets lastActivity;
      timeout ← gets keepAliveTimeout;
      if now - last >? timeout then emit Destroy else mret ()
  | EndSocket => emit End
  end.

Definition reschedule (h : handle) (t : Timer) (timers : gmap handle Timer)
  : gmap handle Timer :=
  match period t with
  | Some p => <[h := {| callback := callback t; period := period t;
                        due := due t + p |}]> timers
  | None => delete h timers
  end.

Definition fire (h : handle) : Cli unit :=
  scheduled ← gets (λ c, timers c !! h);
  match scheduled with
  | None => mret ()
  | Some t =>
      modify (λ c, set_timers (reschedule h t (timers c)) c);;
      run_callback (due t) (callback t)
  end.

(** *** The event loop *)

Inductive Event :=
| OnConnect (now : Z)
| OnData (now : Z) (data : jsstring)
| OnError
| OnEnd
| OnClose
| OnTimer (h : handle)
| CallConnect
| CallSend (now : Z) (data : option JSON.value)
| CallPing (now : Z)
| CallDisconnect (now : Z).

Definition handler (e : Event) : Cli unit :=
  match e with
  | OnConnect now => on_connect now
  | OnData now data => on_data now data
  | OnError => on_error
  | OnEnd => on_end
  | OnClose => on_close
  | OnTimer h => fire h
  | CallConnect => connect
  | CallSend now data => send now data
  | CallPing now => ping now
  | CallDisconnect now => disconnect now
  end.

Definition step (c : TCPClient) (e : Event) : TCPClient := exec (handler e) c.

Definition run (c : TCPClient) (events : list Event) : TCPClient :=
  foldl step c events.

End Client.

(** ** Vocabulary of the properties *)

Module Registry.
Import Server.

(** What the dispatcher does to the object of a registered connection
    before it looks at the message. *)
Definition touch (now : Z) (c : ref) (s : TCPServer) : TCPServer :=
  set_heap (alter (set_isAlive true) c (alter (set_lastActivity now) c (heap s))) s.

(** One message written on a socket, and nothing else. *)
Definition reply (socket : sock) (message : ProtocolMessage) (s : TCPServer)
  : TCPServer :=
  set_trace (trace s ++ [Write socket (stringify_message message ++ newline)]) s.

(** Registry teardown is [cleanupConnection]. *)
Definition teardown (connectionId : jsstring) (s : TCPServer) : TCPServer :=
  exec (cleanupConnection connectionId) s.

(** The calls that close a transport: [end] and [destroy]. *)
Definition is_close (e : Effect) : bool :=
  match e with
  | End _ | Destroy _ => true
  | _ => false
  end.

Definition is_clear (e : Effect) : bool :=
  match e with
  | ClearInterval _ => true
  | _ => false
  end.

Definition count (p : Effect → bool) (tr : list Effect) : nat :=
  length (List.filter p tr).

(** The interval [h] is not scheduled, and [h] is not a handle that
    [setInterval] has yet to give out. *)
Definition cancelled (h : handle) (s : TCPServer) : Prop :=
  timers s !! h = None ∧ (h < next_handle s)%nat.

(** The object [c] has its [lastActivity] at [t]. *)
Definition lastActivity_is (c : ref) (t : Z) (s : TCPServer) : Prop :=
  lastActivity <$> heap s !! c = Some t.

(** The states of a server that was constructed and then ran. *)
Definition reachable (s : TCPServer) : Prop :=
  ∃ port timeout interval events,
    s = run (new_TCPServer port timeout interval) events.

(** What holds of every reachable state: a registered connection is an
    object that holds a timer handle; the handles held were given out by
    [setInterval]; a handle held by an object is, as long as it is
    scheduled, the probe of that object; scheduled handles were given out;
    the object a timeout check closes over exists. *)
Record consistent (s : TCPServer) : Prop := {
  registered_holds_handle :
    ∀ connectionId c,
      JSMap.get (connections s) connectionId = Some c →
      ∃ ci h, heap s !! c = Some ci ∧ keepAliveInterval ci = Some h;
  held_handles_allocated :
    ∀ c ci h,
      heap s !! c = Some ci → keepAliveInterval ci = Some h →
      (h < next_handle s)%nat;
  held_handle_is_probe :
    ∀ c ci h t,
      heap s !! c = Some ci → keepAliveInterval ci = Some h →
      timers s !! h = Some t → callback t = Probe c;
  scheduled_handles_allocated :
    ∀ h t, timers s !! h = Some t → (h < next_handle s)%nat;
  timeout_object_exists :
    ∀ h t c connectionId,
      timers s !! h = Some t → callback t = TimeoutCheck c connectionId →
      is_Some (heap s !! c);
}.

(** [e] is inbound data on a socket whose identifier is registered to the
    object [c]. *)
Definition inbound (c : ref) (s : TCPServer) (e : Event) : bool :=
  match e with
  | OnData _ _ connectionId _ =>
      bool_decide (JSMap.get (connections s) connectionId = Some c)
  | _ => false
  end.

Definition is_timer (h : handle) (e : Event) : bool :=
  match e with
  | OnTimer h' => bool_decide (h' = h)
  | _ => false
  end.

(** A run during which the object [c] receives nothing and the interval
    [h] does not come due; anything else may happen. *)
Fixpoint quiet (c : ref) (h : handle) (s : TCPServer) (events : list Event)
  : Prop :=
  match events with
  | [] => True
  | e :: rest =>
      inbound c s e = false ∧ is_timer h e = false ∧ quiet c h (step s e) rest
  end.

(** In a consistent state, the interval [h] is scheduled as [t], the
    object [c] is [ci] and the timeout is [T]. *)
Definition undisturbed (h : handle) (t : Timer) (c : ref) (ci : ConnectionInfo)
    (T : Z) (s : TCPServer) : Prop :=
  consistent s ∧ timers s !! h = Some t ∧ heap s !! c = Some ci
  ∧ keepAliveTimeout s = T.

Definition is_data (e : Event) : bool :=
  match e with
  | OnData _ _ _ _ => true
  | _ => false
  end.

(** The dispatcher writes its log line for a message of type [name]
    received from [connectionId] with the payload [p]: the line does not
    read as a format that converts [p] to a number (an identifier holds a
    [%] when the address has a zone, as in [fe80::1%docker0]) while [p]
    has no such conversion. *)
Definition logged (name : string) (connectionId : jsstring)
    (p : option JSON.value) : bool :=
  negb (console_log_throws
          (received_line (Some (JSON.JStr (js name))) connectionId) p).

(** The value nests no deeper than the stack of the runtime allows. *)
Definition shallow (v : JSON.value) : bool :=
  (JSON.nesting v <=? JSON.stack_safe)%nat.

End Registry.

(** ** Scenarios

    A server with the settings of [index.ts], one client connected from
    127.0.0.1:5000 at time 1000 on socket 7, and the messages of the
    scenarios. *)

Module Scenario.
Import Server.

Definition server0 : TCPServer :=
  new_TCPServer (Some 4000) (Some 30000) (Some 10000).

Definition alice : jsstring := js "127.0.0.1:5000".

Definition connect_alice : Event :=
  OnConnection 1000 7%nat (Some (js "127.0.0.1")) (Some 5000%N).

Definition server1 : TCPServer := step server0 connect_alice.

(** A second client, from 10.0.0.9:6000 at time 12000 on socket 8, and a
    ping from it at time 25000. *)
Definition bob : jsstring := js "10.0.0.9:6000".

Definition connect_bob : Event :=
  OnConnection 12000 8%nat (Some (js "10.0.0.9")) (Some 6000%N).

Definition bob_pings : Event :=
  OnData 25000 8%nat bob (jq "{'type':'ping','id':'b1'}" ++ newline).

(** What happens before the first timeout check of the first client, and
    between its first and its second. *)
Definition before_check : list Event := [OnTimer 0%nat; connect_bob].
Definition between_checks : list Event := [OnTimer 0%nat; bob_pings].

(** The first client has gone at 40000 (its socket closed) and a client
    from the same address and port has connected at 50000 on socket 9;
    the timeout check of the first connection has run once, at 31000. *)
Definition reconnected : TCPServer :=
  run server1
    [OnTimer 1%nat; OnClose alice;
     OnConnection 50000 9%nat (Some (js "127.0.0.1")) (Some 5000%N)].

(** A client on a link-local address: the runtime gives the address with
    the name of the interface after a [%]. *)
Definition carol : jsstring := js "fe80::1%docker0:5000".

Definition connect_carol : Event :=
  OnConnection 1000 7%nat (Some (js "fe80::1%docker0")) (Some 5000%N).

Definition server2 : TCPServer := step server0 connect_carol.

Definition ping_line : jsstring := jq "{'type':'ping','id':'p1'}" ++ newline.
Definition data_line : jsstring :=
  jq "{'type':'data','id':'d1','payload':{'x':1}}" ++ newline.

Definition ping_members : list (jsstring * JSON.value) :=
  [(js "type", JSON.JStr (js "ping")); (js "id", JSON.JStr (js "p1"))].
Definition data_members : list (jsstring * JSON.value) :=
  [(js "type", JSON.JStr (js "data")); (js "id", JSON.JStr (js "d1"));
   (js "payload", JSON.JObj [(js "x", JSON.JNum (Number.of_Z 1))])].

Definition ping_message : ProtocolMessage :=
  {| type := js "ping";
     payload := Some (JSON.JObj [(js "message", JSON.JStr (js "ping"))]);
     timestamp := 5000; id := Some (JSON.JStr (js "ping_1")) |}.

Definition keepalive_line : jsstring :=
  jq "{'type':'keepalive','id':'keepalive_3','payload':{'message':'keepalive'}}"
  ++ newline.
Definition keepalive_members : list (jsstring * JSON.value) :=
  [(js "type", JSON.JStr (js "keepalive"));
   (js "id", JSON.JStr (js "keepalive_3"));
   (js "payload", JSON.JObj [(js "message", JSON.JStr (js "keepalive"))])].

Definition close_line : jsstring :=
  jq "{'type':'close','payload':{'message':'Client disconnecting'}}" ++ newline.
Definition close_members : list (jsstring * JSON.value) :=
  [(js "type", JSON.JStr (js "close"));
   (js "payload", JSON.JObj [(js "message",
                              JSON.JStr (js "Client disconnecting"))])].

Definition probe_message (now : Z) : ProtocolMessage :=
  {| type := js "keepalive";
     payload := Some (JSON.JObj [(js "message", JSON.JStr (js "keepalive"))]);
     timestamp := now; id := None |}.

Definition client0 : Client.TCPClient :=
  Client.new_TCPClient 0 (Some (js "localhost")) (Some 4000) (Some 30000)
    (Some 10000).
Definition client1 : Client.TCPClient := exec (Client.on_connect 1000) client0.

End Scenario.

(** ** Vocabulary of the further properties *)

Module Observations.
Import Server Registry.

(** [message.key] where it does not throw: the own property of an object,
    [undefined] on everything else. *)
Definition own_property (message : JSON.value) (key : jsstring)
  : option JSON.value :=
  match message with
  | JSON.JObj members => JSMap.get members key
  | _ => None
  end.

(** The log line of [handleMessage] cannot be written for a message
    received from [sender]: the message is [null], its [type] has no
    conversion to a string, or the line reads as a format that converts
    the payload to a number and the payload has no such conversion. *)
Definition undispatchable (sender : jsstring) (message : JSON.value) : bool :=
  match message with
  | JSON.JNull => true
  | _ =>
      match own_property message (js "type") with
      | Some ty => ToString_throws ty
      | None => false
      end
      || console_log_throws
           (received_line (own_property message (js "type")) sender)
           (own_property message (js "payload"))
  end.

(** [message.type] is one of the four cases of the [switch] of the
    server. *)
Definition recognized (message : JSON.value) : bool :=
  is_type (own_property message (js "type")) "data"
  || is_type (own_property message (js "type")) "ping"
  || is_type (own_property message (js "type")) "keepalive"
  || is_type (own_property message (js "type")) "close".

Definition is_destroy (e : Effect) : bool :=
  match e with
  | Destroy _ => true
  | _ => false
  end.

Definition is_write (e : Effect) : bool :=
  match e with
  | Write _ _ => true
  | _ => false
  end.

(** The calls [stop] makes for the entries of the registry, in the order
    of the [Map]: for each, the [clearInterval] of the handle its object
    holds, then the [destroy] of its socket. *)
Definition stop_calls (heap : list ConnectionInfo)
    (entries : list (jsstring * ref)) : list Effect :=
  flat_map
    (λ entry,
       match keepAliveInterval (heap !!! entry.2) with
       | Some h => [ClearInterval h; Destroy (socket (heap !!! entry.2))]
       | None => [Destroy (socket (heap !!! entry.2))]
       end)
    entries.

(** The handles held by the objects of the entries, which [stop]
    clears. *)
Definition held_handles (heap : list ConnectionInfo)
    (entries : list (jsstring * ref)) : list handle :=
  omap (λ entry, keepAliveInterval (heap !!! entry.2)) entries.

Definition clear_all (hs : list handle) (timers : gmap handle Timer)
  : gmap handle Timer :=
  foldl (λ tm h, delete h tm) timers hs.

Definition is_end (e : Effect) : bool :=
  match e with
  | End _ => true
  | _ => false
  end.

(** The calls of one kind made so far are [k]. *)
Definition calls_so_far (p : Effect → bool) (k : list Effect) (s : TCPServer)
  : Prop :=
  List.filter p (trace s) = k.

(** Every connection object has [isAlive] set, and the object a probe
    closes over exists. *)
Definition all_alive (s : TCPServer) : Prop :=
  (∀ c ci, heap s !! c = Some ci → isAlive ci = true)
  ∧ (∀ h t c, timers s !! h = Some t → callback t = Probe c →
       is_Some (heap s !! c)).

(** No identifier is listed twice, every registered object exists, and no
    object is registered under two identifiers. *)
Definition registry_ok (s : TCPServer) : Prop :=
  NoDup (JSMap.keys (connections s))
  ∧ (∀ connectionId c,
       JSMap.get (connections s) connectionId = Some c →
       (c < length (heap s))%nat)
  ∧ (∀ connectionId connectionId' c,
       JSMap.get (connections s) connectionId = Some c →
       JSMap.get (connections s) connectionId' = Some c →
       connectionId = connectionId').

(** The interval [h] is scheduled with the callback [cb]. *)
Definition scheduled_as (h : handle) (cb : Callback) (s : TCPServer) : Prop :=
  consistent s ∧ ∃ t, timers s !! h = Some t ∧ callback t = cb.

End Observations.

Module ClientObservations.
Import Client.

(** The chunk decodes to a message whose [type] is [close] (and whose log
    line can be built): the one message the client acts on. *)
Definition asks_to_close (data : jsstring) : bool :=
  match JSON.parse (trim data) with
  | Some message =>
      negb (Observations.undispatchable (js "server") message)
      && is_type (Observations.own_property message (js "type")) "close"
  | None => false
  end.

(** Handles that are scheduled were given out. *)
Definition handles_allocated (c : TCPClient) : Prop :=
  ∀ h t, timers c !! h = Some t → (h < next_handle c)%nat.

Definition close_request (now : Z) : ProtocolMessage :=
  {| type := js "close";
     payload := Some (JSON.JObj [(js "message",
                  JSON.JStr (js "Client disconnecting"))]);
     timestamp := now; id := None |}.

Definition keepalive_probe (now n : Z) : ProtocolMessage :=
  {| type := js "keepalive";
     payload := Some (JSON.JObj [(js "message", JSON.JStr (js "keepalive"))]);
     timestamp := now;
     id := Some (JSON.JStr (js "keepalive" ++ js "_" ++ decimal n)) |}.

(** The calls that write on the socket, and the event by which the socket
    reports that it is connected. *)
Definition writes (e : Effect) : bool :=
  match e with
  | Write _ => true
  | _ => false
  end.

Definition is_connect (e : Event) : bool :=
  match e with
  | OnConnect _ => true
  | _ => false
  end.

(** The client is not connected and [k] is what it has written. *)
Definition unconnected (k : list Effect) (c : TCPClient) : Prop :=
  isConnected c = false ∧ List.filter writes (trace c) = k.

End ClientObservations.

(** ** Vocabulary of the wire format *)

Module Wire.
Import JSON.

(** The text of a JSON number: what the number automaton of the lexer
    accepts. *)
Definition num_start (c : N) : option numphase :=
  if (c =? 45)%N then Some NMinus
  else if (c =? 48)%N then Some NZero
  else if is_digit c then Some NInt else None.

Fixpoint num_run (p : numphase) (s : jsstring) : option numphase :=
  match s with
  | [] => Some p
  | c :: s' => p' ← num_next p c; num_run p' s'
  end.

Definition is_number (n : jsstring) : bool :=
  match n with
  | [] => false
  | c :: n' =>
      match p ← num_start c; num_run p n' with
      | Some p => num_accepting p
      | None => false
      end
  end.

(** A string of 16-bit code units. *)
Definition code_units (s : jsstring) : bool := forallb (λ c, c <? 65536)%N s.

(** The runtime enumerates the properties whose name is an array index
    before the others, whatever the order they were created in; a name
    that does not start with a digit is none. *)
Definition ordinary_key (k : jsstring) : bool :=
  match k with
  | c :: _ => negb (is_digit c)
  | [] => true
  end.

(** The values that stand for a JavaScript value built from [null],
    booleans, numbers, strings, arrays and plain objects: an object has
    one property per name, in creation order. *)
Fixpoint readable (v : value) : bool :=
  match v with
  | JNull | JBool _ | JNum _ => true
  | JStr s => code_units s
  | JArr xs => forallb readable xs
  | JObj ms =>
      forallb (λ kv, code_units (fst kv) && ordinary_key (fst kv)
                     && readable (snd kv)) ms
      && bool_decide (NoDup (map fst ms))
  end.

(** A number that is written as a number and nothing is lost: it is
    finite, it is not the negative zero, which is written [0], and it is
    a double: the search of [Number::toString] finds its digits. *)
Definition number_ok (x : Number.number) : bool :=
  match x with
  | Number.Zero negative => negb negative
  | Number.Infinity _ => false
  | Number.Finite _ m e => bool_decide (is_Some (Number.digits_found m e))
  end.

Fixpoint numbers_ok (v : value) : bool :=
  match v with
  | JNum x => number_ok x
  | JArr xs => forallb numbers_ok xs
  | JObj ms => forallb (λ kv, numbers_ok (snd kv)) ms
  | _ => true
  end.

Definition well_formed (v : value) : bool := readable v && numbers_ok v.

(** What the peer reads of a value that was written: a number that is
    not finite comes back as [null], the others as their text reads. *)
Definition reread_number (x : Number.number) : value :=
  match x with
  | Number.Infinity _ => JNull
  | _ => JNum (Number.of_lexeme (Number.to_string x))
  end.

Fixpoint reread (v : value) : value :=
  match v with
  | JNum x => reread_number x
  | JArr xs => JArr (map reread xs)
  | JObj ms => JObj (map (λ kv, (fst kv, reread (snd kv))) ms)
  | _ => v
  end.

(** The tokens of the text of a value. *)
Definition join_tokens (parts : list (list token)) : list token :=
  match parts with
  | [] => []
  | p :: ps => p ++ concat ((λ q, TComma :: q) <$> ps)
  end.

Fixpoint tokens (v : value) : list token :=
  match v with
  | JNull => [TNull]
  | JBool true => [TTrue]
  | JBool false => [TFalse]
  | JNum x =>
      match x with
      | Number.Infinity _ => [TNull]
      | _ => [TNum (Number.to_string x)]
      end
  | JStr s => [TStr s]
  | JArr xs => [TLBrack] ++ join_tokens (map tokens xs) ++ [TRBrack]
  | JObj ms =>
      [TLBrace] ++
      join_tokens (map (λ kv, TStr (fst kv) :: TColon :: tokens (snd kv)) ms)
      ++ [TRBrace]
  end.

(** What may follow a value in a JSON text. *)
Definition is_boundary (c : N) : bool :=
  (is_ws c || (c =? 44) || (c =? 93) || (c =? 125))%N.

Definition bounded (r : jsstring) : bool :=
  match r with
  | [] => true
  | c :: _ => is_boundary c
  end.

(** The lexer reads [s], followed by whatever may follow a value, as
    the tokens [ts]. *)
Definition lexes_to (s : jsstring) (ts : list token) : Prop :=
  ∀ r, bounded r = true →
       lex_from LDefault (s ++ r) =
       rest ← lex_from LDefault r; Some (ts ++ rest).

(** The object [JSON.stringify] is given by [sendMessage], and what the
    peer reads of it. *)
Definition message_object (m : ProtocolMessage) : value :=
  JObj ([(js "type", JStr (type m))]
        ++ optional_member (js "payload") (payload m)
        ++ [(js "timestamp", JNum (Number.of_Z (timestamp m)))]
        ++ optional_member (js "id") (id m)).

Definition wire_value (m : ProtocolMessage) : value :=
  reread (message_object m).

Definition optional_ok (v : option value) : bool :=
  match v with
  | Some x => well_formed x
  | None => true
  end.

Definition optional_readable (v : option value) : bool :=
  match v with
  | Some x => readable x
  | None => true
  end.

Definition message_ok (m : ProtocolMessage) : bool :=
  code_units (type m) && optional_readable (payload m)
  && optional_readable (id m).

(** A message as [sendMessage] writes it: its text and a newline. *)
Definition framed (m : ProtocolMessage) : jsstring :=
  stringify_message m ++ newline.

(** The message of the [n]th id that [send] builds, and the answer of the
    server to a [close]. *)
Definition data_request (now n : Z) (data : option value) : ProtocolMessage :=
  {| type := js "data"; payload := data; timestamp := now;
     id := Some (JStr (js "data" ++ js "_" ++ decimal n)) |}.

Definition close_reply (now : Z) : ProtocolMessage :=
  {| type := js "close";
     payload := Some (JObj [(js "message",
                             JStr (js "Connection closed by client"))]);
     timestamp := now; id := None |}.

End Wire.

(** * Properties *)

(** ** Insertion-ordered maps *)

Section JSMapFacts.
Context {K V : Type} `{EqDecision K}.
Implicit Types (m : list (K * V)) (k : K) (v : V).

Lemma jsmap_get_set_eq m k v : JSMap.get (JSMap.set m k v) k = Some v.
Proof.
  induction m as [|[k' v'] m IH]; simpl.
  - by rewrite decide_True.
  - destruct (decide (k' = k)) as [->|Hne]; simpl.
    + by rewrite decide_True.
    + by rewrite decide_False.
Qed.

Lemma jsmap_get_set_ne m k k' v :
  k ≠ k' → JSMap.get (JSMap.set m k v) k' = JSMap.get m k'.
Proof.
  intros Hne. induction m as [|[k0 v0] m IH]; simpl.
  - by rewrite decide_False.
  - destruct (decide (k0 = k)) as [->|Hne0]; simpl.
    + by rewrite !decide_False.
    + destruct (decide (k0 = k')); [done|apply IH].
Qed.

Lemma jsmap_get_delete_eq m k : JSMap.get (JSMap.delete m k) k = None.
Proof.
  induction m as [|[k' v'] m IH]; simpl; [done|].
  destruct (decide (k' = k)) as [->|Hne]; simpl; [done|].
  by rewrite decide_False.
Qed.

Lemma jsmap_get_delete_ne m k k' :
  k ≠ k' → JSMap.get (JSMap.delete m k) k' = JSMap.get m k'.
Proof.
  intros Hne. induction m as [|[k0 v0] m IH]; simpl; [done|].
  destruct (decide (k0 = k)) as [->|Hne0]; simpl.
  - by rewrite decide_False.
  - destruct (decide (k0 = k')); [done|apply IH].
Qed.
End JSMapFacts.

(** ** One JSON text per call of [JSON.parse] *)

Section JSONFacts.
Import JSON.

Lemma lex_from_run st s :
  lex_from st s =
  '(ts, st') ← lex_run st s; fin ← lex_end st'; Some (ts ++ fin).
Proof.
  revert st. induction s as [|c s IH]; intros st; simpl.
  - unfold lex_end. destruct st as [| | | |p acc|]; simpl; try done.
    by destruct (num_accepting p).
  - destruct (lex_step st c) as [[ts st']|]; simpl; [|done].
    rewrite IH. destruct (lex_run st' s) as [[rest st'']|]; simpl; [|done].
    destruct (lex_end st'') as [fin|]; simpl; [|done].
    by rewrite app_assoc.
Qed.

Lemma lex_run_app st s1 s2 :
  lex_run st (s1 ++ s2) =
  '(ts1, st1) ← lex_run st s1;
  '(ts2, st2) ← lex_run st1 s2;
  Some (ts1 ++ ts2, st2).
Proof.
  revert st. induction s1 as [|c s1 IH]; intros st; simpl.
  - by destruct (lex_run st s2) as [[ts2 st2]|].
  - destruct (lex_step st c) as [[ts st']|]; simpl; [|done].
    rewrite IH. destruct (lex_run st' s1) as [[ts1 st1]|]; simpl; [|done].
    destruct (lex_run st1 s2) as [[ts2 st2]|]; simpl; [|done].
    by rewrite app_assoc.
Qed.

Lemma literal_ok_default c ts st :
  lex_default c = Some (ts, st) → literal_ok st.
Proof.
  unfold lex_default.
  repeat (case_match; [intros [= <- <-]; simpl; try done;
                       repeat constructor; done|]).
  done.
Qed.

Lemma literal_ok_step st c ts st' :
  literal_ok st → lex_step st c = Some (ts, st') → literal_ok st'.
Proof.
  intros Hok. destruct st as [|acc|acc|acc ds|p acc|rest t]; simpl.
  - apply literal_ok_default.
  - repeat (case_match; [by intros [= <- <-]|]). by intros [= <- <-].
  - case_match; [by intros [= <- <-]|].
    destruct (unescape c); simpl; [by intros [= <- <-]|done].
  - destruct (hex_digit c); simpl; [|done].
    repeat case_match; by intros [= <- <-].
  - destruct (num_next p c); [by intros [= <- <-]|].
    destruct (num_accepting p); [|done].
    destruct (lex_default c) as [[ts0 st0]|] eqn:Hdef; simpl; [|done].
    intros [= <- <-]. by apply (literal_ok_default c ts0).
  - destruct rest as [|r [|r' rest']]; [done| |].
    + case_match; [by intros [= <- <-]|done].
    + case_match; [|done]. intros [= <- <-]. simpl in *.
      by apply Forall_cons in Hok as [_ Hok].
Qed.

Lemma literal_ok_run s : ∀ st ts st',
  literal_ok st → lex_run st s = Some (ts, st') → literal_ok st'.
Proof.
  induction s as [|c s IH]; intros st ts st' Hok; simpl.
  - by intros [= <- <-].
  - destruct (lex_step st c) as [[ts0 st0]|] eqn:Hstep; simpl; [|done].
    destruct (lex_run st0 s) as [[ts1 st1]|] eqn:Hrun; simpl; [|done].
    intros [= <- <-]. apply (IH st0 ts1); [|done].
    by apply (literal_ok_step st c ts0).
Qed.

(** After a newline the lexer is between tokens. *)
Lemma lex_step_newline st ts st' :
  literal_ok st → lex_step st 10%N = Some (ts, st') → st' = LDefault.
Proof.
  intros Hok. destruct st as [|acc|acc|acc ds|p acc|rest t].
  - by intros [= <- <-].
  - done.
  - done.
  - done.
  - destruct p; simpl; try done; by intros [= <- <-].
  - destruct rest as [|r [|r' rest']]; [done| |]; cbn -[N.eqb].
    + case_match; [by intros [= <- <-]|done].
    + simpl in Hok. apply Forall_cons in Hok as [Hr _].
      destruct (N.eqb_spec 10 r) as [<-|Hne]; done.
Qed.

Lemma lex_newline s ts :
  lex (s ++ newline) = Some ts →
  lex_run LDefault (s ++ newline) = Some (ts, LDefault).
Proof.
  unfold lex. rewrite lex_from_run, lex_run_app.
  destruct (lex_run LDefault s) as [[ts1 st1]|] eqn:Hrun; simpl; [|done].
  pose proof (literal_ok_run s LDefault ts1 st1 I Hrun) as Hok.
  destruct (lex_step st1 10%N) as [[ts2 st2]|] eqn:Hstep; simpl; [|done].
  rewrite (lex_step_newline st1 ts2 st2 Hok Hstep). simpl.
  rewrite !app_nil_r. by intros [= <-].
Qed.

Lemma parse_from_run st ts :
  parse_from st ts =
  st' ← parse_run st ts; match st' with PDone v => Some v | _ => None end.
Proof.
  revert st. induction ts as [|t ts IH]; intros st; simpl; [done|].
  destruct (parse_step st t) as [st'|]; simpl; [apply IH|done].
Qed.

Lemma parse_run_app st ts1 ts2 :
  parse_run st (ts1 ++ ts2) = st' ← parse_run st ts1; parse_run st' ts2.
Proof.
  revert st. induction ts1 as [|t ts1 IH]; intros st; simpl; [done|].
  destruct (parse_step st t) as [st'|]; simpl; [apply IH|done].
Qed.

(** A chunk that holds two messages, the first one ended by a newline, is
    not a JSON text: [JSON.parse] throws on it. *)
Lemma parse_two_messages a b v w :
  parse (a ++ newline) = Some v → parse b = Some w →
  parse ((a ++ newline) ++ b) = None.
Proof.
  unfold parse. intros Ha Hb.
  destruct (lex (a ++ newline)) as [tsa|] eqn:Hla; simpl in Ha; [|done].
  destruct (lex b) as [tsb|] eqn:Hlb; simpl in Hb; [|done].
  apply lex_newline in Hla.
  assert (lex ((a ++ newline) ++ b) = Some (tsa ++ tsb)) as ->.
  { unfold lex in *. rewrite lex_from_run, lex_run_app, Hla. simpl.
    rewrite lex_from_run in Hlb.
    destruct (lex_run LDefault b) as [[ts2 st2]|]; simpl in *; [|done].
    destruct (lex_end st2) as [fin|]; simpl in *; [|done].
    injection Hlb as <-. by rewrite app_assoc. }
  simpl. rewrite parse_from_run in Ha. rewrite parse_from_run, parse_run_app.
  destruct (parse_run (PValue []) tsa) as [sta|]; simpl in *; [|done].
  destruct sta; try done.
  destruct tsb as [|t tsb]; [done|]. done.
Qed.

End JSONFacts.

(** ** Computations *)

Section MonadFacts.
Context {S : Type}.

Lemma bind_gets {A B} (g : S → A) (f : A → M S B) (s : S) :
  (gets g ≫= f) s = f (g s) s.
Proof. reflexivity. Qed.

Lemma preserves_ret {A} (P : S → Prop) (a : A) : preserves P (mret a).
Proof. by intros s. Qed.

Lemma preserves_throw {A} (P : S → Prop) (e : exn) : preserves P (throw e : M S A).
Proof. by intros s. Qed.

Lemma preserves_gets {A} (P : S → Prop) (f : S → A) : preserves P (gets f).
Proof. by intros s. Qed.

Lemma preserves_bind {A B} (P : S → Prop) (m : M S A) (f : A → M S B) :
  preserves P m → (∀ a, preserves P (f a)) → preserves P (m ≫= f).
Proof.
  intros Hm Hf s HP. specialize (Hm s HP). unfold mbind, M_bind.
  destruct (m s) as [[a|e] s']; simpl in *; [by apply Hf|done].
Qed.

Lemma preserves_try_catch {A} (P : S → Prop) (body : M S A)
    (handler : exn → M S A) :
  preserves P body → (∀ e, preserves P (handler e)) →
  preserves P (try_catch body handler).
Proof.
  intros Hb Hh s HP. specialize (Hb s HP). unfold try_catch.
  destruct (body s) as [[a|e] s']; simpl in *; [done|by apply Hh].
Qed.

Lemma try_catch_at {A} (P : S → Prop) (body : M S A) (handler : exn → M S A)
    (s : S) :
  P (snd (body s)) → (∀ e, preserves P (handler e)) →
  P (snd (try_catch body handler s)).
Proof.
  intros Hb Hh. unfold try_catch.
  destruct (body s) as [[a|e] s']; simpl in *; [done|by apply Hh].
Qed.

Lemma preserves_prop (P : S → Prop) (message : JSON.value) (key : jsstring) :
  preserves P (prop message key).
Proof. destruct message; by intros ?. Qed.

Lemma preserves_template (P : S → Prop) (v : option JSON.value) :
  preserves P (template v).
Proof.
  unfold template. destruct v as [x|]; [|by intros ?].
  destruct (ToString_throws x); by intros ?.
Qed.

Lemma preserves_JSON_parse (P : S → Prop) (text : jsstring) :
  preserves P (JSON_parse text).
Proof. unfold JSON_parse. destruct (JSON.parse text); by intros ?. Qed.

Lemma preserves_console_log (P : S → Prop) (format : jsstring)
    (arg : option JSON.value) :
  preserves P (console_log format arg).
Proof.
  unfold console_log. destruct (console_log_throws format arg); by intros ?.
Qed.

End MonadFacts.

Create HintDb preserves.

#[global] Hint Resolve preserves_ret preserves_throw preserves_gets
  preserves_prop preserves_template preserves_JSON_parse
  preserves_console_log : preserves.

(** Splits a computation into its steps, leaving the primitive ones. *)
Ltac preserves_steps :=
  repeat first
    [ solve [eauto with preserves]
    | apply preserves_bind; [|intros ?]
    | apply preserves_try_catch; [|intros ?]
    | match goal with
      | |- preserves _ (match ?x with _ => _ end) => destruct x
      | |- preserves _ (if ?b then _ else _) => destruct b
      end ].

(** ** The runtime of the server *)

Section ServerRuntime.
Import Server Registry.

Lemma cleanupConnection_absent connectionId s :
  JSMap.get (connections s) connectionId = None →
  cleanupConnection connectionId s = (Normal (), s).
Proof.
  intros Hc. unfold cleanupConnection, mbind, M_bind, gets. by rewrite Hc.
Qed.

Lemma cleanupConnection_present connectionId c h s :
  JSMap.get (connections s) connectionId = Some c →
  keepAliveInterval (heap s !!! c) = Some h →
  cleanupConnection connectionId s =
  (Normal (),
   set_connections (JSMap.delete (connections s) connectionId)
     (set_trace (trace s ++ [ClearInterval h])
        (set_timers (delete h (timers s)) s))).
Proof.
  intros Hc Hh. unfold cleanupConnection, mbind, M_bind, gets, deref.
  rewrite Hc. simpl. by rewrite Hh.
Qed.

Lemma cleanupConnection_no_handle connectionId c s :
  JSMap.get (connections s) connectionId = Some c →
  keepAliveInterval (heap s !!! c) = None →
  cleanupConnection connectionId s =
  (Normal (), set_connections (JSMap.delete (connections s) connectionId) s).
Proof.
  intros Hc Hh. unfold cleanupConnection, mbind, M_bind, gets, deref.
  rewrite Hc. simpl. by rewrite Hh.
Qed.

(** After teardown the identifier is not in the registry. *)
Lemma teardown_removes connectionId s :
  JSMap.get (connections (teardown connectionId s)) connectionId = None.
Proof.
  unfold teardown, exec.
  destruct (JSMap.get (connections s) connectionId) as [c|] eqn:Hc.
  - destruct (keepAliveInterval (heap s !!! c)) as [h|] eqn:Hh.
    + rewrite (cleanupConnection_present _ _ _ _ Hc Hh). simpl.
      apply jsmap_get_delete_eq.
    + rewrite (cleanupConnection_no_handle _ _ _ Hc Hh). simpl.
      apply jsmap_get_delete_eq.
  - by rewrite (cleanupConnection_absent _ _ Hc).
Qed.

(** Teardown adds to the trace at most one call, a [clearInterval]. *)
Lemma teardown_trace connectionId s :
  ∃ rest, trace (teardown connectionId s) = trace s ++ rest
          ∧ count is_close rest = 0%nat ∧ (count is_clear rest ≤ 1)%nat.
Proof.
  unfold teardown, exec.
  destruct (JSMap.get (connections s) connectionId) as [c|] eqn:Hc.
  - destruct (keepAliveInterval (heap s !!! c)) as [h|] eqn:Hh.
    + rewrite (cleanupConnection_present _ _ _ _ Hc Hh). simpl.
      exists [ClearInterval h]. split_and!; [done|done|by cbn].
    + rewrite (cleanupConnection_no_handle _ _ _ Hc Hh). simpl.
      exists []. rewrite app_nil_r. split_and!; [done|done|cbn; lia].
  - rewrite (cleanupConnection_absent _ _ Hc). simpl.
    exists []. rewrite app_nil_r. split_and!; [done|done|cbn; lia].
Qed.

End ServerRuntime.

(** ** A cancelled interval stays cancelled *)

Section Cancelled.
Import Server Registry.
Variable h : handle.

Lemma cancelled_emit e : preserves (cancelled h) (emit e).
Proof. by intros s. Qed.

Lemma cancelled_deref c : preserves (cancelled h) (deref c).
Proof. by intros s. Qed.

Lemma cancelled_update c f : preserves (cancelled h) (update c f).
Proof. by intros s. Qed.

Lemma cancelled_alloc ci : preserves (cancelled h) (alloc ci).
Proof. by intros s. Qed.

Lemma cancelled_set_connections (f : TCPServer → list (jsstring * ref)) :
  preserves (cancelled h) (modify (λ s, set_connections (f s) s)).
Proof. by intros s. Qed.

(** [setInterval] gives out the next handle, which is not [h]. *)
Lemma cancelled_setInterval now cb delay :
  preserves (cancelled h) (setInterval now cb delay).
Proof.
  intros s [Hnone Hlt]. split; simpl; [|lia].
  rewrite lookup_insert_ne; [done|lia].
Qed.

Lemma cancelled_clearInterval h' : preserves (cancelled h) (clearInterval h').
Proof.
  intros s [Hnone Hlt]. split; simpl; [|done].
  destruct (decide (h' = h)) as [->|Hne].
  - apply lookup_delete_eq.
  - by rewrite lookup_delete_ne.
Qed.

Hint Resolve cancelled_emit cancelled_deref cancelled_update cancelled_alloc
  cancelled_set_connections cancelled_setInterval cancelled_clearInterval
  : preserves.

Lemma cancelled_sendMessage socket message :
  preserves (cancelled h) (sendMessage socket message).
Proof. apply cancelled_emit. Qed.

Lemma cancelled_cleanupConnection connectionId :
  preserves (cancelled h) (cleanupConnection connectionId).
Proof. unfold cleanupConnection. preserves_steps. Qed.

Lemma cancelled_startKeepAlive now connectionId :
  preserves (cancelled h) (startKeepAlive now connectionId).
Proof. unfold startKeepAlive. preserves_steps. Qed.

Hint Resolve cancelled_sendMessage cancelled_cleanupConnection
  cancelled_startKeepAlive : preserves.

Lemma cancelled_handleMessage now message connectionId :
  preserves (cancelled h) (handleMessage now message connectionId).
Proof. unfold handleMessage. preserves_steps. Qed.

Hint Resolve cancelled_handleMessage : preserves.

Lemma cancelled_on_data now socket connectionId data :
  preserves (cancelled h) (on_data now socket connectionId data).
Proof. unfold on_data. preserves_steps. Qed.

Lemma cancelled_on_connection now socket addr p :
  preserves (cancelled h) (on_connection now socket addr p).
Proof. unfold on_connection. preserves_steps. Qed.

Lemma cancelled_run_callback now cb :
  preserves (cancelled h) (run_callback now cb).
Proof. unfold run_callback. preserves_steps. Qed.

(** Running any interval does not schedule [h]: an interval that runs is
    scheduled, so it is not [h]. *)
Lemma cancelled_fire h' : preserves (cancelled h) (fire h').
Proof.
  intros s [Hnone Hlt]. unfold fire, mbind, M_bind, gets.
  destruct (timers s !! h') as [t|] eqn:Ht; [|done].
  assert (h' ≠ h) as Hne by congruence.
  unfold modify. apply cancelled_run_callback.
  split; simpl; [|done]. by rewrite lookup_insert_ne.
Qed.

Lemma cancelled_stop_loop entries : preserves (cancelled h) (stop_loop entries).
Proof.
  induction entries as [|[connectionId c] rest IH]; simpl; preserves_steps.
Qed.

Hint Resolve cancelled_stop_loop : preserves.

Lemma cancelled_stop : preserves (cancelled h) stop.
Proof. unfold stop. preserves_steps. Qed.

Lemma cancelled_start : preserves (cancelled h) start.
Proof. unfold start. preserves_steps. Qed.

Lemma cancelled_step s e : cancelled h s → cancelled h (step s e).
Proof.
  unfold step, exec. destruct e; simpl.
  - apply cancelled_on_connection.
  - apply cancelled_on_data.
  - apply cancelled_cleanupConnection.
  - apply cancelled_cleanupConnection.
  - apply cancelled_cleanupConnection.
  - apply cancelled_fire.
  - done.
  - apply cancelled_start.
  - apply cancelled_stop.
Qed.

Lemma cancelled_run events : ∀ s, cancelled h s → cancelled h (run s events).
Proof.
  induction events as [|e events IH]; intros s Hs; [done|].
  simpl. apply IH. by apply cancelled_step.
Qed.

(** The event loop does not run an interval that is not scheduled. *)
Lemma fire_cancelled s : timers s !! h = None → step s (OnTimer h) = s.
Proof.
  intros Hnone. unfold step, exec. simpl.
  unfold fire, mbind, M_bind, gets. by rewrite Hnone.
Qed.

End Cancelled.

(** ** Who writes [lastActivity] on the server *)

Section ActivityFrame.
Import Server Registry.
Variables (c : ref) (t : Z).

Lemma activity_emit e : preserves (lastActivity_is c t) (emit e).
Proof. by intros s. Qed.

Lemma activity_deref c' : preserves (lastActivity_is c t) (deref c').
Proof. by intros s. Qed.

Lemma activity_set_connections (f : TCPServer → list (jsstring * ref)) :
  preserves (lastActivity_is c t) (modify (λ s, set_connections (f s) s)).
Proof. by intros s. Qed.

Lemma activity_set_timers (f : TCPServer → gmap handle Timer) :
  preserves (lastActivity_is c t) (modify (λ s, set_timers (f s) s)).
Proof. by intros s. Qed.

Lemma activity_setInterval now cb delay :
  preserves (lastActivity_is c t) (setInterval now cb delay).
Proof. by intros s. Qed.

Lemma activity_clearInterval h : preserves (lastActivity_is c t) (clearInterval h).
Proof. by intros s. Qed.

(** A new object does not disturb those that exist. *)
Lemma activity_alloc ci : preserves (lastActivity_is c t) (alloc ci).
Proof.
  intros s. unfold lastActivity_is. simpl.
  destruct (heap s !! c) as [x|] eqn:Hx; [|done].
  by rewrite (lookup_app_l_Some _ _ _ _ Hx).
Qed.

(** Storing the timer handle in an object keeps its [lastActivity]. *)
Lemma activity_store_handle c' h :
  preserves (lastActivity_is c t) (update c' (set_keepAliveInterval h)).
Proof.
  intros s. unfold lastActivity_is. simpl.
  destruct (decide (c' = c)) as [->|Hne].
  - rewrite list_lookup_alter_eq. by destruct (heap s !! c).
  - by rewrite list_lookup_alter_ne.
Qed.

Hint Resolve activity_emit activity_deref activity_set_connections
  activity_set_timers activity_setInterval activity_clearInterval
  activity_alloc activity_store_handle : preserves.

Lemma activity_sendMessage socket message :
  preserves (lastActivity_is c t) (sendMessage socket message).
Proof. apply activity_emit. Qed.

Lemma activity_cleanupConnection connectionId :
  preserves (lastActivity_is c t) (cleanupConnection connectionId).
Proof. unfold cleanupConnection. preserves_steps. Qed.

Lemma activity_startKeepAlive now connectionId :
  preserves (lastActivity_is c t) (startKeepAlive now connectionId).
Proof. unfold startKeepAlive. preserves_steps. Qed.

Hint Resolve activity_sendMessage activity_cleanupConnection
  activity_startKeepAlive : preserves.

Lemma activity_on_connection now socket addr p :
  preserves (lastActivity_is c t) (on_connection now socket addr p).
Proof. unfold on_connection. preserves_steps. Qed.

Lemma activity_run_callback now cb :
  preserves (lastActivity_is c t) (run_callback now cb).
Proof. unfold run_callback. preserves_steps. Qed.

Hint Resolve activity_run_callback : preserves.

Lemma activity_fire h : preserves (lastActivity_is c t) (fire h).
Proof. unfold fire. preserves_steps. Qed.

Lemma activity_stop_loop entries :
  preserves (lastActivity_is c t) (stop_loop entries).
Proof.
  induction entries as [|[connectionId c'] rest IH]; simpl; preserves_steps.
Qed.

Hint Resolve activity_stop_loop : preserves.

Lemma activity_stop : preserves (lastActivity_is c t) stop.
Proof. unfold stop. preserves_steps. Qed.

Lemma activity_start : preserves (lastActivity_is c t) start.
Proof. unfold start. preserves_steps. Qed.

(** Every event but inbound data leaves [lastActivity] of every existing
    object as it was. *)
Lemma activity_step s e :
  is_data e = false → lastActivity_is c t s → lastActivity_is c t (step s e).
Proof.
  unfold step, exec. destruct e; simpl; intros Hdata; try discriminate.
  - apply activity_on_connection.
  - apply activity_cleanupConnection.
  - apply activity_cleanupConnection.
  - apply activity_cleanupConnection.
  - apply activity_fire.
  - done.
  - apply activity_start.
  - apply activity_stop.
Qed.

End ActivityFrame.

(** ** Reachable states are consistent *)

Section Consistency.
Import Server Registry.

Lemma total_lookup_handle (heap : list ConnectionInfo) (c : ref) (h : handle) :
  keepAliveInterval (heap !!! c) = Some h →
  ∃ ci, heap !! c = Some ci ∧ heap !!! c = ci.
Proof.
  rewrite list_lookup_total_alt.
  destruct (heap !! c) as [ci|]; simpl; [eauto|discriminate].
Qed.

Lemma consistent_new port timeout interval :
  consistent (new_TCPServer port timeout interval).
Proof. constructor; simpl; intros; simplify_eq. Qed.

Lemma consistent_emit e : preserves consistent (emit e).
Proof. intros s []. by constructor. Qed.

Lemma consistent_deref c : preserves consistent (deref c).
Proof. by intros s. Qed.

(** Writing a field other than the timer handle. *)
Lemma consistent_update c f :
  (∀ ci, keepAliveInterval (f ci) = keepAliveInterval ci) →
  preserves consistent (update c f).
Proof.
  intros Hf s [H1 H2 H3 H4 H5].
  assert (∀ c' ci', alter f c (heap s) !! c' = Some ci' →
            ∃ ci, heap s !! c' = Some ci
                  ∧ keepAliveInterval ci = keepAliveInterval ci') as Hback.
  { intros c' ci'. destruct (decide (c = c')) as [->|Hne].
    - rewrite list_lookup_alter_eq. destruct (heap s !! c') as [ci|]; [|done].
      simpl. intros [= <-]. eauto.
    - rewrite list_lookup_alter_ne by done. eauto. }
  constructor; simpl.
  - intros connectionId c' Hc'. destruct (H1 _ _ Hc') as (ci & h & Hci & Hh).
    destruct (decide (c = c')) as [->|Hne].
    + exists (f ci), h. rewrite list_lookup_alter_eq, Hci. by rewrite Hf.
    + exists ci, h. by rewrite list_lookup_alter_ne.
  - intros c' ci' h Hci' Hh. destruct (Hback _ _ Hci') as (ci & Hci & Heq).
    apply (H2 c' ci h); congruence.
  - intros c' ci' h t Hci' Hh Ht. destruct (Hback _ _ Hci') as (ci & Hci & Heq).
    apply (H3 c' ci h t); congruence.
  - done.
  - intros h t c' connectionId Ht Hcb.
    destruct (H5 _ _ _ _ Ht Hcb) as [ci Hci].
    destruct (decide (c = c')) as [->|Hne].
    + rewrite list_lookup_alter_eq, Hci. eauto.
    + rewrite list_lookup_alter_ne by done. eauto.
Qed.

Lemma consistent_touch_activity c now :
  preserves consistent (update c (set_lastActivity now)).
Proof. by apply consistent_update. Qed.

Lemma consistent_touch_alive c b :
  preserves consistent (update c (set_isAlive b)).
Proof. by apply consistent_update. Qed.

Lemma consistent_clearInterval h : preserves consistent (clearInterval h).
Proof.
  intros s [H1 H2 H3 H4 H5]. constructor; simpl; try done.
  - intros c ci h' t Hci Hh Ht. apply lookup_delete_Some in Ht as [_ Ht]. eauto.
  - intros h' t Ht. apply lookup_delete_Some in Ht as [_ Ht]. eauto.
  - intros h' t c connectionId Ht. apply lookup_delete_Some in Ht as [_ Ht]. eauto.
Qed.

Lemma consistent_delete connectionId :
  preserves consistent
    (modify (λ s, set_connections (JSMap.delete (connections s) connectionId) s)).
Proof.
  intros s [H1 H2 H3 H4 H5]. constructor; simpl; try done.
  intros connectionId' c Hc. apply (H1 connectionId').
  destruct (decide (connectionId = connectionId')) as [->|Hne].
  - by rewrite jsmap_get_delete_eq in Hc.
  - by rewrite jsmap_get_delete_ne in Hc.
Qed.

Lemma consistent_clear : preserves consistent (modify (set_connections [])).
Proof. intros s [H1 H2 H3 H4 H5]. constructor; simpl; try done. Qed.

Hint Resolve consistent_emit consistent_deref consistent_touch_activity
  consistent_touch_alive consistent_clearInterval consistent_delete
  consistent_clear : preserves.

Lemma consistent_sendMessage socket message :
  preserves consistent (sendMessage socket message).
Proof. apply consistent_emit. Qed.

Lemma consistent_cleanupConnection connectionId :
  preserves consistent (cleanupConnection connectionId).
Proof. unfold cleanupConnection. preserves_steps. Qed.

Hint Resolve consistent_sendMessage consistent_cleanupConnection : preserves.

Lemma consistent_handleMessage now message connectionId :
  preserves consistent (handleMessage now message connectionId).
Proof. unfold handleMessage. preserves_steps. Qed.

Hint Resolve consistent_handleMessage : preserves.

Lemma consistent_on_data now socket connectionId data :
  preserves consistent (on_data now socket connectionId data).
Proof. unfold on_data. preserves_steps. Qed.

Lemma consistent_run_callback now cb : preserves consistent (run_callback now cb).
Proof. unfold run_callback. preserves_steps. Qed.

(** An interval is scheduled again with the same callback. *)
Lemma consistent_reschedule h t s :
  consistent s → timers s !! h = Some t →
  consistent (set_timers (<[h := reschedule t]> (timers s)) s).
Proof.
  intros [H1 H2 H3 H4 H5] Ht. constructor; simpl; try done.
  - intros c ci h' t' Hci Hh Ht'.
    destruct (decide (h = h')) as [->|Hne].
    + rewrite lookup_insert_eq in Ht'. injection Ht' as <-. simpl. eauto.
    + rewrite lookup_insert_ne in Ht' by done. eauto.
  - intros h' t' Ht'. destruct (decide (h = h')) as [->|Hne]; [eauto|].
    rewrite lookup_insert_ne in Ht' by done. eauto.
  - intros h' t' c connectionId Ht' Hcb.
    destruct (decide (h = h')) as [->|Hne].
    + rewrite lookup_insert_eq in Ht'. injection Ht' as <-. simpl in Hcb. eauto.
    + rewrite lookup_insert_ne in Ht' by done. eauto.
Qed.

Lemma consistent_fire h : preserves consistent (fire h).
Proof.
  intros s Hs. unfold fire. rewrite bind_gets.
  destruct (timers s !! h) as [t|] eqn:Ht; [|done].
  unfold mbind, M_bind, modify. apply consistent_run_callback.
  by apply consistent_reschedule.
Qed.

Lemma consistent_stop_loop entries : preserves consistent (stop_loop entries).
Proof.
  induction entries as [|[connectionId c] rest IH]; simpl; preserves_steps.
Qed.

Hint Resolve consistent_stop_loop : preserves.

Lemma consistent_stop : preserves consistent stop.
Proof. unfold stop. preserves_steps. Qed.

Lemma consistent_start : preserves consistent start.
Proof. unfold start. preserves_steps. Qed.

(** Registration: the new object holds the handle of its probe, and both
    new intervals are for the new object. *)
Lemma consistent_on_connection now socket addr p :
  preserves consistent (on_connection now socket addr p).
Proof.
  intros s [H1 H2 H3 H4 H5].
  unfold on_connection, mbind, M_bind, alloc. simpl.
  unfold startKeepAlive, mbind, M_bind, gets. simpl.
  rewrite jsmap_get_set_eq. simpl.
  set (n := next_handle s). set (r := length (heap s)).
  set (ci0 := {| socket := socket; lastActivity := now;
                 keepAliveInterval := None; isAlive := true |}).
  assert (∀ c ci,
            alter (set_keepAliveInterval (Some n)) r (heap s ++ [ci0]) !! c
            = Some ci →
            (c = r ∧ keepAliveInterval ci = Some n)
            ∨ (c ≠ r ∧ heap s !! c = Some ci)) as Hheap.
  { intros c ci. destruct (decide (r = c)) as [<-|Hne].
    - rewrite list_lookup_alter_eq, lookup_app_r, Nat.sub_diag by (unfold r; lia).
      simpl. intros [= <-]. by left.
    - rewrite list_lookup_alter_ne by done. intros Hc. right. split; [done|].
      destruct (decide (c < r)%nat) as [Hlt|Hge].
      + by rewrite lookup_app_l in Hc.
      + apply lookup_lt_Some in Hc. rewrite length_app in Hc. simpl in Hc.
        fold r in Hc. lia. }
  assert (∀ c ci, heap s !! c = Some ci →
            alter (set_keepAliveInterval (Some n)) r (heap s ++ [ci0]) !! c
            = Some ci) as Hold.
  { intros c ci Hc. pose proof (lookup_lt_Some _ _ _ Hc) as Hlt. fold r in Hlt.
    rewrite list_lookup_alter_ne by lia. by rewrite lookup_app_l. }
  constructor; simpl.
  - intros connectionId c Hc.
    destruct (decide (connectionId_of addr p = connectionId)) as [<-|Hne].
    + rewrite jsmap_get_set_eq in Hc. injection Hc as <-.
      exists (set_keepAliveInterval (Some n) ci0), n. split; [|done].
      by rewrite list_lookup_alter_eq, lookup_app_r, Nat.sub_diag
        by (unfold r; lia).
    + rewrite jsmap_get_set_ne in Hc by done.
      destruct (H1 _ _ Hc) as (ci & h & Hci & Hh). eauto.
  - intros c ci h Hci Hh. destruct (Hheap _ _ Hci) as [[-> Hn]|[Hne Hc]].
    + assert (h = n) by congruence. lia.
    + specialize (H2 _ _ _ Hc Hh). fold n in H2. lia.
  - intros c ci h t Hci Hh Ht. destruct (Hheap _ _ Hci) as [[-> Hn]|[Hne Hc]].
    + assert (h = n) as -> by congruence.
      rewrite lookup_insert_ne, lookup_insert_eq in Ht by lia.
      by injection Ht as <-.
    + pose proof (H2 _ _ _ Hc Hh) as Hlt. fold n in Hlt.
      rewrite !lookup_insert_ne in Ht by lia. eauto.
  - intros h t Ht. destruct (decide (h = S n)) as [->|Hne1]; [lia|].
    rewrite lookup_insert_ne in Ht by done.
    destruct (decide (h = n)) as [->|Hne2]; [lia|].
    rewrite lookup_insert_ne in Ht by done.
    specialize (H4 _ _ Ht). fold n in H4. lia.
  - intros h t c connectionId Ht Hcb.
    destruct (decide (h = S n)) as [->|Hne1].
    { rewrite lookup_insert_eq in Ht. injection Ht as <-. simpl in Hcb.
      injection Hcb as <- _.
      by rewrite list_lookup_alter_eq, lookup_app_r, Nat.sub_diag
        by (unfold r; lia). }
    rewrite lookup_insert_ne in Ht by done.
    destruct (decide (h = n)) as [->|Hne2].
    { rewrite lookup_insert_eq in Ht. injection Ht as <-. discriminate. }
    rewrite lookup_insert_ne in Ht by done.
    destruct (H5 _ _ _ _ Ht Hcb) as [ci Hci]. exists ci. by apply Hold.
Qed.

Lemma consistent_step s e : consistent s → consistent (step s e).
Proof.
  unfold step, exec. destruct e; simpl.
  - apply consistent_on_connection.
  - apply consistent_on_data.
  - apply consistent_cleanupConnection.
  - apply consistent_cleanupConnection.
  - apply consistent_cleanupConnection.
  - apply consistent_fire.
  - done.
  - apply consistent_start.
  - apply consistent_stop.
Qed.

Lemma consistent_run events : ∀ s, consistent s → consistent (run s events).
Proof.
  induction events as [|e events IH]; intros s Hs; [done|].
  simpl. apply IH. by apply consistent_step.
Qed.

Lemma reachable_consistent s : reachable s → consistent s.
Proof.
  intros (port & timeout & interval & events & ->).
  apply consistent_run, consistent_new.
Qed.

End Consistency.

(** ** What a quiet run leaves undisturbed *)

Section Undisturbed.
Import Server Registry.
Variables (h : handle) (t : Timer) (c : ref) (ci : ConnectionInfo) (T : Z).
Hypothesis timeout_check :
  ∃ c' connectionId, callback t = TimeoutCheck c' connectionId.

Lemma undisturbed_emit e : preserves (undisturbed h t c ci T) (emit e).
Proof.
  intros s (Hs & Ht & Hc & HT). split_and!; try done. by apply consistent_emit.
Qed.

Lemma undisturbed_deref c' : preserves (undisturbed h t c ci T) (deref c').
Proof. by intros s. Qed.

Lemma undisturbed_delete connectionId :
  preserves (undisturbed h t c ci T)
    (modify (λ s, set_connections (JSMap.delete (connections s) connectionId) s)).
Proof.
  intros s (Hs & Ht & Hc & HT). split_and!; try done.
  by apply consistent_delete.
Qed.

Lemma undisturbed_clear :
  preserves (undisturbed h t c ci T) (modify (set_connections [])).
Proof.
  intros s (Hs & Ht & Hc & HT). split_and!; try done. by apply consistent_clear.
Qed.

(** Another object is written. *)
Lemma undisturbed_update c' f :
  c' ≠ c → (∀ x, keepAliveInterval (f x) = keepAliveInterval x) →
  preserves (undisturbed h t c ci T) (update c' f).
Proof.
  intros Hne Hf s (Hs & Ht & Hc & HT). split_and!; try done.
  - by apply consistent_update.
  - simpl. by rewrite list_lookup_alter_ne.
Qed.

(** Another interval is cleared. *)
Lemma undisturbed_clearInterval h' :
  h' ≠ h → preserves (undisturbed h t c ci T) (clearInterval h').
Proof.
  intros Hne s (Hs & Ht & Hc & HT). split_and!; try done.
  - by apply consistent_clearInterval.
  - simpl. by rewrite lookup_delete_ne.
Qed.

(** A handle held by an object is not [h]: a scheduled handle that is held
    is a probe, and [h] is a timeout check. *)
Lemma held_handle_differs s c' h' :
  undisturbed h t c ci T s →
  keepAliveInterval (heap s !!! c') = Some h' → h' ≠ h.
Proof.
  intros (Hs & Ht & Hc & HT) Hh' ->.
  destruct (total_lookup_handle _ _ _ Hh') as (ci' & Hci' & Heq).
  rewrite Heq in Hh'.
  pose proof (held_handle_is_probe s Hs c' ci' h t Hci' Hh' Ht) as Hprobe.
  destruct timeout_check as (c0 & connectionId & Hcb). congruence.
Qed.

Hint Resolve undisturbed_emit undisturbed_deref undisturbed_delete
  undisturbed_clear : preserves.

Lemma undisturbed_sendMessage socket message :
  preserves (undisturbed h t c ci T) (sendMessage socket message).
Proof. apply undisturbed_emit. Qed.

Hint Resolve undisturbed_sendMessage : preserves.

Lemma undisturbed_cleanupConnection connectionId :
  preserves (undisturbed h t c ci T) (cleanupConnection connectionId).
Proof.
  intros s HF. unfold cleanupConnection. rewrite bind_gets.
  destruct (JSMap.get (connections s) connectionId) as [c'|] eqn:Hc'; [|done].
  unfold deref. rewrite bind_gets.
  destruct (keepAliveInterval (heap s !!! c')) as [h'|] eqn:Hh'.
  - pose proof (held_handle_differs s c' h' HF Hh') as Hne.
    apply preserves_bind; [by apply undisturbed_clearInterval| |done].
    intros _. apply undisturbed_delete.
  - by apply undisturbed_delete.
Qed.

Hint Resolve undisturbed_cleanupConnection : preserves.

Lemma undisturbed_run_callback now cb :
  preserves (undisturbed h t c ci T) (run_callback now cb).
Proof. unfold run_callback. preserves_steps. Qed.

(** Another interval runs. *)
Lemma undisturbed_fire h' :
  h' ≠ h → preserves (undisturbed h t c ci T) (fire h').
Proof.
  intros Hne s (Hs & Ht & Hc & HT). unfold fire. rewrite bind_gets.
  destruct (timers s !! h') as [t'|] eqn:Ht'; [|done].
  unfold mbind, M_bind, modify. apply undisturbed_run_callback.
  split_and!; try done.
  - by apply consistent_reschedule.
  - simpl. by rewrite lookup_insert_ne.
Qed.

Lemma undisturbed_stop_loop entries :
  preserves (undisturbed h t c ci T) (stop_loop entries).
Proof.
  induction entries as [|[connectionId c'] rest IH]; simpl; [by intros s|].
  intros s HF. unfold deref. rewrite bind_gets.
  destruct (keepAliveInterval (heap s !!! c')) as [h'|] eqn:Hh'.
  - pose proof (held_handle_differs s c' h' HF Hh') as Hne.
    apply preserves_bind; [by apply undisturbed_clearInterval| |done].
    intros _. preserves_steps.
  - apply preserves_bind; [by intros ?| |done].
    intros _. preserves_steps.
Qed.

Hint Resolve undisturbed_stop_loop : preserves.

Lemma undisturbed_stop : preserves (undisturbed h t c ci T) stop.
Proof. unfold stop. preserves_steps. Qed.

Lemma undisturbed_start : preserves (undisturbed h t c ci T) start.
Proof. unfold start. preserves_steps. Qed.

(** A new connection: the intervals it schedules have new handles and its
    object is a new one. *)
Lemma undisturbed_on_connection now socket addr p :
  preserves (undisturbed h t c ci T) (on_connection now socket addr p).
Proof.
  intros s (Hs & Ht & Hc & HT). split_and!.
  - by apply consistent_on_connection.
  - pose proof (scheduled_handles_allocated s Hs h t Ht) as Hlt.
    unfold on_connection, mbind, M_bind, alloc. simpl.
    unfold startKeepAlive, mbind, M_bind, gets. simpl.
    rewrite jsmap_get_set_eq. simpl.
    by rewrite !lookup_insert_ne by lia.
  - pose proof (lookup_lt_Some _ _ _ Hc) as Hlt.
    unfold on_connection, mbind, M_bind, alloc. simpl.
    unfold startKeepAlive, mbind, M_bind, gets. simpl.
    rewrite jsmap_get_set_eq. simpl.
    rewrite list_lookup_alter_ne by lia. by rewrite lookup_app_l.
  - unfold on_connection, mbind, M_bind, alloc. simpl.
    unfold startKeepAlive, mbind, M_bind, gets. simpl.
    by rewrite jsmap_get_set_eq.
Qed.

(** A message for another object. *)
Lemma undisturbed_handleMessage now message connectionId s :
  JSMap.get (connections s) connectionId ≠ Some c →
  undisturbed h t c ci T s →
  undisturbed h t c ci T (snd (handleMessage now message connectionId s)).
Proof.
  intros Hother HF. unfold handleMessage. rewrite bind_gets.
  destruct (JSMap.get (connections s) connectionId) as [c'|] eqn:Hc'; [|done].
  assert (c' ≠ c) as Hne by congruence.
  apply preserves_bind; [by apply undisturbed_update| |done].
  intros _. apply preserves_bind; [by apply undisturbed_update|].
  intros _. preserves_steps.
Qed.

Lemma undisturbed_on_data now socket connectionId data s :
  JSMap.get (connections s) connectionId ≠ Some c →
  undisturbed h t c ci T s →
  undisturbed h t c ci T (snd (on_data now socket connectionId data s)).
Proof.
  intros Hother HF. unfold on_data. apply try_catch_at.
  - unfold JSON_parse. destruct (JSON.parse data) as [message|]; [|done].
    by apply undisturbed_handleMessage.
  - intros e. apply undisturbed_sendMessage.
Qed.

Lemma undisturbed_step s e :
  inbound c s e = false → is_timer h e = false →
  undisturbed h t c ci T s → undisturbed h t c ci T (step s e).
Proof.
  unfold step, exec. destruct e; simpl; intros Hin Htimer.
  - apply undisturbed_on_connection.
  - apply undisturbed_on_data. by apply bool_decide_eq_false in Hin.
  - apply undisturbed_cleanupConnection.
  - apply undisturbed_cleanupConnection.
  - apply undisturbed_cleanupConnection.
  - apply undisturbed_fire. by apply bool_decide_eq_false in Htimer.
  - done.
  - apply undisturbed_start.
  - apply undisturbed_stop.
Qed.

Lemma undisturbed_run events : ∀ s,
  quiet c h s events →
  undisturbed h t c ci T s → undisturbed h t c ci T (run s events).
Proof.
  induction events as [|e events IH]; intros s Hquiet HF; [done|].
  destruct Hquiet as (Hin & Htimer & Hquiet).
  simpl. apply IH; [done|]. by apply undisturbed_step.
Qed.

End Undisturbed.

(** ** Registry teardown *)

Section Teardown.
Import Server Registry Scenario.

(** C1, as the specification states it, fails on the code: teardown of the
    connection of the scenario cancels one interval (handle 0, the probe)
    and makes no call on socket 7; the timeout interval (handle 1) is still
    scheduled, and its second run after teardown destroys socket 7. *)
Lemma teardown_leaves_timeout_interval :
  trace (teardown alice server1) = trace server1 ++ [ClearInterval 0%nat]
  ∧ timers (teardown alice server1) !! 1%nat =
    Some {| callback := TimeoutCheck 0%nat alice; period := 30000; due := 31000 |}
  ∧ trace (run (teardown alice server1) [OnTimer 1%nat; OnTimer 1%nat]) =
    trace (teardown alice server1) ++ [Destroy 7%nat].
Proof. vm_compute. done. Qed.

(** C1 (amended): for every registered connection, registry teardown
    cancels the handle of the keepalive-probe timer and removes the entry,
    making no call on the transport handle; after teardown, whatever events
    follow, the keepalive-probe timer of that connection is never scheduled
    again, and the event loop running it does nothing. *)
Theorem teardown_cancels_probe connectionId c s :
  reachable s →
  JSMap.get (connections s) connectionId = Some c →
  ∃ h,
    keepAliveInterval (heap s !!! c) = Some h
    ∧ (∀ t, timers s !! h = Some t → callback t = Probe c)
    ∧ trace (teardown connectionId s) = trace s ++ [ClearInterval h]
    ∧ JSMap.get (connections (teardown connectionId s)) connectionId = None
    ∧ ∀ events,
        timers (run (teardown connectionId s) events) !! h = None
        ∧ step (run (teardown connectionId s) events) (OnTimer h)
          = run (teardown connectionId s) events.
Proof.
  intros Hreach Hc. apply reachable_consistent in Hreach as Hs.
  destruct (registered_holds_handle s Hs _ _ Hc) as (ci & h & Hci & Hh).
  pose proof (held_handles_allocated s Hs _ _ _ Hci Hh) as Hlt.
  assert (keepAliveInterval (heap s !!! c) = Some h) as Hh'.
  { by rewrite (list_lookup_total_correct _ _ _ Hci). }
  assert (cancelled h (teardown connectionId s)) as Hcancelled.
  { unfold teardown, exec. rewrite (cleanupConnection_present _ _ _ _ Hc Hh').
    split; simpl; [apply lookup_delete_eq|done]. }
  exists h. split_and!.
  - done.
  - intros t. by apply (held_handle_is_probe s Hs c ci).
  - unfold teardown, exec. by rewrite (cleanupConnection_present _ _ _ _ Hc Hh').
  - apply teardown_removes.
  - intros events.
    destruct (cancelled_run h events _ Hcancelled) as [Hnone _].
    split; [done|]. by apply fire_cancelled.
Qed.

Lemma teardown_cancels_probe_witness :
  trace (teardown alice server1) = trace server1 ++ [ClearInterval 0%nat]
  ∧ JSMap.get (connections (teardown alice server1)) alice = None
  ∧ timers (run (teardown alice server1)
              [OnTimer 0%nat; connect_alice; OnTimer 0%nat]) !! 0%nat = None.
Proof.
  destruct (teardown_cancels_probe alice 0%nat server1)
    as (h & Hh & _ & Htrace & Hgone & Hnever).
  - exists (Some 4000), (Some 30000), (Some 10000), [connect_alice].
    reflexivity.
  - vm_compute. reflexivity.
  - assert (h = 0%nat) as -> by (vm_compute in Hh; congruence).
    split_and!; [exact Htrace|exact Hgone|].
    exact (proj1 (Hnever [OnTimer 0%nat; connect_alice; OnTimer 0%nat])).
Defined.

(** C3, as the specification states it, fails on the code: two teardowns
    of the connection of the scenario close the transport zero times, not
    once, and cancel one interval, not the pair. *)
Lemma teardown_twice_closes_nothing :
  count is_close (trace (teardown alice (teardown alice server1))) = 0%nat
  ∧ count is_clear (trace (teardown alice (teardown alice server1))) = 1%nat
  ∧ is_Some (timers (teardown alice (teardown alice server1)) !! 1%nat).
Proof. vm_compute. eauto. Qed.

(** C3 (amended): registry teardown is idempotent. For every identifier,
    teardown when the entry has already been removed is a no-op, and
    teardown twice has exactly the effects of teardown once: one
    cancellation of the keepalive-probe timer, never two, and no close of
    the transport by teardown itself. *)
Theorem teardown_idempotent connectionId s :
  teardown connectionId (teardown connectionId s) = teardown connectionId s
  ∧ (JSMap.get (connections s) connectionId = None →
     teardown connectionId s = s)
  ∧ (∀ c h,
       JSMap.get (connections s) connectionId = Some c →
       keepAliveInterval (heap s !!! c) = Some h →
       trace (teardown connectionId (teardown connectionId s))
       = trace s ++ [ClearInterval h]).
Proof.
  assert (∀ s', JSMap.get (connections s') connectionId = None →
                teardown connectionId s' = s') as Habsent.
  { intros s' Hnone. unfold teardown, exec.
    by rewrite (cleanupConnection_absent _ _ Hnone). }
  assert (teardown connectionId (teardown connectionId s)
          = teardown connectionId s) as Htwice.
  { apply Habsent, teardown_removes. }
  split_and!; [done|apply Habsent|].
  intros c h Hc Hh. rewrite Htwice. unfold teardown, exec.
  by rewrite (cleanupConnection_present _ _ _ _ Hc Hh).
Qed.

Lemma teardown_idempotent_witness :
  teardown alice (teardown alice server1) = teardown alice server1
  ∧ teardown alice server0 = server0
  ∧ trace (teardown alice (teardown alice server1))
    = trace server1 ++ [ClearInterval 0%nat].
Proof.
  destruct (teardown_idempotent alice server1) as (Htwice & _ & Htrace).
  destruct (teardown_idempotent alice server0) as (_ & Habsent & _).
  split_and!.
  - exact Htwice.
  - apply Habsent. vm_compute. reflexivity.
  - apply (Htrace 0%nat 0%nat); vm_compute; reflexivity.
Defined.

End Teardown.

(** ** The inactivity timeout *)

Section Timeout.
Import Server Registry Scenario.

(** A timeout check that finds the connection active enough only
    reschedules itself. *)
Lemma timeout_check_quiet s h c connectionId T d :
  timers s !! h = Some {| callback := TimeoutCheck c connectionId;
                          period := T; due := d |} →
  d - lastActivity (heap s !!! c) ≤ keepAliveTimeout s →
  step s (OnTimer h) =
  set_timers (<[h := {| callback := TimeoutCheck c connectionId;
                        period := T; due := d + T |}]> (timers s)) s.
Proof.
  intros Ht Hquiet. unfold step, exec. simpl.
  unfold fire, mbind, M_bind, gets. rewrite Ht. simpl.
  unfold mbind, M_bind, deref, gets. simpl.
  destruct (Z.gtb_spec (d - lastActivity (heap s !!! c)) (keepAliveTimeout s));
    [lia|done].
Qed.

(** A timeout check that finds the connection silent for more than the
    timeout destroys its socket and tears the connection down. *)
Lemma timeout_check_expired s h c connectionId T d :
  timers s !! h = Some {| callback := TimeoutCheck c connectionId;
                          period := T; due := d |} →
  keepAliveTimeout s < d - lastActivity (heap s !!! c) →
  step s (OnTimer h) =
  teardown connectionId
    (set_trace (trace s ++ [Destroy (socket (heap s !!! c))])
       (set_timers (<[h := {| callback := TimeoutCheck c connectionId;
                              period := T; due := d + T |}]> (timers s)) s)).
Proof.
  intros Ht Hexpired. unfold step, exec. simpl.
  unfold fire, mbind, M_bind, gets. rewrite Ht. simpl.
  unfold mbind, M_bind, deref, gets. simpl.
  destruct (Z.gtb_spec (d - lastActivity (heap s !!! c)) (keepAliveTimeout s));
    [|lia].
  unfold teardown, exec. simpl.
  by destruct (cleanupConnection connectionId _) as [[[]|e] s'].
Qed.

(** C2: in a reachable state, take a connection object whose last inbound
    activity was at [a] and whose timeout check is due next at [d], with
    [a < d ≤ a + keepalive_timeout] (checks run every [keepalive_timeout],
    so the activity fell in the period before [d]). If from then on the
    object receives no inbound data, whatever else happens, then the check
    at [d] leaves the connection alone, and the check one period later, at
    [d + keepalive_timeout], destroys the transport and removes the entry
    from the registry. The silence is then more than [keepalive_timeout]
    and at most [2 × keepalive_timeout]. *)
Theorem silent_connection_is_closed s h c connectionId d events1 events2 :
  reachable s →
  timers s !! h = Some {| callback := TimeoutCheck c connectionId;
                          period := keepAliveTimeout s; due := d |} →
  0 < keepAliveTimeout s →
  lastActivity (heap s !!! c) < d →
  d ≤ lastActivity (heap s !!! c) + keepAliveTimeout s →
  quiet c h s events1 →
  quiet c h (run s (events1 ++ [OnTimer h])) events2 →
  (* the check at [d] *)
  trace (step (run s events1) (OnTimer h)) = trace (run s events1)
  ∧ connections (step (run s events1) (OnTimer h)) = connections (run s events1)
  ∧ heap (step (run s events1) (OnTimer h)) = heap (run s events1)
  (* the check at [d + keepAliveTimeout] *)
  ∧ timers (run s (events1 ++ OnTimer h :: events2)) !! h =
    Some {| callback := TimeoutCheck c connectionId;
            period := keepAliveTimeout s; due := d + keepAliveTimeout s |}
  ∧ (∃ rest,
       trace (step (run s (events1 ++ OnTimer h :: events2)) (OnTimer h)) =
       trace (run s (events1 ++ OnTimer h :: events2))
       ++ Destroy (socket (heap s !!! c)) :: rest
       ∧ count is_close rest = 0%nat)
  ∧ JSMap.get
      (connections (step (run s (events1 ++ OnTimer h :: events2)) (OnTimer h)))
      connectionId = None
  ∧ lastActivity (heap s !!! c) + keepAliveTimeout s < d + keepAliveTimeout s
  ∧ d + keepAliveTimeout s ≤ lastActivity (heap s !!! c) + 2 * keepAliveTimeout s.
Proof.
  intros Hreach Ht HT Hlo Hhi Hquiet1 Hquiet2.
  apply reachable_consistent in Hreach as Hs.
  destruct (timeout_object_exists s Hs h _ c connectionId Ht eq_refl)
    as [ci Hci].
  rewrite (list_lookup_total_correct _ _ _ Hci) in *.
  set (T := keepAliveTimeout s) in *.
  set (t := {| callback := TimeoutCheck c connectionId; period := T; due := d |}).
  set (t' := {| callback := TimeoutCheck c connectionId; period := T;
                due := d + T |}).
  (* up to the check at [d] *)
  assert (undisturbed h t c ci T (run s events1)) as (Hs1 & Ht1 & Hci1 & HT1).
  { apply undisturbed_run; [by eexists _, _|done|done]. }
  set (s1 := run s events1) in *.
  pose proof (list_lookup_total_correct _ _ _ Hci1) as Hci1'.
  assert (step s1 (OnTimer h) = set_timers (<[h := t']> (timers s1)) s1) as H1.
  { apply (timeout_check_quiet s1 h c connectionId T d Ht1).
    rewrite Hci1', HT1. lia. }
  (* from there up to the check at [d + T] *)
  assert (run s (events1 ++ [OnTimer h]) = step s1 (OnTimer h)) as Hrun1.
  { unfold run. by rewrite foldl_app. }
  assert (run s (events1 ++ OnTimer h :: events2)
          = run (step s1 (OnTimer h)) events2) as Hrun2.
  { unfold run. by rewrite foldl_app. }
  rewrite Hrun1 in Hquiet2. rewrite Hrun2.
  assert (undisturbed h t' c ci T (run (step s1 (OnTimer h)) events2))
    as (Hs2 & Ht2 & Hci2 & HT2).
  { apply undisturbed_run; [by eexists _, _|done|].
    split_and!.
    - by apply consistent_step.
    - rewrite H1. simpl. apply lookup_insert_eq.
    - by rewrite H1.
    - by rewrite H1. }
  set (s2 := run (step s1 (OnTimer h)) events2) in *.
  pose proof (list_lookup_total_correct _ _ _ Hci2) as Hci2'.
  assert (keepAliveTimeout s2 < d + T - lastActivity (heap s2 !!! c)) as Hexpired.
  { rewrite Hci2', HT2. lia. }
  pose proof (timeout_check_expired s2 h c connectionId T (d + T) Ht2 Hexpired)
    as H2.
  split_and!; try lia.
  - by rewrite H1.
  - by rewrite H1.
  - by rewrite H1.
  - done.
  - rewrite H2.
    match goal with
    | |- ∃ rest, trace (teardown _ ?s0) = _ ∧ _ =>
        destruct (teardown_trace connectionId s0) as (rest & -> & Hclose & _)
    end.
    exists rest. simpl. rewrite Hci2', <- app_assoc. done.
  - rewrite H2. apply teardown_removes.
Qed.

Lemma silent_connection_is_closed_witness :
  trace (step (run server1 before_check) (OnTimer 1%nat))
  = trace (run server1 before_check)
  ∧ JSMap.get
      (connections
         (step (run server1 (before_check ++ OnTimer 1%nat :: between_checks))
            (OnTimer 1%nat)))
      alice = None
  ∧ (∃ rest,
       trace
         (step (run server1 (before_check ++ OnTimer 1%nat :: between_checks))
            (OnTimer 1%nat)) =
       trace (run server1 (before_check ++ OnTimer 1%nat :: between_checks))
       ++ Destroy (socket (heap server1 !!! 0%nat)) :: rest
       ∧ count is_close rest = 0%nat).
Proof.
  destruct (silent_connection_is_closed server1 1%nat 0%nat alice 31000
              before_check between_checks)
    as (Hquiet & _ & _ & _ & Hclosed & Hgone & _).
  - exists (Some 4000), (Some 30000), (Some 10000), [connect_alice].
    reflexivity.
  - vm_compute. reflexivity.
  - vm_compute. reflexivity.
  - vm_compute. reflexivity.
  - vm_compute. discriminate.
  - vm_compute. done.
  - vm_compute. done.
  - split_and!; [exact Hquiet|exact Hgone|exact Hclosed].
Defined.

End Timeout.

(** ** Registration *)

Section Registration.
Import Server Registry Scenario.

(** C5, as the specification states it, fails on the code: a second
    connection under the identifier of the scenario does not fail; its
    object (reference 1) takes the place of the first (reference 0) in the
    registry. *)
Lemma register_present_overwrites :
  JSMap.get (connections server1) alice = Some 0%nat
  ∧ connections (step server1
                   (OnConnection 2000 8%nat (Some (js "127.0.0.1")) (Some 5000%N)))
    = [(alice, 1%nat)]
  ∧ socket <$> heap (step server1
                       (OnConnection 2000 8%nat (Some (js "127.0.0.1"))
                          (Some 5000%N))) !! 1%nat
    = Some 8%nat.
Proof. vm_compute. done. Qed.

(** C5 (amended): for every call to register with an identifier and a
    transport handle, the registry creates Connection State with
    last_activity = now and is_alive = true, starts the Liveness Scheduler
    for it (the probe every keepalive_interval, the timeout check every
    keepalive_timeout) and stores it keyed by identifier; if the identifier
    is already present, the new state replaces the existing entry. The
    other entries are left as they are. *)
Theorem register_creates_state now socket remoteAddress remotePort s :
  JSMap.get (connections (step s (OnConnection now socket remoteAddress remotePort)))
    (connectionId_of remoteAddress remotePort) = Some (length (heap s))
  ∧ heap (step s (OnConnection now socket remoteAddress remotePort))
      !! length (heap s) =
    Some {| socket := socket; lastActivity := now;
            keepAliveInterval := Some (next_handle s); isAlive := true |}
  ∧ timers (step s (OnConnection now socket remoteAddress remotePort))
      !! next_handle s =
    Some {| callback := Probe (length (heap s));
            period := timer_delay (this_keepAliveInterval s);
            due := now + timer_delay (this_keepAliveInterval s) |}
  ∧ timers (step s (OnConnection now socket remoteAddress remotePort))
      !! S (next_handle s) =
    Some {| callback := TimeoutCheck (length (heap s))
                          (connectionId_of remoteAddress remotePort);
            period := timer_delay (keepAliveTimeout s);
            due := now + timer_delay (keepAliveTimeout s) |}
  ∧ ∀ connectionId,
      connectionId ≠ connectionId_of remoteAddress remotePort →
      JSMap.get (connections (step s (OnConnection now socket remoteAddress
                                        remotePort))) connectionId
      = JSMap.get (connections s) connectionId.
Proof.
  unfold step, exec. simpl. unfold on_connection, mbind, M_bind, alloc.
  simpl. unfold startKeepAlive, mbind, M_bind, gets. simpl.
  rewrite jsmap_get_set_eq. simpl.
  split_and!.
  - apply jsmap_get_set_eq.
  - rewrite list_lookup_alter_eq, lookup_app_r, Nat.sub_diag; [done|lia].
  - rewrite lookup_insert_ne, lookup_insert_eq; [done|lia].
  - by rewrite lookup_insert_eq.
  - intros connectionId Hne. by rewrite jsmap_get_set_ne.
Qed.

End Registration.

(** ** The dispatcher of the server *)

Section Dispatcher.
Import Server Registry Scenario.

(** Writing [lastActivity] and [isAlive] leaves the socket of every object
    as it is. *)
Lemma socket_after_touch (now : Z) (c c' : ref) (heap : list ConnectionInfo) :
  socket (alter (set_isAlive true) c (alter (set_lastActivity now) c heap) !!! c')
  = socket (heap !!! c').
Proof.
  rewrite !list_lookup_total_alt.
  destruct (decide (c = c')) as [->|Hne].
  - rewrite !list_lookup_alter_eq. by destruct (heap !! c').
  - by rewrite !list_lookup_alter_ne.
Qed.

(** What the dispatcher does with a message that is an object, on a
    registered connection, once its log line is written. *)
Lemma handleMessage_logged now members connectionId c s :
  JSMap.get (connections s) connectionId = Some c →
  match JSMap.get members (js "type") with
  | Some ty => ToString_throws ty
  | None => false
  end = false →
  console_log_throws
    (received_line (JSMap.get members (js "type")) connectionId)
    (JSMap.get members (js "payload")) = false →
  handleMessage now (JSON.JObj members) connectionId s =
  (let ty := JSMap.get members (js "type") in
   let socket := socket (heap s !!! c) in
   if is_type ty "data" then
     sendMessage socket
       {| type := js "data"; payload := JSMap.get members (js "payload");
          timestamp := now; id := JSMap.get members (js "id") |}
   else if is_type ty "ping" then
     sendMessage socket
       {| type := js "pong";
          payload := Some (JSON.JObj [(js "message", JSON.JStr (js "pong"))]);
          timestamp := now; id := JSMap.get members (js "id") |}
   else if is_type ty "keepalive" then
     sendMessage socket
       {| type := js "keepalive";
          payload := Some (JSON.JObj [(js "status", JSON.JStr (js "alive"))]);
          timestamp := now; id := JSMap.get members (js "id") |}
   else if is_type ty "close" then
     sendMessage socket
       {| type := js "close";
          payload := Some (JSON.JObj [(js "message",
                       JSON.JStr (js "Connection closed by client"))]);
          timestamp := now; id := None |};;
     emit (End socket)
   else mret ()) (touch now c s).
Proof.
  intros Hc Hty Hlog. unfold handleMessage. rewrite bind_gets, Hc.
  unfold mbind, M_bind, update, modify. simpl.
  unfold prop, template, console_log, mret, M_ret. simpl. rewrite Hlog.
  destruct (JSMap.get members (js "type")) as [ty|]; [rewrite Hty|]; simpl;
    [|reflexivity].
  destruct ty as [|b|n|t|xs|ms]; try reflexivity.
  simpl. repeat case_bool_decide; by rewrite ?socket_after_touch.
Qed.

(** The log line of the dispatcher is the format of [console.log]. From
    a connection whose identifier holds a [%d] (here the [%docker0] of a
    link-local address), a payload that has no conversion to a primitive
    makes [console.log] throw: whatever the [type] of the message, the
    server answers [Invalid message format] and does nothing else. *)
Lemma unformattable_payload_is_refused :
  JSMap.get (connections server2) carol = Some 0%nat
  ∧ trace (step server2
             (OnData 2000 7%nat carol
                (jq "{'type':'data','id':'d1','payload':{'toString':1}}"))) =
    trace server2 ++
    [Write 7%nat
       (jq "{'type':'data','payload':{'error':'Invalid message format'},'timestamp':2000}"
        ++ newline)]
  ∧ trace (step server2
             (OnData 2000 7%nat carol
                (jq "{'type':'ping','id':'p1','payload':{'toString':1}}"))) =
    trace server2 ++
    [Write 7%nat
       (jq "{'type':'data','payload':{'error':'Invalid message format'},'timestamp':2000}"
        ++ newline)]
  ∧ trace (step server2
             (OnData 2000 7%nat carol
                (jq "{'type':'close','payload':{'toString':1}}"))) =
    trace server2 ++
    [Write 7%nat
       (jq "{'type':'data','payload':{'error':'Invalid message format'},'timestamp':2000}"
        ++ newline)].
Proof. vm_compute. done. Qed.







(** C10: for every decoded message whose connection identifier is not in
    the registry, the dispatcher returns at once: no reply, no object
    written, the registry and everything else as before. *)
Theorem unregistered_is_ignored now message connectionId s :
  JSMap.get (connections s) connectionId = None →
  handleMessage now message connectionId s = (Normal (), s).
Proof.
  intros Hc. unfold handleMessage, mbind, M_bind, gets. by rewrite Hc.
Qed.

Lemma unregistered_is_ignored_witness :
  handleMessage 2000 (JSON.JObj ping_members) (js "10.0.0.9:6000") server1
  = (Normal (), server1)
  ∧ handleMessage 2000 JSON.JNull (js "10.0.0.9:6000") server1
    = (Normal (), server1).
Proof.
  split; apply unregistered_is_ignored; vm_compute; reflexivity.
Defined.

End Dispatcher.

(** ** Decoding *)

Section Decoding.
Import Server Registry Scenario.

(** What the two ['data'] handlers do with a chunk that [JSON.parse]
    rejects. *)
Lemma server_rejects now socket connectionId data s :
  JSON.parse data = None →
  step s (OnData now socket connectionId data) =
  reply socket (invalid_format now) s.
Proof.
  intros Hparse. unfold step, exec. simpl.
  unfold on_data, try_catch, JSON_parse, mbind, M_bind. by rewrite Hparse.
Qed.

Lemma client_rejects now data c :
  JSON.parse (Client.trim data) = None →
  exec (Client.on_data now data) c = Client.set_lastActivity now c.
Proof.
  intros Hparse. unfold exec, Client.on_data, try_catch, JSON_parse.
  unfold mbind, M_bind. simpl. by rewrite Hparse.
Qed.

(** Whatever two messages arrive in one chunk, each on its line, the
    server decodes neither: it answers the chunk once, with the error
    payload. *)
Lemma two_messages_in_one_chunk a b v w now socket connectionId s :
  JSON.parse (a ++ newline) = Some v →
  JSON.parse (b ++ newline) = Some w →
  step s (OnData now socket connectionId ((a ++ newline) ++ (b ++ newline))) =
  reply socket (invalid_format now) s.
Proof.
  intros Ha Hb. apply server_rejects. by apply (parse_two_messages a _ v w).
Qed.

(** C4 on the code: each of the two lines of the scenario is a message on
    its own, and the server answers them when they arrive in two chunks.
    Arriving in one chunk they are given to [JSON.parse] whole, which
    throws: the server decodes neither, answers once with the error
    payload and leaves [lastActivity] as it was; the client decodes
    neither. *)
Lemma two_lines_in_one_chunk :
  JSON.parse ping_line = Some (JSON.JObj ping_members)
  ∧ JSON.parse data_line = Some (JSON.JObj data_members)
  ∧ trace (run server1 [OnData 2000 7%nat alice ping_line;
                        OnData 2000 7%nat alice data_line]) =
    trace server1 ++
    [Write 7%nat
       (jq "{'type':'pong','payload':{'message':'pong'},'timestamp':2000,'id':'p1'}"
        ++ newline);
     Write 7%nat
       (jq "{'type':'data','payload':{'x':1},'timestamp':2000,'id':'d1'}"
        ++ newline)]
  ∧ JSON.parse (ping_line ++ data_line) = None
  ∧ step server1 (OnData 2000 7%nat alice (ping_line ++ data_line)) =
    reply 7%nat (invalid_format 2000) server1
  ∧ exec (Client.on_data 2000 (ping_line ++ data_line)) client1 =
    Client.set_lastActivity 2000 client1.
Proof. vm_compute. done. Qed.



End Decoding.

(** ** Who writes [lastActivity] *)

Section Activity.
Import Registry Scenario.




End Activity.

(** * Further properties *)

(** ** The other cases of the dispatcher *)

Section DispatcherCases.
Import Server Registry Observations Scenario.

(** Without a second argument there is nothing for a format to convert. *)
Lemma console_log_undefined format : console_log_throws format None = false.
Proof. unfold console_log_throws. by destruct (first_specifier format). Qed.

(** The dispatcher up to the [switch], on a registered connection and a
    message whose log line can be built. *)
Lemma handleMessage_dispatchable now message connectionId c s :
  undispatchable connectionId message = false →
  JSMap.get (connections s) connectionId = Some c →
  handleMessage now message connectionId s =
  (let ty := own_property message (js "type") in
   let socket := socket (heap s !!! c) in
   if is_type ty "data" then
     sendMessage socket
       {| type := js "data"; payload := own_property message (js "payload");
          timestamp := now; id := own_property message (js "id") |}
   else if is_type ty "ping" then
     sendMessage socket
       {| type := js "pong";
          payload := Some (JSON.JObj [(js "message", JSON.JStr (js "pong"))]);
          timestamp := now; id := own_property message (js "id") |}
   else if is_type ty "keepalive" then
     sendMessage socket
       {| type := js "keepalive";
          payload := Some (JSON.JObj [(js "status", JSON.JStr (js "alive"))]);
          timestamp := now; id := own_property message (js "id") |}
   else if is_type ty "close" then
     sendMessage socket
       {| type := js "close";
          payload := Some (JSON.JObj [(js "message",
                       JSON.JStr (js "Connection closed by client"))]);
          timestamp := now; id := None |};;
     emit (End socket)
   else mret ()) (touch now c s).
Proof.
  intros Hok Hc.
  destruct message as [|b|n|t|xs|members]; try discriminate;
    try (unfold handleMessage; rewrite bind_gets, Hc;
         unfold mbind, M_bind, update, modify; simpl;
         unfold prop, template, console_log, mret, M_ret; simpl;
         by rewrite console_log_undefined).
  simpl in Hok. apply orb_false_elim in Hok as [Hty Hlog].
  exact (handleMessage_logged now members connectionId c s Hc Hty Hlog).
Qed.

Lemma on_data_dispatchable now socket connectionId data message s :
  JSON.parse data = Some message →
  undispatchable connectionId message = false →
  step s (OnData now socket connectionId data) =
  snd (handleMessage now message connectionId s).
Proof.
  intros Hparse Hok. unfold step, exec. simpl.
  unfold on_data, try_catch, JSON_parse, mbind, M_bind. rewrite Hparse. simpl.
  destruct (JSMap.get (connections s) connectionId) as [c|] eqn:Hc.
  - rewrite (handleMessage_dispatchable _ _ _ _ _ Hok Hc). simpl.
    by repeat case_match.
  - unfold handleMessage. rewrite bind_gets, Hc. done.
Qed.

(** A message whose [type] is a string is dispatched once its log line is
    written. *)
Lemma typed_is_dispatchable name connectionId message :
  own_property message (js "type") = Some (JSON.JStr (js name)) →
  logged name connectionId (own_property message (js "payload")) = true →
  undispatchable connectionId message = false.
Proof.
  destruct message; try done. simpl. intros -> Hlog. simpl.
  by apply negb_true_iff in Hlog.
Qed.

(** X1: A [keepalive] from a registered connection is acknowledged: the
    server writes exactly one message on the socket of that connection, of
    type [keepalive], with payload [{status: "alive"}] and, as its [id],
    the value [JSON.parse] made of the [id] received, written as
    [JSON.stringify] writes it (a number in its shortest form, an
    overflowing one as [null]); nothing else changes but [lastActivity]
    and [isAlive]. The log line of the dispatcher is written, and the
    message nests no deeper than the stack allows. *)
Theorem keepalive_is_acknowledged now socket connectionId data message c s :
  JSON.parse data = Some message →
  own_property message (js "type") = Some (JSON.JStr (js "keepalive")) →
  JSMap.get (connections s) connectionId = Some c →
  logged "keepalive" connectionId (own_property message (js "payload")) = true →
  shallow message = true →
  step s (OnData now socket connectionId data) =
  reply (Server.socket (heap s !!! c))
    {| type := js "keepalive";
       payload := Some (JSON.JObj [(js "status", JSON.JStr (js "alive"))]);
       timestamp := now; id := own_property message (js "id") |}
    (touch now c s).
Proof.
  intros Hparse Hty Hc Hlog _.
  pose proof (typed_is_dispatchable _ _ _ Hty Hlog) as Hok.
  rewrite (on_data_dispatchable _ _ _ _ _ _ Hparse Hok).
  rewrite (handleMessage_dispatchable _ _ _ _ _ Hok Hc). simpl.
  by rewrite Hty.
Qed.

Lemma keepalive_is_acknowledged_witness :
  trace (step server1 (OnData 2000 7%nat alice keepalive_line)) =
  trace server1 ++
  [Write 7%nat
     (jq "{'type':'keepalive','payload':{'status':'alive'},'timestamp':2000,'id':'keepalive_3'}"
      ++ newline)]
  ∧ trace (step server1
             (OnData 2000 7%nat alice
                (jq "{'type':'keepalive','id':1.50}" ++ newline))) =
    trace server1 ++
    [Write 7%nat
       (jq "{'type':'keepalive','payload':{'status':'alive'},'timestamp':2000,'id':1.5}"
        ++ newline)]
  ∧ trace (step server1
             (OnData 2000 7%nat alice
                (jq "{'type':'keepalive','id':1e400}" ++ newline))) =
    trace server1 ++
    [Write 7%nat
       (jq "{'type':'keepalive','payload':{'status':'alive'},'timestamp':2000,'id':null}"
        ++ newline)].
Proof.
  split; [|split].
  - rewrite (keepalive_is_acknowledged 2000 7%nat alice keepalive_line
               (JSON.JObj keepalive_members) 0%nat server1).
    + vm_compute. reflexivity.
    + vm_compute. reflexivity.
    + vm_compute. reflexivity.
    + vm_compute. reflexivity.
    + vm_compute. reflexivity.
    + vm_compute. reflexivity.
  - rewrite (keepalive_is_acknowledged 2000 7%nat alice
               (jq "{'type':'keepalive','id':1.50}" ++ newline)
               (JSON.JObj [(js "type", JSON.JStr (js "keepalive"));
                           (js "id", JSON.JNum (Number.Finite false 3 (-1)))])
               0%nat server1).
    + vm_compute. reflexivity.
    + vm_compute. reflexivity.
    + vm_compute. reflexivity.
    + vm_compute. reflexivity.
    + vm_compute. reflexivity.
    + vm_compute. reflexivity.
  - rewrite (keepalive_is_acknowledged 2000 7%nat alice
               (jq "{'type':'keepalive','id':1e400}" ++ newline)
               (JSON.JObj [(js "type", JSON.JStr (js "keepalive"));
                           (js "id", JSON.JNum (Number.Infinity false))])
               0%nat server1).
    + vm_compute. reflexivity.
    + vm_compute. reflexivity.
    + vm_compute. reflexivity.
    + vm_compute. reflexivity.
    + vm_compute. reflexivity.
    + vm_compute. reflexivity.
Defined.

(** X2: A [close] from a registered connection, once the log line of the
    dispatcher is written: the server writes one [close] message on the
    socket of that connection and then ends the socket for writing. It
    does not destroy the socket, and the connection stays in the registry
    with its intervals scheduled: teardown is left to the ['end'] and
    ['close'] events of the socket. The log line is written when
    [console.log] can format it (see [unformattable_payload_is_refused]
    for a [close] that is refused), and the message nests no deeper than
    the stack allows. *)
Theorem close_is_half_close now socket connectionId data message c s :
  JSON.parse data = Some message →
  own_property message (js "type") = Some (JSON.JStr (js "close")) →
  JSMap.get (connections s) connectionId = Some c →
  logged "close" connectionId (own_property message (js "payload")) = true →
  shallow message = true →
  step s (OnData now socket connectionId data) =
  set_trace
    (trace s ++
     [Write (Server.socket (heap s !!! c))
        (stringify_message
           {| type := js "close";
              payload := Some (JSON.JObj [(js "message",
                           JSON.JStr (js "Connection closed by client"))]);
              timestamp := now; id := None |} ++ newline);
      End (Server.socket (heap s !!! c))])
    (touch now c s).
Proof.
  intros Hparse Hty Hc Hlog _.
  pose proof (typed_is_dispatchable _ _ _ Hty Hlog) as Hok.
  rewrite (on_data_dispatchable _ _ _ _ _ _ Hparse Hok).
  rewrite (handleMessage_dispatchable _ _ _ _ _ Hok Hc). simpl.
  rewrite Hty. simpl. unfold set_trace. simpl. by rewrite <- app_assoc.
Qed.

Lemma close_is_half_close_witness :
  trace (step server1 (OnData 2000 7%nat alice close_line)) =
  trace server1 ++
  [Write 7%nat
     (jq "{'type':'close','payload':{'message':'Connection closed by client'},'timestamp':2000}"
      ++ newline);
   End 7%nat]
  ∧ connections (step server1 (OnData 2000 7%nat alice close_line))
    = connections server1
  ∧ timers (step server1 (OnData 2000 7%nat alice close_line))
    = timers server1.
Proof.
  rewrite (close_is_half_close 2000 7%nat alice close_line
             (JSON.JObj close_members) 0%nat server1).
  - vm_compute. done.
  - vm_compute. reflexivity.
  - vm_compute. reflexivity.
  - vm_compute. reflexivity.
  - vm_compute. reflexivity.
  - vm_compute. reflexivity.
Defined.

(** X3: A message that decodes, whose log line can be built and whose [type]
    is none of [data], [ping], [keepalive], [close] (a [pong], a missing
    or misspelt type, a number, a string, an array): the server sends
    nothing and closes nothing; it only records the activity. The log
    line can be built when the message is not [null], its [type] has a
    conversion to a string, and [console.log] does not meet a [%d], [%i]
    or [%f] in the line before any other format while the [payload] has
    no conversion to a primitive; the remaining messages are answered
    with [Invalid message format]. The message nests no deeper than the
    stack allows. *)
Theorem unrecognized_is_ignored now socket connectionId data message c s :
  JSON.parse data = Some message →
  undispatchable connectionId message = false →
  shallow message = true →
  recognized message = false →
  JSMap.get (connections s) connectionId = Some c →
  step s (OnData now socket connectionId data) = touch now c s.
Proof.
  intros Hparse Hok _ Hrec Hc.
  rewrite (on_data_dispatchable _ _ _ _ _ _ Hparse Hok).
  rewrite (handleMessage_dispatchable _ _ _ _ _ Hok Hc). simpl.
  unfold recognized in Hrec.
  apply orb_false_elim in Hrec as [Hrec Hclose].
  apply orb_false_elim in Hrec as [Hrec Hkeepalive].
  apply orb_false_elim in Hrec as [Hdata Hping].
  by rewrite Hdata, Hping, Hkeepalive, Hclose.
Qed.

Lemma unrecognized_is_ignored_witness :
  step server1 (OnData 2000 7%nat alice (jq "{'type':'pong','id':'p1'}"))
  = touch 2000 0%nat server1
  ∧ step server1 (OnData 2000 7%nat alice (jq "[1,2,3]"))
    = touch 2000 0%nat server1
  ∧ step server1
      (OnData 2000 7%nat alice (jq "{'type':'%s','payload':{'toString':1}}"))
    = touch 2000 0%nat server1
  ∧ step server1
      (OnData 2000 7%nat alice (jq "{'type':'%%d','payload':{'toString':1}}"))
    = touch 2000 0%nat server1
  ∧ step server1
      (OnData 2000 7%nat alice (jq "{'type':'%d','payload':{'valueOf':1}}"))
    = touch 2000 0%nat server1.
Proof.
  split; [|split; [|split; [|split]]].
  - apply (unrecognized_is_ignored 2000 7%nat alice _
             (JSON.JObj [(js "type", JSON.JStr (js "pong"));
                         (js "id", JSON.JStr (js "p1"))]));
      vm_compute; reflexivity.
  - apply (unrecognized_is_ignored 2000 7%nat alice _
             (JSON.JArr [JSON.JNum (Number.of_Z 1); JSON.JNum (Number.of_Z 2);
                         JSON.JNum (Number.of_Z 3)]));
      vm_compute; reflexivity.
  - apply (unrecognized_is_ignored 2000 7%nat alice _
             (JSON.JObj [(js "type", JSON.JStr (js "%s"));
                         (js "payload",
                          JSON.JObj [(js "toString",
                                      JSON.JNum (Number.of_Z 1))])]));
      vm_compute; reflexivity.
  - apply (unrecognized_is_ignored 2000 7%nat alice _
             (JSON.JObj [(js "type", JSON.JStr (js "%%d"));
                         (js "payload",
                          JSON.JObj [(js "toString",
                                      JSON.JNum (Number.of_Z 1))])]));
      vm_compute; reflexivity.
  - apply (unrecognized_is_ignored 2000 7%nat alice _
             (JSON.JObj [(js "type", JSON.JStr (js "%d"));
                         (js "payload",
                          JSON.JObj [(js "valueOf",
                                      JSON.JNum (Number.of_Z 1))])]));
      vm_compute; reflexivity.
Defined.

(** The dispatcher on a message whose log line cannot be built: it has
    recorded the activity when it throws. *)
Lemma handleMessage_undispatchable now message connectionId c s :
  undispatchable connectionId message = true →
  JSMap.get (connections s) connectionId = Some c →
  handleMessage now message connectionId s = (Abrupt TypeError, touch now c s).
Proof.
  intros Hbad Hc. unfold handleMessage. rewrite bind_gets, Hc.
  unfold mbind, M_bind, update, modify. simpl.
  destruct message as [|b|n|t|xs|members]; [done|..];
    unfold prop, template, console_log, mret, M_ret; simpl in *;
    rewrite ?console_log_undefined in Hbad; try discriminate.
  destruct (JSMap.get members (js "type")) as [ty|]; simpl in *.
  - destruct (ToString_throws ty); [done|]. simpl in *. by rewrite Hbad.
  - by rewrite Hbad.
Qed.

(** X4: A chunk that decodes to [null], or to a message whose [type] has no
    conversion to a string, or whose log line [console.log] cannot
    format (a [%d], [%i] or [%f] first in the line and a [payload]
    without a conversion to a primitive), on a registered connection: the
    dispatcher records the activity and then throws while building its
    log line, and the ['data'] handler answers as to a malformed chunk,
    with one message of type [data] and payload
    [{error: "Invalid message format"}] on the socket the chunk came
    from. Unlike a malformed chunk, this one has refreshed
    [lastActivity]. *)
Theorem undispatchable_is_answered now socket connectionId data message c s :
  JSON.parse data = Some message →
  undispatchable connectionId message = true →
  JSMap.get (connections s) connectionId = Some c →
  step s (OnData now socket connectionId data) =
  reply socket
    {| type := js "data";
       payload := Some (JSON.JObj [(js "error",
                    JSON.JStr (js "Invalid message format"))]);
       timestamp := now; id := None |}
    (touch now c s).
Proof.
  intros Hparse Hbad Hc. unfold step, exec. simpl.
  unfold on_data, try_catch, JSON_parse, mbind, M_bind. rewrite Hparse. simpl.
  by rewrite (handleMessage_undispatchable _ _ _ _ _ Hbad Hc).
Qed.

Lemma undispatchable_is_answered_witness :
  trace (step server1 (OnData 2000 7%nat alice (jq "null"))) =
  trace server1 ++
  [Write 7%nat
     (jq "{'type':'data','payload':{'error':'Invalid message format'},'timestamp':2000}"
      ++ newline)]
  ∧ trace (step server1
             (OnData 2000 7%nat alice (jq "{'type':{'toString':1}}"))) =
    trace server1 ++
    [Write 7%nat
       (jq "{'type':'data','payload':{'error':'Invalid message format'},'timestamp':2000}"
        ++ newline)]
  ∧ trace (step server1
             (OnData 2000 7%nat alice
                (jq "{'type':'%d','payload':{'toString':1}}"))) =
    trace server1 ++
    [Write 7%nat
       (jq "{'type':'data','payload':{'error':'Invalid message format'},'timestamp':2000}"
        ++ newline)].
Proof.
  split; [|split].
  - rewrite (undispatchable_is_answered 2000 7%nat alice _ JSON.JNull 0%nat);
      vm_compute; reflexivity.
  - rewrite (undispatchable_is_answered 2000 7%nat alice _
               (JSON.JObj [(js "type",
                            JSON.JObj [(js "toString",
                                        JSON.JNum (Number.of_Z 1))])])
               0%nat);
      vm_compute; reflexivity.
  - rewrite (undispatchable_is_answered 2000 7%nat alice _
               (JSON.JObj [(js "type", JSON.JStr (js "%d"));
                           (js "payload",
                            JSON.JObj [(js "toString",
                                        JSON.JNum (Number.of_Z 1))])])
               0%nat);
      vm_compute; reflexivity.
Defined.

(** Whatever a chunk decodes to, on a registered connection it changes no
    object but that of the connection, and neither the registry nor the
    intervals. *)
Lemma on_data_parsed_frame now socket connectionId data message c s :
  JSON.parse data = Some message →
  JSMap.get (connections s) connectionId = Some c →
  heap (step s (OnData now socket connectionId data)) = heap (touch now c s)
  ∧ connections (step s (OnData now socket connectionId data)) = connections s
  ∧ timers (step s (OnData now socket connectionId data)) = timers s
  ∧ keepAliveTimeout (step s (OnData now socket connectionId data))
    = keepAliveTimeout s.
Proof.
  intros Hparse Hc.
  destruct (undispatchable connectionId message) eqn:Hok.
  - unfold step, exec. simpl.
    unfold on_data, try_catch, JSON_parse, mbind, M_bind. rewrite Hparse. simpl.
    by rewrite (handleMessage_undispatchable _ _ _ _ _ Hok Hc).
  - rewrite (on_data_dispatchable _ _ _ _ _ _ Hparse Hok).
    rewrite (handleMessage_dispatchable _ _ _ _ _ Hok Hc). simpl.
    by repeat case_match.
Qed.

End DispatcherCases.

(** ** Activity keeps a connection *)

Section Liveness.
Import Server Registry Observations Scenario.

Lemma lastActivity_after_touch now c ci (heap : list ConnectionInfo) :
  heap !! c = Some ci →
  alter (set_isAlive true) c (alter (set_lastActivity now) c heap) !!! c
  = set_isAlive true (set_lastActivity now ci).
Proof.
  intros Hci. apply list_lookup_total_correct.
  by rewrite !list_lookup_alter_eq, Hci.
Qed.

(** X5: Any chunk that decodes, of whatever type, resets the timeout clock of
    the connection it arrives on: afterwards [lastActivity] is the time of
    the chunk and [isAlive] is set, and a timeout check of that connection
    that comes due no later than [keepalive_timeout] after the chunk
    neither destroys the socket nor removes the entry. *)
Theorem active_connection_is_kept now socket connectionId data message c s
    h connectionId' p d :
  reachable s →
  JSON.parse data = Some message →
  JSMap.get (connections s) connectionId = Some c →
  timers s !! h = Some {| callback := TimeoutCheck c connectionId';
                          period := p; due := d |} →
  d - now ≤ keepAliveTimeout s →
  lastActivity (heap (step s (OnData now socket connectionId data)) !!! c) = now
  ∧ isAlive (heap (step s (OnData now socket connectionId data)) !!! c) = true
  ∧ trace (run s [OnData now socket connectionId data; OnTimer h])
    = trace (step s (OnData now socket connectionId data))
  ∧ connections (run s [OnData now socket connectionId data; OnTimer h])
    = connections s.
Proof.
  intros Hreach Hparse Hc Ht Hd. apply reachable_consistent in Hreach as Hs.
  destruct (registered_holds_handle s Hs _ _ Hc) as (ci & h0 & Hci & _).
  destruct (on_data_parsed_frame now socket connectionId data message c s
              Hparse Hc) as (Hheap & Hconn & Htimers & HT).
  set (s1 := step s (OnData now socket connectionId data)) in *.
  assert (heap s1 !!! c = set_isAlive true (set_lastActivity now ci)) as Hobj.
  { rewrite Hheap. simpl. by apply lastActivity_after_touch. }
  assert (step s1 (OnTimer h) =
          set_timers (<[h := {| callback := TimeoutCheck c connectionId';
                                period := p; due := d + p |}]> (timers s1)) s1)
    as Hquiet.
  { apply timeout_check_quiet; [by rewrite Htimers|].
    rewrite Hobj, HT. simpl. lia. }
  change (run s [OnData now socket connectionId data; OnTimer h])
    with (step s1 (OnTimer h)).
  rewrite Hquiet, Hobj. by split_and!.
Qed.

Lemma active_connection_is_kept_witness :
  lastActivity (heap (step server1 (OnData 20000 7%nat alice keepalive_line))
                !!! 0%nat) = 20000
  ∧ trace (run server1 [OnData 20000 7%nat alice keepalive_line; OnTimer 1%nat])
    = trace (step server1 (OnData 20000 7%nat alice keepalive_line))
  ∧ connections (run server1 [OnData 20000 7%nat alice keepalive_line;
                              OnTimer 1%nat])
    = connections server1.
Proof.
  destruct (active_connection_is_kept 20000 7%nat alice keepalive_line
              (JSON.JObj keepalive_members) 0%nat server1 1%nat alice
              30000 31000) as (Hlast & _ & Htrace & Hconn).
  - exists (Some 4000), (Some 30000), (Some 10000), [connect_alice].
    reflexivity.
  - vm_compute. reflexivity.
  - vm_compute. reflexivity.
  - vm_compute. reflexivity.
  - vm_compute. discriminate.
  - split_and!; [exact Hlast|exact Htrace|exact Hconn].
Defined.

End Liveness.

(** ** The liveness flag *)

Section Alive.
Import Server Registry Observations Scenario.

Lemma all_alive_new port timeout interval :
  all_alive (new_TCPServer port timeout interval).
Proof. split; simpl; intros; simplify_eq. Qed.

Lemma all_alive_emit e : preserves all_alive (emit e).
Proof. by intros s. Qed.

Lemma all_alive_deref c : preserves all_alive (deref c).
Proof. by intros s. Qed.

Lemma all_alive_update c f :
  (∀ ci, isAlive ci = true → isAlive (f ci) = true) →
  preserves all_alive (update c f).
Proof.
  intros Hf s [Halive Hprobe]. split; simpl.
  - intros c' ci'. destruct (decide (c = c')) as [->|Hne].
    + rewrite list_lookup_alter_eq.
      destruct (heap s !! c') as [ci|] eqn:Hci; [|done].
      simpl. intros [= <-]. eauto.
    + rewrite list_lookup_alter_ne by done. eauto.
  - intros h t c' Ht Hcb. destruct (Hprobe _ _ _ Ht Hcb) as [ci Hci].
    destruct (decide (c = c')) as [->|Hne].
    + rewrite list_lookup_alter_eq, Hci. eauto.
    + rewrite list_lookup_alter_ne by done. eauto.
Qed.

Lemma all_alive_touch_activity c now :
  preserves all_alive (update c (set_lastActivity now)).
Proof. by apply all_alive_update. Qed.

Lemma all_alive_touch_alive c :
  preserves all_alive (update c (set_isAlive true)).
Proof. by apply all_alive_update. Qed.

Lemma all_alive_clearInterval h : preserves all_alive (clearInterval h).
Proof.
  intros s [Halive Hprobe]. split; simpl; [done|].
  intros h' t c Ht. apply lookup_delete_Some in Ht as [_ Ht]. eauto.
Qed.

Lemma all_alive_set_connections (f : TCPServer → list (jsstring * ref)) :
  preserves all_alive (modify (λ s, set_connections (f s) s)).
Proof. by intros s. Qed.

Hint Resolve all_alive_emit all_alive_deref all_alive_touch_activity
  all_alive_touch_alive all_alive_clearInterval all_alive_set_connections
  : preserves.

Lemma all_alive_sendMessage socket message :
  preserves all_alive (sendMessage socket message).
Proof. apply all_alive_emit. Qed.

Lemma all_alive_cleanupConnection connectionId :
  preserves all_alive (cleanupConnection connectionId).
Proof. unfold cleanupConnection. preserves_steps. Qed.

Hint Resolve all_alive_sendMessage all_alive_cleanupConnection : preserves.

Lemma all_alive_handleMessage now message connectionId :
  preserves all_alive (handleMessage now message connectionId).
Proof. unfold handleMessage. preserves_steps. Qed.

Hint Resolve all_alive_handleMessage : preserves.

Lemma all_alive_on_data now socket connectionId data :
  preserves all_alive (on_data now socket connectionId data).
Proof. unfold on_data. preserves_steps. Qed.

Lemma all_alive_run_callback now cb : preserves all_alive (run_callback now cb).
Proof. unfold run_callback. preserves_steps. Qed.

Lemma all_alive_fire h : preserves all_alive (fire h).
Proof.
  intros s [Halive Hprobe]. unfold fire. rewrite bind_gets.
  destruct (timers s !! h) as [t|] eqn:Ht; [|done].
  unfold mbind, M_bind, modify. apply all_alive_run_callback.
  split; simpl; [done|].
  intros h' t' c Ht' Hcb. destruct (decide (h = h')) as [->|Hne].
  - rewrite lookup_insert_eq in Ht'. injection Ht' as <-. simpl in Hcb. eauto.
  - rewrite lookup_insert_ne in Ht' by done. eauto.
Qed.

Lemma all_alive_stop_loop entries : preserves all_alive (stop_loop entries).
Proof.
  induction entries as [|[connectionId c] rest IH]; simpl; preserves_steps.
Qed.

Hint Resolve all_alive_stop_loop : preserves.

Lemma all_alive_stop : preserves all_alive stop.
Proof. unfold stop. preserves_steps. Qed.

Lemma all_alive_start : preserves all_alive start.
Proof. unfold start. preserves_steps. Qed.

(** A connection object is created alive, and its probe closes over
    it. *)
Lemma all_alive_on_connection now socket addr p :
  preserves all_alive (on_connection now socket addr p).
Proof.
  intros s [Halive Hprobe].
  unfold on_connection, mbind, M_bind, alloc. simpl.
  unfold startKeepAlive, mbind, M_bind, gets. simpl.
  rewrite jsmap_get_set_eq. simpl.
  set (n := next_handle s). set (r := length (heap s)).
  set (ci0 := {| socket := socket; lastActivity := now;
                 keepAliveInterval := None; isAlive := true |}).
  assert (∀ c ci, heap s !! c = Some ci →
            alter (set_keepAliveInterval (Some n)) r (heap s ++ [ci0]) !! c
            = Some ci) as Hold.
  { intros c ci Hc. pose proof (lookup_lt_Some _ _ _ Hc) as Hlt. fold r in Hlt.
    rewrite list_lookup_alter_ne by lia. by rewrite lookup_app_l. }
  assert (alter (set_keepAliveInterval (Some n)) r (heap s ++ [ci0]) !! r
          = Some (set_keepAliveInterval (Some n) ci0)) as Hnew.
  { by rewrite list_lookup_alter_eq, lookup_app_r, Nat.sub_diag
      by (unfold r; lia). }
  split; simpl.
  - intros c ci. destruct (decide (r = c)) as [<-|Hne].
    + rewrite Hnew. by intros [= <-].
    + rewrite list_lookup_alter_ne by done. intros Hc.
      destruct (decide (c < r)%nat) as [Hlt|Hge].
      * rewrite lookup_app_l in Hc by done. eauto.
      * apply lookup_lt_Some in Hc. rewrite length_app in Hc. simpl in Hc.
        fold r in Hc. lia.
  - intros h t c Ht Hcb.
    destruct (decide (h = S n)) as [->|Hne1].
    { rewrite lookup_insert_eq in Ht. injection Ht as <-. discriminate. }
    rewrite lookup_insert_ne in Ht by done.
    destruct (decide (h = n)) as [->|Hne2].
    { rewrite lookup_insert_eq in Ht. injection Ht as <-. simpl in Hcb.
      injection Hcb as <-. rewrite Hnew. eauto. }
    rewrite lookup_insert_ne in Ht by done.
    destruct (Hprobe _ _ _ Ht Hcb) as [ci Hci]. exists ci. by apply Hold.
Qed.

Lemma all_alive_step s e : all_alive s → all_alive (step s e).
Proof.
  unfold step, exec. destruct e; simpl.
  - apply all_alive_on_connection.
  - apply all_alive_on_data.
  - apply all_alive_cleanupConnection.
  - apply all_alive_cleanupConnection.
  - apply all_alive_cleanupConnection.
  - apply all_alive_fire.
  - done.
  - apply all_alive_start.
  - apply all_alive_stop.
Qed.

Lemma reachable_all_alive s : reachable s → all_alive s.
Proof.
  intros (port & timeout & interval & events & ->).
  generalize (all_alive_new port timeout interval).
  generalize (new_TCPServer port timeout interval).
  induction events as [|e events IH]; intros s Hs; [done|].
  simpl. apply IH. by apply all_alive_step.
Qed.

(** X6: Nothing on the server ever clears [isAlive]: in every reachable state
    every connection object has it set. So the guard of the probe never
    holds a probe back: whenever a probe interval runs, it writes exactly
    one [keepalive] message (without [id]) on the socket of its connection,
    and changes nothing else. It does not touch [lastActivity]. *)
Theorem probe_always_sends s h t c :
  reachable s →
  timers s !! h = Some t →
  callback t = Probe c →
  (∀ c' ci, heap s !! c' = Some ci → isAlive ci = true)
  ∧ step s (OnTimer h) =
    reply (Server.socket (heap s !!! c)) (probe_message (due t))
      (set_timers (<[h := reschedule t]> (timers s)) s).
Proof.
  intros Hreach Ht Hcb. destruct (reachable_all_alive s Hreach) as [Halive Hprobe].
  split; [done|].
  destruct (Hprobe _ _ _ Ht Hcb) as [ci Hci].
  unfold step, exec. simpl. unfold fire. rewrite bind_gets, Ht.
  unfold mbind, M_bind, modify. simpl. rewrite Hcb. simpl.
  unfold mbind, M_bind, deref, gets. simpl.
  by rewrite (list_lookup_total_correct _ _ _ Hci), (Halive _ _ Hci).
Qed.

Lemma probe_always_sends_witness :
  step server1 (OnTimer 0%nat) =
  reply 7%nat (probe_message 11000)
    (set_timers (<[0%nat := {| callback := Probe 0%nat; period := 10000;
                               due := 21000 |}]> (timers server1)) server1).
Proof.
  destruct (probe_always_sends server1 0%nat
              {| callback := Probe 0%nat; period := 10000; due := 11000 |}
              0%nat) as [_ Hsend].
  - exists (Some 4000), (Some 30000), (Some 10000), [connect_alice].
    reflexivity.
  - vm_compute. reflexivity.
  - reflexivity.
  - exact Hsend.
Defined.

End Alive.

(** ** The listing of the registry *)

Section Listing.
Import Server Registry Observations Scenario.

Lemma jsmap_get_None_keys {V} (m : list (jsstring * V)) (k : jsstring) :
  JSMap.get m k = None ↔ k ∉ JSMap.keys m.
Proof.
  unfold JSMap.keys. induction m as [|[k' v'] m IH]; csimpl.
  - split; [intros _; apply not_elem_of_nil|done].
  - rewrite not_elem_of_cons. destruct (decide (k' = k)) as [->|Hne].
    + split; [done|]. by intros [? _].
    + rewrite IH. split; [by intros ?|by intros [_ ?]].
Qed.

Lemma jsmap_keys_set_absent {V} (m : list (jsstring * V)) k v :
  JSMap.get m k = None → JSMap.keys (JSMap.set m k v) = JSMap.keys m ++ [k].
Proof.
  unfold JSMap.keys. induction m as [|[k' v'] m IH]; csimpl; [done|].
  destruct (decide (k' = k)); [done|]. intros Hm. csimpl. by rewrite IH.
Qed.

Lemma jsmap_keys_set_present {V} (m : list (jsstring * V)) k v :
  is_Some (JSMap.get m k) → JSMap.keys (JSMap.set m k v) = JSMap.keys m.
Proof.
  unfold JSMap.keys. induction m as [|[k' v'] m IH]; csimpl.
  - by intros [? ?].
  - destruct (decide (k' = k)) as [->|Hne]; [done|].
    intros Hm. csimpl. by rewrite IH.
Qed.

Lemma jsmap_keys_delete {V} (m : list (jsstring * V)) k :
  JSMap.keys (JSMap.delete m k) = filter (λ k', k' ≠ k) (JSMap.keys m).
Proof.
  unfold JSMap.keys. induction m as [|[k' v'] m IH]; csimpl; [done|].
  destruct (decide (k' = k)) as [->|Hne].
  - rewrite filter_cons_False by (by intros ?). done.
  - rewrite filter_cons_True by done. csimpl. by rewrite IH.
Qed.

Lemma jsmap_delete_absent {V} (m : list (jsstring * V)) k :
  JSMap.get m k = None → JSMap.delete m k = m.
Proof.
  induction m as [|[k' v'] m IH]; simpl; [done|].
  destruct (decide (k' = k)); [done|]. intros Hm. by rewrite IH.
Qed.

Lemma jsmap_get_delete_Some {V} (m : list (jsstring * V)) k k' v :
  JSMap.get (JSMap.delete m k) k' = Some v → JSMap.get m k' = Some v.
Proof.
  destruct (decide (k = k')) as [->|Hne].
  - by rewrite jsmap_get_delete_eq.
  - by rewrite jsmap_get_delete_ne.
Qed.

(** Dropping the one occurrence of a listed identifier. *)
Lemma filter_out_length (l : list jsstring) k :
  NoDup l → k ∈ l → S (length (filter (λ k', k' ≠ k) l)) = length l.
Proof.
  induction l as [|k0 l IH]; [by intros _ ?%elem_of_nil|].
  intros [Hnotin Hnodup]%NoDup_cons Hin.
  destruct (decide (k0 = k)) as [->|Hne].
  - rewrite filter_cons_False by (by intros ?). simpl. f_equal.
    clear IH Hnodup Hin. induction l as [|k1 l IH]; [done|].
    apply not_elem_of_cons in Hnotin as [Hne Hnotin].
    rewrite filter_cons_True by done. simpl. by rewrite IH.
  - rewrite filter_cons_True by done. simpl. f_equal. apply IH; [done|].
    by apply elem_of_cons in Hin as [->|Hin].
Qed.

Lemma registry_ok_new port timeout interval :
  registry_ok (new_TCPServer port timeout interval).
Proof. split_and!; simpl; [constructor|done|done]. Qed.

Lemma registry_ok_emit e : preserves registry_ok (emit e).
Proof. by intros s. Qed.

Lemma registry_ok_deref c : preserves registry_ok (deref c).
Proof. by intros s. Qed.

Lemma registry_ok_update c f : preserves registry_ok (update c f).
Proof.
  intros s (Hnodup & Hexists & Hinj). split_and!; simpl; [done| |done].
  intros connectionId c' Hc'. rewrite length_alter. eauto.
Qed.

Lemma registry_ok_clearInterval h : preserves registry_ok (clearInterval h).
Proof. by intros s. Qed.

Lemma registry_ok_delete connectionId :
  preserves registry_ok
    (modify (λ s, set_connections (JSMap.delete (connections s) connectionId) s)).
Proof.
  intros s (Hnodup & Hexists & Hinj). split_and!; simpl.
  - rewrite jsmap_keys_delete. by apply NoDup_filter.
  - intros connectionId' c Hc. apply jsmap_get_delete_Some in Hc. eauto.
  - intros id1 id2 c H1 H2. apply jsmap_get_delete_Some in H1, H2. eauto.
Qed.

Lemma registry_ok_clear : preserves registry_ok (modify (set_connections [])).
Proof. intros s _. split_and!; simpl; [constructor|done|done]. Qed.

Hint Resolve registry_ok_emit registry_ok_deref registry_ok_update
  registry_ok_clearInterval registry_ok_delete registry_ok_clear : preserves.

Lemma registry_ok_sendMessage socket message :
  preserves registry_ok (sendMessage socket message).
Proof. apply registry_ok_emit. Qed.

Lemma registry_ok_cleanupConnection connectionId :
  preserves registry_ok (cleanupConnection connectionId).
Proof. unfold cleanupConnection. preserves_steps. Qed.

Hint Resolve registry_ok_sendMessage registry_ok_cleanupConnection : preserves.

Lemma registry_ok_handleMessage now message connectionId :
  preserves registry_ok (handleMessage now message connectionId).
Proof. unfold handleMessage. preserves_steps. Qed.

Hint Resolve registry_ok_handleMessage : preserves.

Lemma registry_ok_on_data now socket connectionId data :
  preserves registry_ok (on_data now socket connectionId data).
Proof. unfold on_data. preserves_steps. Qed.

Lemma registry_ok_run_callback now cb :
  preserves registry_ok (run_callback now cb).
Proof. unfold run_callback. preserves_steps. Qed.

Lemma registry_ok_fire h : preserves registry_ok (fire h).
Proof.
  intros s Hs. unfold fire. rewrite bind_gets.
  destruct (timers s !! h) as [t|]; [|done].
  unfold mbind, M_bind, modify. by apply registry_ok_run_callback.
Qed.

Lemma registry_ok_stop_loop entries : preserves registry_ok (stop_loop entries).
Proof.
  induction entries as [|[connectionId c] rest IH]; simpl; preserves_steps.
Qed.

Hint Resolve registry_ok_stop_loop : preserves.

Lemma registry_ok_stop : preserves registry_ok stop.
Proof. unfold stop. preserves_steps. Qed.

Lemma registry_ok_start : preserves registry_ok start.
Proof. unfold start. preserves_steps. Qed.

(** What registration does to the registry. *)
Lemma on_connection_registry now socket addr p s :
  connections (step s (OnConnection now socket addr p)) =
  JSMap.set (connections s) (connectionId_of addr p) (length (heap s))
  ∧ length (heap (step s (OnConnection now socket addr p)))
    = S (length (heap s)).
Proof.
  unfold step, exec. simpl. unfold on_connection, mbind, M_bind, alloc.
  simpl. unfold startKeepAlive, mbind, M_bind, gets. simpl.
  rewrite jsmap_get_set_eq. simpl. split; [done|].
  rewrite length_alter, length_app. simpl. lia.
Qed.

Lemma registry_ok_on_connection now socket addr p :
  preserves registry_ok (on_connection now socket addr p).
Proof.
  intros s (Hnodup & Hexists & Hinj).
  destruct (on_connection_registry now socket addr p s) as [Hconn Hlen].
  unfold step, exec in Hconn, Hlen. simpl in Hconn, Hlen.
  split_and!; rewrite ?Hconn, ?Hlen.
  - destruct (JSMap.get (connections s) (connectionId_of addr p)) eqn:Hget.
    + by rewrite jsmap_keys_set_present.
    + rewrite jsmap_keys_set_absent by done.
      apply NoDup_app. split_and!; [done| |apply NoDup_singleton].
      intros k Hk ->%list_elem_of_singleton.
      by apply jsmap_get_None_keys in Hget.
  - intros connectionId c.
    destruct (decide (connectionId_of addr p = connectionId)) as [<-|Hne].
    + rewrite jsmap_get_set_eq. intros [= <-]. lia.
    + rewrite jsmap_get_set_ne by done. intros Hc.
      specialize (Hexists _ _ Hc). lia.
  - intros id1 id2 c.
    destruct (decide (connectionId_of addr p = id1)) as [<-|Hne1];
      destruct (decide (connectionId_of addr p = id2)) as [<-|Hne2];
      rewrite ?jsmap_get_set_eq, ?jsmap_get_set_ne by done; try done.
    + intros [= <-] Hc. specialize (Hexists _ _ Hc). lia.
    + intros Hc [= <-]. specialize (Hexists _ _ Hc). lia.
    + eauto.
Qed.

Lemma registry_ok_step s e : registry_ok s → registry_ok (step s e).
Proof.
  unfold step, exec. destruct e; simpl.
  - apply registry_ok_on_connection.
  - apply registry_ok_on_data.
  - apply registry_ok_cleanupConnection.
  - apply registry_ok_cleanupConnection.
  - apply registry_ok_cleanupConnection.
  - apply registry_ok_fire.
  - done.
  - apply registry_ok_start.
  - apply registry_ok_stop.
Qed.

Lemma reachable_registry_ok s : reachable s → registry_ok s.
Proof.
  intros (port & timeout & interval & events & ->).
  generalize (registry_ok_new port timeout interval).
  generalize (new_TCPServer port timeout interval).
  induction events as [|e events IH]; intros s Hs; [done|].
  simpl. apply IH. by apply registry_ok_step.
Qed.

Lemma teardown_connections connectionId s :
  connections (teardown connectionId s)
  = JSMap.delete (connections s) connectionId.
Proof.
  unfold teardown, exec.
  destruct (JSMap.get (connections s) connectionId) as [c|] eqn:Hc.
  - destruct (keepAliveInterval (heap s !!! c)) as [h|] eqn:Hh.
    + by rewrite (cleanupConnection_present _ _ _ _ Hc Hh).
    + by rewrite (cleanupConnection_no_handle _ _ _ Hc Hh).
  - rewrite (cleanupConnection_absent _ _ Hc). simpl.
    by rewrite jsmap_delete_absent.
Qed.

(** X7: Registration lists a new identifier last and counts it; on an
    identifier already listed, the listing and the count stay as they are
    (its entry is replaced). *)
Theorem registration_is_listed now socket remoteAddress remotePort s :
  (JSMap.get (connections s) (connectionId_of remoteAddress remotePort) = None →
   getConnections (step s (OnConnection now socket remoteAddress remotePort))
   = getConnections s ++ [connectionId_of remoteAddress remotePort]
   ∧ getConnectionCount
       (step s (OnConnection now socket remoteAddress remotePort))
     = S (getConnectionCount s))
  ∧ (is_Some (JSMap.get (connections s)
                (connectionId_of remoteAddress remotePort)) →
     getConnections (step s (OnConnection now socket remoteAddress remotePort))
     = getConnections s
     ∧ getConnectionCount
         (step s (OnConnection now socket remoteAddress remotePort))
       = getConnectionCount s).
Proof.
  destruct (on_connection_registry now socket remoteAddress remotePort s)
    as [Hconn _].
  assert (∀ s', getConnectionCount s' = length (getConnections s')) as Hcount.
  { intros s'. unfold getConnectionCount, getConnections, JSMap.size,
      JSMap.keys. by rewrite length_fmap. }
  unfold getConnections in *. rewrite Hconn. split.
  - intros Hnone. rewrite !Hcount. unfold getConnections. rewrite Hconn.
    rewrite jsmap_keys_set_absent by done.
    split; [done|]. rewrite length_app. simpl. lia.
  - intros Hsome. rewrite !Hcount. unfold getConnections. rewrite Hconn.
    by rewrite jsmap_keys_set_present.
Qed.

Lemma registration_is_listed_witness :
  getConnections (step server1 connect_bob) = [alice; bob]
  ∧ getConnectionCount (step server1 connect_bob) = 2%nat
  ∧ getConnections (step server1 connect_alice) = [alice]
  ∧ getConnectionCount (step server1 connect_alice) = 1%nat.
Proof.
  destruct (registration_is_listed 12000 8%nat (Some (js "10.0.0.9"))
              (Some 6000%N) server1) as [Hnew _].
  destruct (registration_is_listed 1000 7%nat (Some (js "127.0.0.1"))
              (Some 5000%N) server1) as [_ Hold].
  destruct Hnew as [Hlist Hcount]; [vm_compute; reflexivity|].
  destruct Hold as [Hlist' Hcount']; [vm_compute; eauto|].
  unfold connect_bob, connect_alice. split_and!.
  - rewrite Hlist. vm_compute. reflexivity.
  - rewrite Hcount. vm_compute. reflexivity.
  - rewrite Hlist'. vm_compute. reflexivity.
  - rewrite Hcount'. vm_compute. reflexivity.
Defined.

(** X8: In every reachable state no identifier is listed twice, and the
    teardown of a listed identifier takes exactly that identifier out of
    the listing: the others keep their order and the count drops by
    one. *)
Theorem teardown_is_unlisted connectionId s :
  reachable s →
  connectionId ∈ getConnections s →
  NoDup (getConnections s)
  ∧ getConnections (teardown connectionId s)
    = filter (λ k, k ≠ connectionId) (getConnections s)
  ∧ S (getConnectionCount (teardown connectionId s)) = getConnectionCount s.
Proof.
  intros Hreach Hin.
  destruct (reachable_registry_ok s Hreach) as (Hnodup & _ & _).
  assert (∀ s', getConnectionCount s' = length (getConnections s')) as Hcount.
  { intros s'. unfold getConnectionCount, getConnections, JSMap.size,
      JSMap.keys. by rewrite length_fmap. }
  split_and!; [done| |].
  - unfold getConnections. by rewrite teardown_connections, jsmap_keys_delete.
  - rewrite !Hcount. unfold getConnections.
    rewrite teardown_connections, jsmap_keys_delete.
    by apply filter_out_length.
Qed.

Lemma teardown_is_unlisted_witness :
  getConnections (teardown alice (step server1 connect_bob)) = [bob]
  ∧ S (getConnectionCount (teardown alice (step server1 connect_bob))) = 2%nat.
Proof.
  destruct (teardown_is_unlisted alice (step server1 connect_bob))
    as (_ & Hlist & Hcount).
  - exists (Some 4000), (Some 30000), (Some 10000), [connect_alice; connect_bob].
    vm_compute. reflexivity.
  - vm_compute. apply list_elem_of_here.
  - split.
    + rewrite Hlist. vm_compute. reflexivity.
    + rewrite Hcount. vm_compute. reflexivity.
Defined.

End Listing.

(** ** Stopping the server *)

Section Stop.
Import Server Registry Observations Scenario.

Lemma lookup_clear_all hs : ∀ (tm : gmap handle Timer) h,
  clear_all hs tm !! h = if decide (h ∈ hs) then None else tm !! h.
Proof.
  unfold clear_all. induction hs as [|h0 hs IH]; intros tm h.
  - destruct (decide (h ∈ [])) as [Hin|_]; [by apply elem_of_nil in Hin|done].
  - simpl foldl. rewrite IH.
    destruct (decide (h ∈ hs)) as [Hin|Hnotin],
             (decide (h ∈ h0 :: hs)) as [Hin'|Hnotin']; try done.
    + destruct Hnotin'. by right.
    + apply elem_of_cons in Hin' as [->|Hin']; [|done]. apply lookup_delete_eq.
    + rewrite lookup_delete_ne; [done|]. intros ->. destruct Hnotin'. left.
Qed.

(** The loop of [stop], entry by entry. *)
Lemma stop_loop_calls entries : ∀ s,
  stop_loop entries s =
  (Normal (),
   set_trace (trace s ++ stop_calls (heap s) entries)
     (set_timers (clear_all (held_handles (heap s) entries) (timers s)) s)).
Proof.
  induction entries as [|[connectionId c] rest IH]; intros s.
  - simpl. unfold stop_calls, held_handles, clear_all. simpl.
    rewrite app_nil_r. by destruct s.
  - simpl. unfold deref. rewrite bind_gets.
    unfold stop_calls, held_handles. simpl.
    destruct (keepAliveInterval (heap s !!! c)) as [h|] eqn:Hh.
    + unfold mbind, M_bind, clearInterval, emit, modify. simpl.
      unfold mbind, M_bind. simpl. rewrite IH. simpl.
      unfold stop_calls, held_handles. by rewrite <- !app_assoc.
    + unfold mbind, M_bind, emit, modify. simpl. rewrite IH. simpl.
      unfold stop_calls, held_handles. by rewrite <- !app_assoc.
Qed.

Lemma jsmap_get_elem {V} (m : list (jsstring * V)) k v :
  JSMap.get m k = Some v → (k, v) ∈ m.
Proof.
  induction m as [|[k' v'] m IH]; simpl; [done|].
  destruct (decide (k' = k)) as [->|Hne].
  - intros [= ->]. left.
  - intros Hm. right. by apply IH.
Qed.

(** X9: [stop] empties the registry, destroys the socket of every connection
    that was registered after cancelling the probe of that connection,
    and closes the listener last. It changes no connection object, and it
    leaves every timeout check scheduled. *)
Theorem stop_closes_every_connection s :
  reachable s →
  getConnectionCount (step s CallStop) = 0%nat
  ∧ getConnections (step s CallStop) = []
  ∧ heap (step s CallStop) = heap s
  ∧ trace (step s CallStop) =
    trace s ++ stop_calls (heap s) (connections s) ++ [CloseServer]
  ∧ (∀ connectionId c,
       JSMap.get (connections s) connectionId = Some c →
       Destroy (socket (heap s !!! c)) ∈ stop_calls (heap s) (connections s)
       ∧ ∃ h, keepAliveInterval (heap s !!! c) = Some h
              ∧ timers (step s CallStop) !! h = None)
  ∧ (∀ h t c connectionId,
       timers s !! h = Some t → callback t = TimeoutCheck c connectionId →
       timers (step s CallStop) !! h = Some t).
Proof.
  intros Hreach. apply reachable_consistent in Hreach as Hs.
  assert (step s CallStop =
          set_trace (trace s ++ stop_calls (heap s) (connections s)
                     ++ [CloseServer])
            (set_connections []
               (set_timers
                  (clear_all (held_handles (heap s) (connections s)) (timers s))
                  s))) as ->.
  { unfold step, exec. simpl. unfold stop. rewrite bind_gets.
    unfold mbind, M_bind. rewrite stop_loop_calls. simpl.
    unfold set_trace, set_connections. simpl. by rewrite <- app_assoc. }
  split_and!; try done.
  - intros connectionId c Hc. apply jsmap_get_elem in Hc as Hin.
    destruct (registered_holds_handle s Hs _ _ Hc) as (ci & h & Hci & Hh).
    rewrite <- (list_lookup_total_correct _ _ _ Hci) in Hh.
    split.
    + unfold stop_calls. apply list_elem_of_In, in_flat_map.
      exists (connectionId, c). split; [by apply list_elem_of_In|].
      simpl. rewrite Hh. right. left. done.
    + exists h. split; [done|]. simpl. rewrite lookup_clear_all.
      rewrite decide_True; [done|].
      unfold held_handles. apply list_elem_of_omap.
      by exists (connectionId, c).
  - intros h t c connectionId Ht Hcb. simpl. rewrite lookup_clear_all.
    rewrite decide_False; [done|].
    unfold held_handles. intros ((connectionId' & c') & Hin & Hh)%list_elem_of_omap.
    simpl in Hh.
    destruct (total_lookup_handle _ _ _ Hh) as (ci' & Hci' & Heq).
    rewrite Heq in Hh.
    pose proof (held_handle_is_probe s Hs c' ci' h t Hci' Hh Ht). congruence.
Qed.

Lemma stop_closes_every_connection_witness :
  getConnections (step (step server1 connect_bob) CallStop) = []
  ∧ trace (step (step server1 connect_bob) CallStop) =
    trace (step server1 connect_bob)
    ++ [ClearInterval 0%nat; Destroy 7%nat; ClearInterval 2%nat; Destroy 8%nat;
        CloseServer]
  ∧ timers (step (step server1 connect_bob) CallStop) !! 0%nat = None
  ∧ is_Some (timers (step (step server1 connect_bob) CallStop) !! 1%nat)
  ∧ is_Some (timers (step (step server1 connect_bob) CallStop) !! 3%nat).
Proof.
  destruct (stop_closes_every_connection (step server1 connect_bob))
    as (_ & Hlist & _ & Htrace & Hprobe & Hleak).
  - exists (Some 4000), (Some 30000), (Some 10000), [connect_alice; connect_bob].
    vm_compute. reflexivity.
  - split_and!.
    + exact Hlist.
    + rewrite Htrace. vm_compute. reflexivity.
    + destruct (Hprobe alice 0%nat) as (_ & h & Hh & Hnone);
        [vm_compute; reflexivity|].
      assert (h = 0%nat) as -> by (vm_compute in Hh; congruence). exact Hnone.
    + erewrite (Hleak 1%nat _ 0%nat alice); [eauto|vm_compute; reflexivity|done].
    + erewrite (Hleak 3%nat _ 1%nat bob); [eauto|vm_compute; reflexivity|done].
Defined.

End Stop.

(** ** Timeout checks are never cancelled *)

Section TimeoutLeak.
Import Server Registry Observations Scenario.
Variables (h : handle) (c : ref) (connectionId : jsstring).

Lemma leak_emit e :
  preserves (scheduled_as h (TimeoutCheck c connectionId)) (emit e).
Proof. intros s [Hs Ht]. split; [by apply consistent_emit|done]. Qed.

Lemma leak_deref c' :
  preserves (scheduled_as h (TimeoutCheck c connectionId)) (deref c').
Proof. by intros s. Qed.

Lemma leak_touch_activity c' now :
  preserves (scheduled_as h (TimeoutCheck c connectionId))
    (update c' (set_lastActivity now)).
Proof. intros s [Hs Ht]. split; [by apply consistent_touch_activity|done]. Qed.

Lemma leak_touch_alive c' b :
  preserves (scheduled_as h (TimeoutCheck c connectionId))
    (update c' (set_isAlive b)).
Proof. intros s [Hs Ht]. split; [by apply consistent_touch_alive|done]. Qed.

Lemma leak_delete connectionId' :
  preserves (scheduled_as h (TimeoutCheck c connectionId))
    (modify (λ s, set_connections
                    (JSMap.delete (connections s) connectionId') s)).
Proof. intros s [Hs Ht]. split; [by apply consistent_delete|done]. Qed.

Lemma leak_clear :
  preserves (scheduled_as h (TimeoutCheck c connectionId))
    (modify (set_connections [])).
Proof. intros s [Hs Ht]. split; [by apply consistent_clear|done]. Qed.

(** The handle held by an object is cleared: it is not [h]. *)
Lemma leak_clear_held c' s :
  scheduled_as h (TimeoutCheck c connectionId) s →
  scheduled_as h (TimeoutCheck c connectionId)
    (snd (match keepAliveInterval (heap s !!! c') with
          | Some h' => clearInterval h'
          | None => mret ()
          end s)).
Proof.
  intros [Hs (t & Ht & Hcb)].
  destruct (keepAliveInterval (heap s !!! c')) as [h'|] eqn:Hh'; [|by split; eauto].
  split; [by apply consistent_clearInterval|].
  exists t. split; [|done]. simpl. rewrite lookup_delete_ne; [done|].
  intros ->. destruct (total_lookup_handle _ _ _ Hh') as (ci' & Hci' & Heq).
  rewrite Heq in Hh'.
  pose proof (held_handle_is_probe s Hs c' ci' h t Hci' Hh' Ht). congruence.
Qed.

Hint Resolve leak_emit leak_deref leak_touch_activity leak_touch_alive
  leak_delete leak_clear : preserves.

Lemma leak_sendMessage socket message :
  preserves (scheduled_as h (TimeoutCheck c connectionId))
    (sendMessage socket message).
Proof. apply leak_emit. Qed.

Hint Resolve leak_sendMessage : preserves.

Lemma leak_cleanupConnection connectionId' :
  preserves (scheduled_as h (TimeoutCheck c connectionId))
    (cleanupConnection connectionId').
Proof.
  intros s Hsched. unfold cleanupConnection. rewrite bind_gets.
  destruct (JSMap.get (connections s) connectionId') as [c'|]; [|done].
  unfold deref. rewrite bind_gets.
  pose proof (leak_clear_held c' s Hsched) as Hcleared.
  unfold mbind, M_bind.
  destruct (match keepAliveInterval (heap s !!! c') with
            | Some h' => clearInterval h'
            | None => mret ()
            end s) as [[[]|e] s']; simpl in *; [|done].
  by apply leak_delete.
Qed.

Hint Resolve leak_cleanupConnection : preserves.

Lemma leak_handleMessage now message connectionId' :
  preserves (scheduled_as h (TimeoutCheck c connectionId))
    (handleMessage now message connectionId').
Proof. unfold handleMessage. preserves_steps. Qed.

Hint Resolve leak_handleMessage : preserves.

Lemma leak_on_data now socket connectionId' data :
  preserves (scheduled_as h (TimeoutCheck c connectionId))
    (on_data now socket connectionId' data).
Proof. unfold on_data. preserves_steps. Qed.

Lemma leak_run_callback now cb :
  preserves (scheduled_as h (TimeoutCheck c connectionId)) (run_callback now cb).
Proof. unfold run_callback. preserves_steps. Qed.

(** An interval that runs is scheduled again, [h] itself included. *)
Lemma leak_fire h' :
  preserves (scheduled_as h (TimeoutCheck c connectionId)) (fire h').
Proof.
  intros s [Hs (t & Ht & Hcb)]. unfold fire. rewrite bind_gets.
  destruct (timers s !! h') as [t'|] eqn:Ht'; [|by split; eauto].
  unfold mbind, M_bind, modify. apply leak_run_callback.
  split; [by apply consistent_reschedule|]. simpl.
  destruct (decide (h' = h)) as [->|Hne].
  - exists (reschedule t'). rewrite lookup_insert_eq. split; [done|].
    simpl. congruence.
  - exists t. by rewrite lookup_insert_ne.
Qed.

Lemma leak_stop_loop entries :
  preserves (scheduled_as h (TimeoutCheck c connectionId)) (stop_loop entries).
Proof.
  induction entries as [|[connectionId' c'] rest IH]; simpl; [by intros s|].
  intros s Hsched. unfold deref. rewrite bind_gets.
  pose proof (leak_clear_held c' s Hsched) as Hcleared.
  unfold mbind, M_bind at 1.
  destruct (match keepAliveInterval (heap s !!! c') with
            | Some h' => clearInterval h'
            | None => mret ()
            end s) as [[[]|e] s']; simpl in *; [|done].
  revert s' Hcleared.
  change (preserves (scheduled_as h (TimeoutCheck c connectionId))
            (emit (Destroy (socket (heap s !!! c')));; stop_loop rest)).
  preserves_steps.
Qed.

Hint Resolve leak_stop_loop : preserves.

Lemma leak_stop : preserves (scheduled_as h (TimeoutCheck c connectionId)) stop.
Proof. unfold stop. preserves_steps. Qed.

Lemma leak_start : preserves (scheduled_as h (TimeoutCheck c connectionId)) start.
Proof. unfold start. preserves_steps. Qed.

Lemma leak_on_connection now socket addr p :
  preserves (scheduled_as h (TimeoutCheck c connectionId))
    (on_connection now socket addr p).
Proof.
  intros s [Hs (t & Ht & Hcb)]. split; [by apply consistent_on_connection|].
  exists t. split; [|done].
  pose proof (scheduled_handles_allocated s Hs h t Ht) as Hlt.
  unfold on_connection, mbind, M_bind, alloc. simpl.
  unfold startKeepAlive, mbind, M_bind, gets. simpl.
  rewrite jsmap_get_set_eq. simpl.
  by rewrite !lookup_insert_ne by lia.
Qed.

Lemma leak_step s e :
  scheduled_as h (TimeoutCheck c connectionId) s →
  scheduled_as h (TimeoutCheck c connectionId) (step s e).
Proof.
  unfold step, exec. destruct e; simpl.
  - apply leak_on_connection.
  - apply leak_on_data.
  - apply leak_cleanupConnection.
  - apply leak_cleanupConnection.
  - apply leak_cleanupConnection.
  - apply leak_fire.
  - done.
  - apply leak_start.
  - apply leak_stop.
Qed.

Lemma leak_run events : ∀ s,
  scheduled_as h (TimeoutCheck c connectionId) s →
  scheduled_as h (TimeoutCheck c connectionId) (run s events).
Proof.
  induction events as [|e events IH]; intros s Hs; [done|].
  simpl. apply IH. by apply leak_step.
Qed.

End TimeoutLeak.

Section TimeoutLeakTheorem.
Import Server Registry Observations Scenario.

(** X10: No event cancels a timeout check: once a connection is registered,
    its timeout check stays scheduled through every run of the server,
    whether the connection ends, errors, closes, times out, is replaced or
    the server is stopped. *)
Theorem timeout_check_is_never_cancelled s h t c connectionId events :
  reachable s →
  timers s !! h = Some t →
  callback t = TimeoutCheck c connectionId →
  ∃ t', timers (run s events) !! h = Some t'
        ∧ callback t' = TimeoutCheck c connectionId.
Proof.
  intros Hreach Ht Hcb.
  apply (leak_run h c connectionId events s).
  split; [by apply reachable_consistent|eauto].
Qed.

Lemma timeout_check_is_never_cancelled_witness :
  ∃ t', timers (run server1 [OnEnd alice; OnClose alice; OnTimer 1%nat;
                             connect_alice; CallStop]) !! 1%nat = Some t'
        ∧ callback t' = TimeoutCheck 0%nat alice.
Proof.
  apply (timeout_check_is_never_cancelled server1 1%nat
           {| callback := TimeoutCheck 0%nat alice; period := 30000;
              due := 31000 |}).
  - exists (Some 4000), (Some 30000), (Some 10000), [connect_alice].
    reflexivity.
  - vm_compute. reflexivity.
  - reflexivity.
Defined.

End TimeoutLeakTheorem.

(** ** Connections are torn down one at a time *)

Section Isolation.
Import Server Registry Observations Scenario.

(** X11: The teardown of one connection leaves every other connection as it
    was: still registered, its object unchanged, its probe still
    scheduled. *)
Theorem teardown_is_contained connectionId connectionId' c' s :
  reachable s →
  connectionId ≠ connectionId' →
  JSMap.get (connections s) connectionId' = Some c' →
  JSMap.get (connections (teardown connectionId s)) connectionId' = Some c'
  ∧ heap (teardown connectionId s) = heap s
  ∧ ∀ h' t',
      keepAliveInterval (heap s !!! c') = Some h' →
      timers s !! h' = Some t' →
      timers (teardown connectionId s) !! h' = Some t'.
Proof.
  intros Hreach Hne Hc'. apply reachable_consistent in Hreach as Hs.
  destruct (reachable_registry_ok s Hreach) as (_ & _ & Hinj).
  rewrite teardown_connections, jsmap_get_delete_ne by done.
  split; [done|]. unfold teardown, exec.
  destruct (JSMap.get (connections s) connectionId) as [c|] eqn:Hc;
    [|by rewrite (cleanupConnection_absent _ _ Hc)].
  destruct (registered_holds_handle s Hs _ _ Hc) as (ci & h & Hci & Hh).
  rewrite <- (list_lookup_total_correct _ _ _ Hci) in Hh.
  rewrite (cleanupConnection_present _ _ _ _ Hc Hh). simpl.
  split; [done|]. intros h' t' Hh' Ht'.
  rewrite lookup_delete_ne; [done|]. intros ->.
  destruct (total_lookup_handle _ _ _ Hh') as (ci' & Hci' & Heq').
  rewrite Heq' in Hh'. rewrite (list_lookup_total_correct _ _ _ Hci) in Hh.
  pose proof (held_handle_is_probe s Hs c ci h' t' Hci Hh Ht') as Hp.
  pose proof (held_handle_is_probe s Hs c' ci' h' t' Hci' Hh' Ht') as Hp'.
  assert (c = c') as -> by congruence. by apply Hne, (Hinj _ _ c').
Qed.

Lemma teardown_is_contained_witness :
  JSMap.get (connections (teardown alice (step server1 connect_bob))) bob
  = Some 1%nat
  ∧ is_Some (timers (teardown alice (step server1 connect_bob)) !! 2%nat).
Proof.
  destruct (teardown_is_contained alice bob 1%nat (step server1 connect_bob))
    as (Hbob & _ & Hprobe).
  - exists (Some 4000), (Some 30000), (Some 10000), [connect_alice; connect_bob].
    vm_compute. reflexivity.
  - vm_compute. discriminate.
  - vm_compute. reflexivity.
  - split; [exact Hbob|].
    erewrite (Hprobe 2%nat); [eauto|vm_compute; reflexivity..].
Defined.

(** X12: The timeout check of a connection that has gone still holds the
    identifier of that connection. When another connection is registered
    under the identifier by the time the check finds its own connection
    silent, the check destroys the socket of its own connection, but the
    entry it removes and the probe it cancels are those of the other
    connection, whose socket stays open. *)
Theorem stale_check_removes_successor s h c connectionId p d c' h' :
  timers s !! h = Some {| callback := TimeoutCheck c connectionId;
                          period := p; due := d |} →
  keepAliveTimeout s < d - lastActivity (heap s !!! c) →
  JSMap.get (connections s) connectionId = Some c' →
  keepAliveInterval (heap s !!! c') = Some h' →
  trace (step s (OnTimer h)) =
  trace s ++ [Destroy (socket (heap s !!! c)); ClearInterval h']
  ∧ JSMap.get (connections (step s (OnTimer h))) connectionId = None
  ∧ timers (step s (OnTimer h)) !! h' = None
  ∧ heap (step s (OnTimer h)) = heap s.
Proof.
  intros Ht Hexpired Hc' Hh'.
  rewrite (timeout_check_expired s h c connectionId p d Ht Hexpired).
  unfold teardown, exec.
  erewrite cleanupConnection_present; [|exact Hc'|exact Hh']. simpl.
  split_and!.
  - by rewrite <- app_assoc.
  - apply jsmap_get_delete_eq.
  - apply lookup_delete_eq.
  - done.
Qed.

Lemma stale_check_removes_successor_witness :
  trace (step reconnected (OnTimer 1%nat)) =
  trace reconnected ++ [Destroy 7%nat; ClearInterval 2%nat]
  ∧ JSMap.get (connections reconnected) alice = Some 1%nat
  ∧ JSMap.get (connections (step reconnected (OnTimer 1%nat))) alice = None.
Proof.
  destruct (stale_check_removes_successor reconnected 1%nat 0%nat alice 30000
              61000 1%nat 2%nat) as (Htrace & Hgone & _).
  - vm_compute. reflexivity.
  - vm_compute. reflexivity.
  - vm_compute. reflexivity.
  - vm_compute. reflexivity.
  - split_and!; [|vm_compute; reflexivity|exact Hgone].
    rewrite Htrace. vm_compute. reflexivity.
Defined.

End Isolation.

(** ** Who closes a socket *)

Section Closing.
Import Server Registry Observations Scenario.
Variables (p : Effect → bool) (k : list Effect).

Lemma calls_emit e : p e = false → preserves (calls_so_far p k) (emit e).
Proof.
  intros He s Hs. unfold calls_so_far in *. simpl.
  rewrite List.filter_app. simpl. rewrite He, app_nil_r. done.
Qed.

Lemma calls_deref c : preserves (calls_so_far p k) (deref c).
Proof. by intros s. Qed.

Lemma calls_update c f : preserves (calls_so_far p k) (update c f).
Proof. by intros s. Qed.

Lemma calls_alloc ci : preserves (calls_so_far p k) (alloc ci).
Proof. by intros s. Qed.

Lemma calls_set_connections (f : TCPServer → list (jsstring * ref)) :
  preserves (calls_so_far p k) (modify (λ s, set_connections (f s) s)).
Proof. by intros s. Qed.

Lemma calls_set_timers (f : TCPServer → gmap handle Timer) :
  preserves (calls_so_far p k) (modify (λ s, set_timers (f s) s)).
Proof. by intros s. Qed.

Hint Resolve calls_deref calls_update calls_alloc calls_set_connections
  calls_set_timers : preserves.

Lemma calls_setInterval now cb delay :
  (∀ h, p (SetInterval h) = false) →
  preserves (calls_so_far p k) (setInterval now cb delay).
Proof.
  intros Hp s Hs. unfold calls_so_far in *. simpl.
  rewrite List.filter_app. simpl. rewrite Hp, app_nil_r. done.
Qed.

Lemma calls_clearInterval h :
  (∀ h, p (ClearInterval h) = false) →
  preserves (calls_so_far p k) (clearInterval h).
Proof.
  intros Hp. unfold clearInterval.
  apply preserves_bind; [apply calls_set_timers|].
  intros _. by apply calls_emit.
Qed.

Lemma calls_sendMessage socket message :
  (∀ s t, p (Write s t) = false) →
  preserves (calls_so_far p k) (sendMessage socket message).
Proof. intros Hp. by apply calls_emit. Qed.

Lemma calls_cleanupConnection connectionId :
  (∀ h, p (ClearInterval h) = false) →
  preserves (calls_so_far p k) (cleanupConnection connectionId).
Proof.
  intros Hp. pose proof (λ h, calls_clearInterval h Hp).
  unfold cleanupConnection. preserves_steps.
Qed.

Lemma calls_on_connection now socket addr port :
  (∀ h, p (SetInterval h) = false) →
  preserves (calls_so_far p k) (on_connection now socket addr port).
Proof.
  intros Hp. pose proof (λ now cb delay, calls_setInterval now cb delay Hp).
  unfold on_connection, startKeepAlive. preserves_steps.
Qed.

Lemma calls_on_data now socket connectionId data :
  (∀ s t, p (Write s t) = false) → (∀ s, p (End s) = false) →
  preserves (calls_so_far p k) (on_data now socket connectionId data).
Proof.
  intros Hw He. pose proof (λ s m, calls_sendMessage s m Hw).
  pose proof (λ s, calls_emit (End s) (He s)).
  unfold on_data, handleMessage. preserves_steps.
Qed.

Lemma calls_run_callback now cb :
  (∀ s t, p (Write s t) = false) → (∀ s, p (Destroy s) = false) →
  (∀ h, p (ClearInterval h) = false) →
  preserves (calls_so_far p k) (run_callback now cb).
Proof.
  intros Hw Hd Hc. pose proof (λ s m, calls_sendMessage s m Hw).
  pose proof (λ s, calls_emit (Destroy s) (Hd s)).
  pose proof (λ c, calls_cleanupConnection c Hc).
  unfold run_callback. preserves_steps.
Qed.

Lemma calls_fire h :
  (∀ s t, p (Write s t) = false) → (∀ s, p (Destroy s) = false) →
  (∀ h, p (ClearInterval h) = false) →
  preserves (calls_so_far p k) (fire h).
Proof.
  intros Hw Hd Hc. pose proof (λ now cb, calls_run_callback now cb Hw Hd Hc).
  unfold fire. preserves_steps.
Qed.

Lemma calls_stop_loop entries :
  (∀ s, p (Destroy s) = false) → (∀ h, p (ClearInterval h) = false) →
  preserves (calls_so_far p k) (stop_loop entries).
Proof.
  intros Hd Hc. pose proof (λ h, calls_clearInterval h Hc).
  pose proof (λ s, calls_emit (Destroy s) (Hd s)).
  induction entries as [|[connectionId c] rest IH]; simpl; preserves_steps.
Qed.

Lemma calls_stop :
  (∀ s, p (Destroy s) = false) → (∀ h, p (ClearInterval h) = false) →
  p CloseServer = false →
  preserves (calls_so_far p k) stop.
Proof.
  intros Hd Hc Hs. pose proof (λ entries, calls_stop_loop entries Hd Hc).
  pose proof (calls_emit CloseServer Hs).
  unfold stop. preserves_steps.
Qed.

Lemma calls_start :
  (∀ port, p (Listen port) = false) → preserves (calls_so_far p k) start.
Proof.
  intros Hl. pose proof (λ port, calls_emit (Listen port) (Hl port)).
  unfold start. preserves_steps.
Qed.

End Closing.

Section ClosingTheorem.
Import Server Registry Observations Scenario.

(** X13: The server closes a socket in three places only. It destroys one in a
    timeout check and in [stop]: no other event adds a [destroy] to the
    calls made. It ends one in answer to inbound data (a [close] message):
    no other event adds an [end]. In particular the ['end'], ['error'] and
    ['close'] events of a socket, which tear the connection down, neither
    end nor destroy any socket. *)
Theorem sockets_are_closed_in_three_places s e :
  ((∀ h, e ≠ OnTimer h) → e ≠ CallStop →
   List.filter is_destroy (trace (step s e)) = List.filter is_destroy (trace s))
  ∧ (is_data e = false →
     List.filter is_end (trace (step s e)) = List.filter is_end (trace s)).
Proof.
  split.
  - intros Htimer Hstop.
    change (calls_so_far is_destroy (List.filter is_destroy (trace s)) (step s e)).
    unfold step, exec. destruct e; simpl.
    + by apply calls_on_connection.
    + by apply calls_on_data.
    + by apply calls_cleanupConnection.
    + by apply calls_cleanupConnection.
    + by apply calls_cleanupConnection.
    + by destruct (Htimer h).
    + done.
    + by apply calls_start.
    + done.
  - intros Hdata.
    change (calls_so_far is_end (List.filter is_end (trace s)) (step s e)).
    unfold step, exec. destruct e; simpl; try discriminate.
    + by apply calls_on_connection.
    + by apply calls_cleanupConnection.
    + by apply calls_cleanupConnection.
    + by apply calls_cleanupConnection.
    + by apply calls_fire.
    + done.
    + by apply calls_start.
    + by apply calls_stop.
Qed.

Lemma sockets_are_closed_in_three_places_witness :
  List.filter is_destroy (trace (step server1 (OnError alice)))
  = List.filter is_destroy (trace server1)
  ∧ List.filter is_end (trace (step server1 CallStop))
    = List.filter is_end (trace server1).
Proof.
  destruct (sockets_are_closed_in_three_places server1 (OnError alice))
    as [Hdestroy _].
  destruct (sockets_are_closed_in_three_places server1 CallStop) as [_ Hend].
  split.
  - apply Hdestroy; [intros h; discriminate|discriminate].
  - apply Hend. reflexivity.
Defined.

End ClosingTheorem.

(** ** The client *)

Section ClientFacts.
Import Client ClientObservations Scenario.
Import Observations.

(** What connecting does: both intervals are scheduled and their handles
    kept. *)
Lemma on_connect_state now c :
  step c (OnConnect now) =
  set_timeoutTimer (Some (S (next_handle c)))
    (set_trace (trace c ++ [SetInterval (next_handle c);
                            SetInterval (S (next_handle c))])
       (set_next_handle (S (S (next_handle c)))
          (set_timers
             (<[S (next_handle c) :=
                  {| callback := TimeoutCheck;
                     period := Some (timer_delay (keepAliveTimeout c));
                     due := now + timer_delay (keepAliveTimeout c) |}]>
                (<[next_handle c :=
                     {| callback := Probe;
                        period := Some (timer_delay (keepAliveInterval c));
                        due := now + timer_delay (keepAliveInterval c) |}]>
                   (timers c)))
             (set_keepAliveTimer (Some (next_handle c))
                (set_lastActivity now (set_isConnected true c)))))).
Proof.
  unfold step, exec. simpl. unfold on_connect, startKeepAlive.
  unfold mbind, M_bind, modify, gets, setInterval, schedule. simpl.
  unfold set_timeoutTimer, set_trace. simpl. by rewrite <- app_assoc.
Qed.

Lemma handles_allocated_new now host port timeout interval :
  handles_allocated (new_TCPClient now host port timeout interval).
Proof. intros h t. simpl. by rewrite lookup_empty. Qed.

Lemma handles_allocated_connect now c :
  handles_allocated c → handles_allocated (step c (OnConnect now)).
Proof.
  intros Halloc h t. rewrite on_connect_state. simpl.
  destruct (decide (h = S (next_handle c))) as [->|Hne1]; [lia|].
  rewrite lookup_insert_ne by done.
  destruct (decide (h = next_handle c)) as [->|Hne2]; [lia|].
  rewrite lookup_insert_ne by done. intros Ht. specialize (Halloc _ _ Ht). lia.
Qed.

(** X14: The client acts on no inbound message but a [close]: whatever else a
    chunk holds (a [data], [pong] or [keepalive] message, an unknown type,
    [null], text that is not JSON), the client writes nothing, schedules
    nothing and closes nothing; it only records the time of the chunk. *)
Theorem client_never_replies now data c :
  asks_to_close data = false →
  step c (OnData now data) = set_lastActivity now c.
Proof.
  unfold asks_to_close, step, exec. simpl.
  unfold on_data, try_catch, JSON_parse, mbind, M_bind. simpl.
  destruct (JSON.parse (trim data)) as [message|]; [|done]. simpl.
  unfold handleMessage, mbind, M_bind.
  destruct message as [|b|n|t|xs|members]; try done.
  unfold prop, template, console_log, mret, M_ret. simpl.
  destruct (JSMap.get members (js "type")) as [ty|]; simpl.
  - destruct (ToString_throws ty); simpl; [done|].
    destruct (console_log_throws _ _); simpl; [done|]. by intros ->.
  - done.
Qed.

Lemma client_never_replies_witness :
  step client1 (OnData 2000 (jq "{'type':'pong','id':'ping_2'}" ++ newline))
  = set_lastActivity 2000 client1
  ∧ step client1 (OnData 2000 (jq "null")) = set_lastActivity 2000 client1.
Proof.
  split; apply client_never_replies; vm_compute; reflexivity.
Defined.

(** What a [close] from the server makes a connected client do. *)
Lemma on_data_close_state now data c :
  asks_to_close data = true →
  isConnected c = true →
  step c (OnData now data) =
  set_trace
    (trace c ++ [Write (stringify_message (close_request now) ++ newline);
                 SetTimeout (next_handle c)])
    (set_next_handle (S (next_handle c))
       (set_timers
          (<[next_handle c := {| callback := EndSocket; period := None;
                                 due := now + 100 |}]> (timers c))
          (set_lastActivity now c))).
Proof.
  intros Hclose Hconn.
  unfold asks_to_close in Hclose. unfold step, exec. simpl.
  unfold on_data, try_catch, JSON_parse, mbind, M_bind. simpl.
  destruct (JSON.parse (trim data)) as [message|]; [|done]. simpl.
  unfold handleMessage, mbind, M_bind.
  destruct message as [|b|n|t|xs|members]; try done.
  unfold prop, template, console_log, mret, M_ret. simpl in *.
  destruct (JSMap.get members (js "type")) as [ty|];
    [|by rewrite andb_false_r in Hclose].
  destruct (ToString_throws ty); simpl in *; [done|].
  destruct (console_log_throws _ _); simpl in *; [done|].
  rewrite Hclose. unfold disconnect, sendMessage, mbind, M_bind, gets. simpl.
  rewrite Hconn. simpl. unfold set_trace. simpl. by rewrite <- app_assoc.
Qed.

(** X15: On a [close] from the server a connected client writes its own
    [close] message and arms one timer; when that timer runs, 100 ms
    later, the client ends its socket, and the timer is spent: it does not
    run again. The intervals stay scheduled until the socket reports its
    end. *)
Theorem client_close_ends_socket now data c :
  asks_to_close data = true →
  isConnected c = true →
  handles_allocated c →
  trace (step c (OnData now data)) =
  trace c ++ [Write (stringify_message (close_request now) ++ newline);
              SetTimeout (next_handle c)]
  ∧ timers (step c (OnData now data)) =
    <[next_handle c := {| callback := EndSocket; period := None;
                          due := now + 100 |}]> (timers c)
  ∧ trace (run c [OnData now data; OnTimer (next_handle c)]) =
    trace (step c (OnData now data)) ++ [End]
  ∧ timers (run c [OnData now data; OnTimer (next_handle c)]) = timers c
  ∧ run c [OnData now data; OnTimer (next_handle c); OnTimer (next_handle c)]
    = run c [OnData now data; OnTimer (next_handle c)].
Proof.
  intros Hclose Hconn Halloc.
  assert (timers c !! next_handle c = None) as Hfresh.
  { destruct (timers c !! next_handle c) as [t|] eqn:Ht; [|done].
    specialize (Halloc _ _ Ht). lia. }
  pose proof (on_data_close_state now data c Hclose Hconn) as Hstep.
  assert (step (step c (OnData now data)) (OnTimer (next_handle c)) =
          set_trace (trace (step c (OnData now data)) ++ [End])
            (set_timers (timers c) (step c (OnData now data)))) as Hfire.
  { rewrite Hstep. unfold step at 1, exec. simpl. unfold fire.
    rewrite bind_gets. simpl. rewrite lookup_insert_eq. simpl.
    unfold mbind, M_bind, modify, reschedule. simpl.
    by rewrite delete_insert_eq, delete_id. }
  split_and!.
  - by rewrite Hstep.
  - by rewrite Hstep.
  - change (run c [OnData now data; OnTimer (next_handle c)])
      with (step (step c (OnData now data)) (OnTimer (next_handle c))).
    by rewrite Hfire.
  - change (run c [OnData now data; OnTimer (next_handle c)])
      with (step (step c (OnData now data)) (OnTimer (next_handle c))).
    by rewrite Hfire.
  - change (step (step (step c (OnData now data)) (OnTimer (next_handle c)))
              (OnTimer (next_handle c))
            = step (step c (OnData now data)) (OnTimer (next_handle c))).
    rewrite Hfire. unfold step at 1, exec. simpl. unfold fire.
    rewrite bind_gets. simpl. by rewrite Hfresh.
Qed.

Lemma client_close_ends_socket_witness :
  trace (run client1 [OnData 2000 close_line; OnTimer 2%nat]) =
  trace client1 ++
  [Write (jq "{'type':'close','payload':{'message':'Client disconnecting'},'timestamp':2000}"
          ++ newline);
   SetTimeout 2%nat; End]
  ∧ timers (run client1 [OnData 2000 close_line; OnTimer 2%nat])
    = timers client1.
Proof.
  destruct (client_close_ends_socket 2000 close_line client1)
    as (Htrace & _ & Hend & Htimers & _).
  - vm_compute. reflexivity.
  - vm_compute. reflexivity.
  - apply (handles_allocated_connect 1000 client0), handles_allocated_new.
  - split; [|exact Htimers].
    change (next_handle client1) with 2%nat in Hend.
    rewrite Hend, Htrace. vm_compute. reflexivity.
Defined.

Lemma set_isConnected_same b c : isConnected c = b → set_isConnected b c = c.
Proof. intros <-. by destruct c. Qed.

(** What [stopKeepAlive] does when both handles are held. *)
Lemma stopKeepAlive_state h1 h2 c :
  keepAliveTimer c = Some h1 → timeoutTimer c = Some h2 →
  exec stopKeepAlive c =
  set_timeoutTimer None
    (set_trace (trace c ++ [ClearInterval h1; ClearInterval h2])
       (set_timers (delete h2 (delete h1 (timers c)))
          (set_keepAliveTimer None c))).
Proof.
  intros H1 H2. unfold exec, stopKeepAlive. rewrite bind_gets, H1.
  unfold mbind, M_bind, clearInterval, modify, emit, gets. simpl.
  unfold mbind, M_bind. simpl. rewrite H2. simpl.
  unfold set_timeoutTimer, set_trace. simpl. by rewrite <- app_assoc.
Qed.

Lemma stopKeepAlive_idle c :
  keepAliveTimer c = None → timeoutTimer c = None → exec stopKeepAlive c = c.
Proof.
  intros H1 H2. unfold exec, stopKeepAlive. rewrite bind_gets, H1.
  unfold mbind, M_bind, gets. simpl. rewrite H2. done.
Qed.

(** X16: When the socket of a connected client reports its end, the client
    cancels both of its intervals, the probe and the timeout check, and
    forgets their handles: the intervals scheduled are those from before
    the connection. The ['close'] event that follows finds nothing left to
    do. *)
Theorem client_end_cancels_both_intervals now c :
  handles_allocated c →
  timers (run c [OnConnect now; OnEnd]) = timers c
  ∧ trace (run c [OnConnect now; OnEnd]) =
    trace c ++ [SetInterval (next_handle c); SetInterval (S (next_handle c));
                ClearInterval (next_handle c);
                ClearInterval (S (next_handle c))]
  ∧ keepAliveTimer (run c [OnConnect now; OnEnd]) = None
  ∧ timeoutTimer (run c [OnConnect now; OnEnd]) = None
  ∧ isConnected (run c [OnConnect now; OnEnd]) = false
  ∧ run c [OnConnect now; OnEnd; OnClose] = run c [OnConnect now; OnEnd].
Proof.
  intros Halloc.
  assert (timers c !! next_handle c = None) as Hfresh1.
  { destruct (timers c !! next_handle c) as [t|] eqn:Ht; [|done].
    specialize (Halloc _ _ Ht). lia. }
  assert (timers c !! S (next_handle c) = None) as Hfresh2.
  { destruct (timers c !! S (next_handle c)) as [t|] eqn:Ht; [|done].
    specialize (Halloc _ _ Ht). lia. }
  assert (∀ c', step c' OnEnd = exec stopKeepAlive (set_isConnected false c'))
    as Hend by reflexivity.
  assert (∀ c', step c' OnClose = exec stopKeepAlive (set_isConnected false c'))
    as Hclose by reflexivity.
  change (run c [OnConnect now; OnEnd]) with (step (step c (OnConnect now)) OnEnd).
  change (run c [OnConnect now; OnEnd; OnClose])
    with (step (step (step c (OnConnect now)) OnEnd) OnClose).
  rewrite Hclose, Hend, on_connect_state.
  rewrite (stopKeepAlive_state (next_handle c) (S (next_handle c)))
    by reflexivity.
  clear Halloc Hend Hclose.
  destruct c as [host port timeout interval kt tt la ic mid tm nh tr].
  simpl in *. split_and!.
  - rewrite delete_insert_ne by lia. rewrite !delete_insert_eq.
    rewrite (delete_id tm nh) by done. by rewrite delete_id.
  - by rewrite <- app_assoc.
  - reflexivity.
  - reflexivity.
  - reflexivity.
  - rewrite stopKeepAlive_idle by reflexivity.
    by apply set_isConnected_same.
Qed.

Lemma client_end_cancels_both_intervals_witness :
  timers (run client0 [OnConnect 1000; OnEnd]) = ∅
  ∧ trace (run client0 [OnConnect 1000; OnEnd]) =
    [SetInterval 0%nat; SetInterval 1%nat; ClearInterval 0%nat;
     ClearInterval 1%nat].
Proof.
  destruct (client_end_cancels_both_intervals 1000 client0)
    as (Htimers & Htrace & _).
  - apply handles_allocated_new.
  - split; [exact Htimers|exact Htrace].
Defined.

(** X17: A connected client refreshes its own [lastActivity] with every probe
    it sends: when the probe interval runs, the client writes one
    [keepalive] message carrying the next message id and sets
    [lastActivity] to that time. A timeout check that comes due no later
    than [keepAliveTimeout] after a probe therefore never destroys the
    socket, however long the server has been silent. *)
Theorem client_probe_postpones_timeout c hp ht pp pt dp dt :
  isConnected c = true →
  hp ≠ ht →
  timers c !! hp = Some {| callback := Probe; period := Some pp; due := dp |} →
  timers c !! ht = Some {| callback := TimeoutCheck; period := Some pt;
                           due := dt |} →
  dt - dp ≤ keepAliveTimeout c →
  trace (step c (OnTimer hp)) =
  trace c ++ [Write (stringify_message (keepalive_probe dp (messageId c + 1))
                     ++ newline)]
  ∧ lastActivity (step c (OnTimer hp)) = dp
  ∧ trace (run c [OnTimer hp; OnTimer ht]) = trace (step c (OnTimer hp)).
Proof.
  intros Hconn Hne Hp Ht Hd.
  assert (step c (OnTimer hp) =
          set_lastActivity dp
            (set_trace
               (trace c ++ [Write (stringify_message
                                     (keepalive_probe dp (messageId c + 1))
                                   ++ newline)])
               (set_messageId (messageId c + 1)
                  (set_timers
                     (<[hp := {| callback := Probe; period := Some pp;
                                 due := dp + pp |}]> (timers c)) c))))
    as Hstep.
  { unfold step, exec. simpl. unfold fire. rewrite bind_gets, Hp.
    unfold mbind, M_bind, modify, reschedule. simpl.
    unfold mbind, M_bind, gets. simpl. rewrite Hconn. simpl.
    unfold next_id, sendMessage, mbind, M_bind, gets, modify. simpl.
    by rewrite Hconn. }
  split_and!; [by rewrite Hstep|by rewrite Hstep|].
  change (run c [OnTimer hp; OnTimer ht])
    with (step (step c (OnTimer hp)) (OnTimer ht)).
  rewrite Hstep at 1. unfold step at 1, exec. simpl. unfold fire.
  rewrite bind_gets. simpl. rewrite lookup_insert_ne, Ht by done.
  unfold mbind, M_bind, modify, reschedule. simpl.
  unfold mbind, M_bind, gets. simpl.
  destruct (Z.gtb_spec (dt - dp) (keepAliveTimeout c)); [lia|].
  by rewrite Hstep.
Qed.

Lemma client_probe_postpones_timeout_witness :
  trace (step client1 (OnTimer 0%nat)) =
  trace client1 ++
  [Write (jq "{'type':'keepalive','payload':{'message':'keepalive'},'timestamp':11000,'id':'keepalive_1'}"
          ++ newline)]
  ∧ lastActivity (step client1 (OnTimer 0%nat)) = 11000
  ∧ trace (run client1 [OnTimer 0%nat; OnTimer 1%nat])
    = trace (step client1 (OnTimer 0%nat)).
Proof.
  destruct (client_probe_postpones_timeout client1 0%nat 1%nat 10000 30000
              11000 31000) as (Htrace & Hlast & Hquiet).
  - vm_compute. reflexivity.
  - discriminate.
  - vm_compute. reflexivity.
  - vm_compute. reflexivity.
  - vm_compute. discriminate.
  - split_and!; [|exact Hlast|exact Hquiet].
    rewrite Htrace. vm_compute. reflexivity.
Defined.

End ClientFacts.

(** ** Connection identifiers *)

Section Identifiers.
Import Server.

Lemma js_inj s1 s2 : js s1 = js s2 → s1 = s2.
Proof.
  unfold js. intros H.
  rewrite <- (string_of_list_ascii_of_string s1),
          <- (string_of_list_ascii_of_string s2).
  f_equal. revert H. generalize (list_ascii_of_string s1) as l1.
  generalize (list_ascii_of_string s2) as l2.
  intros l2 l1. revert l2.
  induction l1 as [|a l1 IH]; intros [|b l2]; csimpl; try done.
  intros [= Hab Hl]. f_equal; [|by apply IH].
  by rewrite <- (ascii_N_embedding a), <- (ascii_N_embedding b), Hab.
Qed.

Lemma to_int_not_nil z :
  Z.to_int z ≠ Decimal.Pos Decimal.Nil ∧ Z.to_int z ≠ Decimal.Neg Decimal.Nil.
Proof.
  destruct z as [|p|p]; simpl; split; try done;
    intros [= H]; by apply (DecimalPos.Unsigned.to_uint_nonnil p).
Qed.

Lemma decimal_inj z1 z2 : decimal z1 = decimal z2 → z1 = z2.
Proof.
  unfold decimal. intros H%js_inj.
  destruct (to_int_not_nil z1) as [Ha Hb], (to_int_not_nil z2) as [Hc Hd].
  pose proof (NilZero.isi _ Ha Hb) as H1.
  pose proof (NilZero.isi _ Hc Hd) as H2.
  rewrite H, H2 in H1. injection H1 as H1.
  by rewrite <- (DecimalZ.of_to z1), <- (DecimalZ.of_to z2), H1.
Qed.

Lemma uint_digits d :
  Forall (λ c, (48 ≤ c ≤ 57)%N) (js (NilEmpty.string_of_uint d)).
Proof.
  induction d; unfold js; csimpl; constructor; try done; simpl; lia.
Qed.

(** The code units of a decimal rendering: digits, after a sign at
    most. *)
Lemma decimal_units z : Forall (λ c, (c = 45 ∨ 48 ≤ c ≤ 57)%N) (decimal z).
Proof.
  unfold decimal.
  assert (∀ d, Forall (λ c, (c = 45 ∨ 48 ≤ c ≤ 57)%N)
                 (js (NilZero.string_of_uint d))) as Hu.
  { intros d. destruct d; try (eapply Forall_impl; [apply uint_digits|];
      intros c Hc; by right).
    unfold js; csimpl. constructor; [right; simpl; lia|constructor]. }
  destruct (Z.to_int z) as [d|d]; simpl; [apply Hu|].
  unfold js. csimpl. constructor; [by left|]. apply Hu.
Qed.

Lemma split_at_last (c : N) (a1 a2 d1 d2 : jsstring) :
  c ∉ d1 → c ∉ d2 → a1 ++ c :: d1 = a2 ++ c :: d2 → a1 = a2 ∧ d1 = d2.
Proof.
  intros H1 H2. revert a2. induction a1 as [|x a1 IH]; intros [|y a2]; simpl.
  - by intros [= ->].
  - intros [= <- ->]. exfalso. apply H1. apply elem_of_app. right. left.
  - intros [= -> <-]. exfalso. apply H2. apply elem_of_app. right. left.
  - intros [= -> H]. destruct (IH _ H) as [-> ->]. done.
Qed.

Lemma colon_not_decimal z : 58%N ∉ decimal z.
Proof.
  intros H. pose proof (decimal_units z) as Hu.
  rewrite Forall_forall in Hu. specialize (Hu _ H). simpl in Hu. lia.
Qed.

(** X18: Two sockets whose remote addresses or remote ports differ get
    different identifiers, whatever the addresses hold (an IPv6 address
    holds colons of its own): a registration overwrites an entry only for
    the same address and port. *)
Theorem connectionId_is_injective a1 a2 p1 p2 :
  a1 ≠ a2 ∨ p1 ≠ p2 →
  connectionId_of (Some a1) (Some p1) ≠ connectionId_of (Some a2) (Some p2).
Proof.
  unfold connectionId_of. simpl. intros Hne H.
  apply split_at_last in H as [Ha H]; try apply colon_not_decimal.
  apply decimal_inj in H. destruct Hne as [Hne|Hne]; [done|lia].
Qed.

Lemma connectionId_is_injective_witness :
  connectionId_of (Some (js "::1")) (Some 4000%N)
  ≠ connectionId_of (Some (js "::1")) (Some 40001%N).
Proof.
  apply (connectionId_is_injective (js "::1") (js "::1") 4000 40001).
  right. lia.
Defined.

End Identifiers.

(** ** The wire format *)

Section NumberText.
Import JSON Wire.

(** *** The text [Number::toString] writes is a JSON number *)

Lemma decimal_pos p :
  decimal (Z.pos p) = js (NilZero.string_of_uint (Pos.to_uint p)).
Proof. reflexivity. Qed.

Lemma to_uint_head p :
  ∃ c s, js (NilZero.string_of_uint (Pos.to_uint p)) = c :: s
         ∧ (49 ≤ c ≤ 57)%N ∧ Forall (λ c, (48 ≤ c ≤ 57)%N) s.
Proof.
  pose proof (DecimalPos.Unsigned.to_of (Pos.to_uint p)) as Hnorm.
  rewrite DecimalPos.Unsigned.of_to in Hnorm. simpl in Hnorm.
  pose proof (DecimalPos.Unsigned.to_uint_nonzero p) as Hnz.
  pose proof (DecimalFacts.nzhead_nonzero (Pos.to_uint p)) as Hhead.
  unfold Decimal.unorm in Hnorm.
  destruct (Decimal.nzhead (Pos.to_uint p)) as [|d|d|d|d|d|d|d|d|d|d] eqn:Hd;
    [by rewrite Hnorm in Hnz|by destruct (Hhead d)|..];
    rewrite Hnorm; unfold js; csimpl; eexists _, _;
    (split; [reflexivity|]); (split; [simpl; lia|apply uint_digits]).
Qed.

Lemma decimal_digits z :
  0 ≤ z →
  ∃ c s, decimal z = c :: s ∧ Forall (λ c, (48 ≤ c ≤ 57)%N) (c :: s).
Proof.
  intros Hz. destruct z as [|p|p]; [|..|lia].
  - exists 48%N, []. split; [done|]. constructor; [lia|constructor].
  - rewrite decimal_pos. destruct (to_uint_head p) as (c & s & -> & Hc & Hs).
    exists c, s. split; [done|]. constructor; [lia|done].
Qed.

Lemma is_digit_true c : (48 ≤ c ≤ 57)%N → is_digit c = true.
Proof.
  intros Hc. unfold is_digit. apply andb_true_iff. split; apply N.leb_le; lia.
Qed.

Lemma not_exponent_mark c :
  (48 ≤ c ≤ 57)%N → ((c =? 101) || (c =? 69))%N = false.
Proof.
  intros Hc. apply orb_false_iff. split; apply N.eqb_neq; lia.
Qed.

Lemma num_run_app p a b :
  num_run p (a ++ b) = p' ← num_run p a; num_run p' b.
Proof.
  revert p. induction a as [|c a IH]; intros p; simpl; [done|].
  destruct (num_next p c) as [p1|]; simpl; [apply IH|done].
Qed.

Lemma num_run_digits s :
  Forall (λ c, (48 ≤ c ≤ 57)%N) s → num_run NInt s = Some NInt.
Proof.
  induction 1 as [|c s Hc _ IH]; [done|]. simpl.
  rewrite is_digit_true by done. simpl. apply IH.
Qed.

Lemma num_run_fraction s :
  Forall (λ c, (48 ≤ c ≤ 57)%N) s → num_run NFrac s = Some NFrac.
Proof.
  induction 1 as [|c s Hc _ IH]; [done|]. simpl.
  rewrite is_digit_true by done. simpl. apply IH.
Qed.

Lemma num_run_exponent s :
  Forall (λ c, (48 ≤ c ≤ 57)%N) s → num_run NExpDigits s = Some NExpDigits.
Proof.
  induction 1 as [|c s Hc _ IH]; [done|]. simpl.
  rewrite is_digit_true by done. simpl. apply IH.
Qed.

Lemma num_run_after_dot c s :
  Forall (λ c, (48 ≤ c ≤ 57)%N) (c :: s) → num_run NDot (c :: s) = Some NFrac.
Proof.
  intros [Hc Hs]%Forall_cons. simpl. rewrite is_digit_true by done. simpl.
  by apply num_run_fraction.
Qed.

Lemma num_run_after_sign c s :
  Forall (λ c, (48 ≤ c ≤ 57)%N) (c :: s) →
  num_run NExpSign (c :: s) = Some NExpDigits.
Proof.
  intros [Hc Hs]%Forall_cons. simpl. rewrite is_digit_true by done. simpl.
  by apply num_run_exponent.
Qed.

Lemma zeros_digits n : Forall (λ c, (48 ≤ c ≤ 57)%N) (Number.zeros n).
Proof. apply Forall_replicate. lia. Qed.

(** The exponent part [Number::toString] writes. *)
Lemma num_run_exponent_part p z :
  num_next p 101 = Some NExp →
  num_run p (js "e" ++ (if z <? 0 then js "-" else js "+")
             ++ decimal (Z.abs z)) = Some NExpDigits.
Proof.
  intros Hp. destruct (decimal_digits (Z.abs z)) as (c & s & -> & Hd); [lia|].
  change (js "e") with [101%N]. simpl app. simpl num_run at 1. rewrite Hp. simpl.
  destruct (z <? 0); change (js "-") with [45%N]; change (js "+") with [43%N];
    simpl app; simpl num_run at 1; simpl mbind;
    by apply num_run_after_sign.
Qed.

(** What [format] writes is a digit, and a run of the number automaton
    from the phase that digit opens to an accepting one. *)
Lemma format_number s x :
  ∃ c t p p', Number.format s x = c :: t ∧ (48 ≤ c ≤ 57)%N
    ∧ num_start c = Some p ∧ num_run p t = Some p'
    ∧ num_accepting p' = true.
Proof.
  unfold Number.format. rewrite decimal_pos.
  destruct (to_uint_head (Z.to_pos s)) as (c & t & -> & Hc & Ht).
  assert (num_start c = Some NInt) as Hstart.
  { unfold num_start. destruct (N.eqb_spec c 45); [lia|].
    destruct (N.eqb_spec c 48); [lia|]. by rewrite is_digit_true by lia. }
  cbv zeta. set (k := Z.of_nat (length (c :: t))).
  assert (k = Z.of_nat (length t) + 1) as Hk by (unfold k; simpl; lia).
  set (n := x + k).
  destruct ((k <=? n) && (n <=? 21)) eqn:Hplain.
  { exists c, (t ++ Number.zeros (n - k)), NInt, NInt.
    split_and!; [done|lia|lia|done| |done].
    apply num_run_digits, Forall_app. split; [done|apply zeros_digits]. }
  destruct ((0 <? n) && (n <=? 21)) eqn:Hpoint.
  { apply andb_true_iff in Hpoint as [Hn0 Hn21]. rewrite Hn21 in Hplain.
    rewrite andb_true_r in Hplain. apply Z.leb_gt in Hplain.
    apply Z.ltb_lt in Hn0.
    destruct (Z.to_nat n) as [|n'] eqn:Hn'; [lia|].
    assert (n' < length t)%nat as Hlen by lia.
    change (js ".") with [46%N]. simpl.
    assert (Forall (λ c, (48 ≤ c ≤ 57)%N) (drop n' t)) as Hd
      by (by apply Forall_drop).
    destruct (drop n' t) as [|d t'] eqn:Hdrop.
    { apply (f_equal length) in Hdrop. rewrite length_drop in Hdrop.
      simpl in Hdrop. lia. }
    exists c, (take n' t ++ 46%N :: d :: t'), NInt, NFrac.
    split_and!; [done|lia|lia|done| |done].
    rewrite num_run_app, num_run_digits by (by apply Forall_take).
    simpl mbind. simpl num_run at 1. simpl mbind.
    by apply num_run_after_dot. }
  destruct ((-6 <? n) && (n <=? 0)) eqn:Hsmall.
  { change (js "0.") with [48%N; 46%N]. simpl app.
    exists 48%N, (46%N :: Number.zeros (- n) ++ c :: t), NZero, NFrac.
    split_and!; [done|lia|lia|done| |done].
    simpl num_run at 1. simpl mbind.
    assert (Forall (λ c, (48 ≤ c ≤ 57)%N) (Number.zeros (- n) ++ c :: t)) as Hd.
    { apply Forall_app. split; [apply zeros_digits|].
      constructor; [lia|done]. }
    destruct (Number.zeros (- n) ++ c :: t) as [|d t'] eqn:Hz.
    { by destruct (Number.zeros (- n)). }
    by apply num_run_after_dot. }
  simpl take. simpl drop.
  destruct (k =? 1) eqn:Hk1.
  - exists c, ([] ++ js "e" ++ (if n - 1 <? 0 then js "-" else js "+")
              ++ decimal (Z.abs (n - 1))), NInt, NExpDigits.
    split_and!; [done|lia|lia|done| |done].
    exact (num_run_exponent_part NInt (n - 1) eq_refl).
  - apply Z.eqb_neq in Hk1.
    destruct t as [|d t']; [simpl in Hk; lia|].
    change (js ".") with [46%N].
    exists c, ((46%N :: d :: t') ++ js "e"
               ++ (if n - 1 <? 0 then js "-" else js "+")
               ++ decimal (Z.abs (n - 1))), NInt, NExpDigits.
    split_and!; [done|lia|lia|done| |done].
    rewrite num_run_app.
    replace (num_run NInt (46%N :: d :: t')) with (Some NFrac).
    + exact (num_run_exponent_part NFrac (n - 1) eq_refl).
    + symmetry. change (num_run NInt (46%N :: d :: t'))
        with (num_run NDot (d :: t')). by apply num_run_after_dot.
Qed.

(** Every number that is not an infinity is written as a JSON number. *)
Lemma to_string_is_number x :
  (∀ negative, x ≠ Number.Infinity negative) →
  is_number (Number.to_string x) = true.
Proof.
  intros Hfin. destruct x as [negative|negative|negative m e];
    [done|by destruct (Hfin negative)|].
  unfold Number.to_string.
  destruct (format_number (Number.shortest m e).1 (Number.shortest m e).2)
    as (c & t & p & p' & -> & Hc & Hstart & Hrun & Hacc).
  destruct negative.
  - change (js "-") with [45%N]. cbn [app is_number num_start N.eqb Pos.eqb].
    cbn [mbind option_bind num_run].
    replace (num_next NMinus c) with (Some p).
    + cbn [mbind option_bind]. by rewrite Hrun.
    + rewrite <- Hstart. unfold num_start. cbn [num_next].
      by destruct (N.eqb_spec c 45); [lia|].
  - cbn [app is_number]. rewrite Hstart. cbn [mbind option_bind].
    by rewrite Hrun.
Qed.

End NumberText.

Section NumberReading.
Import JSON Wire.

(** *** [JSON.parse] on the text [Number::toString] writes *)

Local Abbreviation digit_value :=
  (foldl (λ (z : Z) (c : N), 10 * z + Z.of_N (c - 48))).

Lemma read_digits_app a r acc count :
  Forall (λ c, (48 ≤ c ≤ 57)%N) a →
  match r with c :: _ => Number.is_digit c = false | [] => True end →
  Number.read_digits (a ++ r) acc count =
  (digit_value acc a, count + Z.of_nat (length a), r).
Proof.
  intros Ha Hr. revert acc count.
  induction Ha as [|c a Hc _ IH]; intros acc count.
  - simpl. rewrite Z.add_0_r. destruct r as [|c r]; [done|]. simpl.
    by rewrite Hr.
  - simpl. change (Number.is_digit c) with (is_digit c).
    rewrite is_digit_true by done. rewrite IH. do 2 f_equal. lia.
Qed.

Lemma read_digits_all a acc count :
  Forall (λ c, (48 ≤ c ≤ 57)%N) a →
  Number.read_digits a acc count =
  (digit_value acc a, count + Z.of_nat (length a), []).
Proof.
  intros Ha. rewrite <- (app_nil_r a) at 1. by apply read_digits_app.
Qed.

Lemma digit_value_shift a acc :
  digit_value acc a = acc * 10 ^ Z.of_nat (length a) + digit_value 0 a.
Proof.
  revert acc. induction a as [|c a IH]; intros acc; simpl foldl.
  - simpl. lia.
  - rewrite IH, (IH (10 * 0 + _)). simpl length.
    rewrite Nat2Z.inj_succ, Z.pow_succ_r by lia. lia.
Qed.

Lemma digit_value_zeros n : digit_value 0 (Number.zeros n) = 0.
Proof.
  unfold Number.zeros. induction (Z.to_nat n) as [|k IH]; [done|]. simpl.
  apply IH.
Qed.

Lemma digit_value_uint_acc u acc :
  digit_value (Z.pos acc) (js (NilEmpty.string_of_uint u)) =
  Z.pos (Pos.of_uint_acc u acc).
Proof.
  revert acc. induction u as [|u IH|u IH|u IH|u IH|u IH|u IH|u IH|u IH|u IH|u IH];
    intros acc; [done|..]; unfold js; csimpl;
    fold (js (NilEmpty.string_of_uint u)); simpl Pos.of_uint_acc;
    rewrite <- IH; f_equal; simpl; lia.
Qed.

Lemma digit_value_uint u :
  digit_value 0 (js (NilEmpty.string_of_uint u)) = Z.of_N (Pos.of_uint u).
Proof.
  induction u as [|u IH|u IH|u IH|u IH|u IH|u IH|u IH|u IH|u IH|u IH];
    [done|exact IH|..]; unfold js; csimpl;
    fold (js (NilEmpty.string_of_uint u)); simpl Pos.of_uint;
    rewrite <- digit_value_uint_acc; f_equal.
Qed.

Lemma digit_value_decimal p : digit_value 0 (decimal (Z.pos p)) = Z.pos p.
Proof.
  rewrite decimal_pos.
  pose proof (DecimalPos.Unsigned.of_to p) as Hp.
  destruct (Pos.to_uint p) as [|u|u|u|u|u|u|u|u|u|u] eqn:Hu; [done|..];
    (etransitivity; [apply digit_value_uint|]); by rewrite Hp.
Qed.

Lemma digit_value_nonneg z : 0 ≤ z → digit_value 0 (decimal z) = z.
Proof.
  intros Hz. destruct z as [|p|p]; [done|apply digit_value_decimal|lia].
Qed.

Lemma of_decimal_scaled negative d x :
  0 < d → 0 ≤ x ≤ 310 →
  Number.of_decimal negative (d * 10 ^ x) 0 = Number.of_decimal negative d x.
Proof.
  intros Hd Hx. unfold Number.of_decimal.
  assert (0 < d * 10 ^ x) as Hpos by (apply Z.mul_pos_pos; lia).
  destruct (Z.leb_spec (d * 10 ^ x) 0); [lia|].
  destruct (Z.leb_spec d 0); [lia|].
  destruct (Z.ltb_spec 310 x); [lia|].
  unfold Number.nb_digits.
  destruct (Z.ltb_spec (Z.of_nat (Decimal.nb_digits
              (N.to_uint (Z.to_N (d * 10 ^ x)))) + 0) (-330)); [lia|].
  destruct (Z.ltb_spec (Z.of_nat (Decimal.nb_digits
              (N.to_uint (Z.to_N d))) + x) (-330)); [lia|].
  destruct (Z.leb_spec 0 x); [|lia].
  simpl. by rewrite Z.mul_1_r.
Qed.

(** The sign apart, a number text is read from its first digit on. *)
Lemma of_lexeme_signed (negative : bool) c t :
  (48 ≤ c ≤ 57)%N →
  Number.of_lexeme ((if negative then js "-" else []) ++ c :: t) =
  (let '(i, _, s2) := Number.read_digits (c :: t) 0 0 in
   let '(d, f, s3) :=
     match s2 with
     | 46%N :: s' => Number.read_digits s' i 0
     | _ => (i, 0, s2)
     end in
   Number.of_decimal negative d (Number.read_exponent s3 - f)).
Proof.
  intros Hc. destruct negative; [done|].
  unfold Number.of_lexeme. cbn [app].
  destruct c as [|p]; [lia|].
  do 6 (destruct p as [p|p|]; try done); lia.
Qed.

Lemma read_exponent_part z :
  Number.read_exponent
    (js "e" ++ (if z <? 0 then js "-" else js "+") ++ decimal (Z.abs z)) = z.
Proof.
  destruct (decimal_digits (Z.abs z)) as (c & s & Hz & Hd); [lia|].
  pose proof (digit_value_nonneg (Z.abs z)) as Hv. rewrite Hz in Hv.
  rewrite Hz. change (js "e") with [101%N].
  destruct (Z.ltb_spec z 0); change (js "-") with [45%N];
    change (js "+") with [43%N]; cbn [app Number.read_exponent N.eqb Pos.eqb orb];
    rewrite read_digits_all by done; cbn [fst]; rewrite Hv; lia.
Qed.

(** [JSON.parse] reads the text of [s * 10^x] as the double nearest to
    [s * 10^x]. *)
Lemma of_lexeme_format (negative : bool) s x :
  0 < s →
  Number.of_lexeme ((if negative then js "-" else []) ++ Number.format s x) =
  Number.of_decimal negative s x.
Proof.
  intros Hs. destruct s as [|p|p]; try lia. clear Hs.
  unfold Number.format. cbn [Z.to_pos].
  pose proof (digit_value_decimal p) as Hvalue.
  rewrite decimal_pos in *.
  destruct (to_uint_head p) as (c & t & Hds & Hc & Ht). rewrite Hds in *.
  cbv zeta. set (k := Z.of_nat (length (c :: t))).
  assert (k = Z.of_nat (length t) + 1) as Hk by (unfold k; simpl; lia).
  set (n := x + k).
  assert (Forall (λ c, (48 ≤ c ≤ 57)%N) (c :: t)) as Hct
    by (constructor; [lia|done]).
  destruct ((k <=? n) && (n <=? 21)) eqn:Hplain.
  { apply andb_true_iff in Hplain as [Hkn Hn21].
    apply Z.leb_le in Hkn, Hn21.
    cbn [app]. rewrite of_lexeme_signed by lia.
    rewrite (read_digits_all (c :: t ++ Number.zeros (n - k)))
      by (constructor; [lia|]; apply Forall_app; split;
          [done|apply zeros_digits]).
    cbn [Number.read_exponent]. rewrite Z.sub_0_r.
    change (c :: t ++ Number.zeros (n - k))
      with ((c :: t) ++ Number.zeros (n - k)).
    rewrite foldl_app, digit_value_shift, digit_value_zeros, Hvalue.
    unfold Number.zeros at 1. rewrite length_replicate, Z2Nat.id by lia.
    rewrite Z.add_0_r, of_decimal_scaled by lia. f_equal. lia. }
  destruct ((0 <? n) && (n <=? 21)) eqn:Hpoint.
  { apply andb_true_iff in Hpoint as [Hn0 Hn21]. rewrite Hn21 in Hplain.
    rewrite andb_true_r in Hplain. apply Z.leb_gt in Hplain.
    apply Z.ltb_lt in Hn0.
    destruct (Z.to_nat n) as [|n'] eqn:Hn'; [lia|].
    assert (n' < length t)%nat as Hlen by lia.
    change (js ".") with [46%N]. cbn [take drop app].
    rewrite of_lexeme_signed by lia.
    change (c :: take n' t ++ 46%N :: drop n' t)
      with ((c :: take n' t) ++ 46%N :: drop n' t).
    rewrite read_digits_app;
      [|constructor; [lia|by apply Forall_take]|done].
    rewrite read_digits_all by (by apply Forall_drop).
    cbn [Number.read_exponent]. rewrite <- foldl_app.
    change ((c :: take n' t) ++ drop n' t) with (c :: take n' t ++ drop n' t).
    rewrite take_drop, Hvalue, length_drop. f_equal. lia. }
  destruct ((-6 <? n) && (n <=? 0)) eqn:Hsmall.
  { apply andb_true_iff in Hsmall as [Hn6 Hn0].
    apply Z.ltb_lt in Hn6. apply Z.leb_le in Hn0.
    change (js "0.") with [48%N; 46%N]. cbn [app].
    rewrite of_lexeme_signed by lia.
    change (Number.read_digits (?a :: ?r) 0 0)
      with (Number.read_digits ([a] ++ r) 0 0).
    rewrite (read_digits_app [48%N]); [|constructor; [lia|done]|done].
    rewrite read_digits_all
      by (apply Forall_app; split; [apply zeros_digits|done]).
    cbn [Number.read_exponent foldl].
    rewrite foldl_app. change (10 * 0 + Z.of_N (48 - 48)) with 0.
    rewrite digit_value_zeros, Hvalue, length_app.
    unfold Number.zeros. rewrite length_replicate. f_equal. lia. }
  destruct (k =? 1) eqn:Hk1.
  - apply Z.eqb_eq in Hk1. destruct t as [|d t']; [|simpl in Hk; lia].
    change (take 1 [c]) with [c]. change (drop 1 [c]) with (@nil N).
    cbn [app]. rewrite of_lexeme_signed by lia.
    change (Number.read_digits (?a :: ?r) 0 0)
      with (Number.read_digits ([a] ++ r) 0 0).
    rewrite (read_digits_app [c]); [|constructor; [lia|done]|done].
    change (js "e" ++ ?r) with (101%N :: r). cbv beta iota zeta.
    change (101%N :: ?r) with (js "e" ++ r).
    rewrite read_exponent_part. f_equal; [done|lia].
  - apply Z.eqb_neq in Hk1. change (js ".") with [46%N].
    change (take 1 (c :: t)) with [c]. change (drop 1 (c :: t)) with t.
    cbn [app]. rewrite of_lexeme_signed by lia.
    change (Number.read_digits (?a :: ?r) 0 0)
      with (Number.read_digits ([a] ++ r) 0 0).
    rewrite (read_digits_app [c]); [|constructor; [lia|done]|done].
    cbv beta iota zeta.
    rewrite read_digits_app; [|by apply Forall_cons in Hct as [_ ?]|done].
    cbv beta iota zeta. rewrite read_exponent_part.
    change (digit_value (digit_value 0 [c]) t) with (digit_value 0 (c :: t)).
    rewrite Hvalue. f_equal. lia.
Qed.

End NumberReading.

Section RoundTrip.
Import JSON Wire.

Lemma value_nested_ind (P : value → Prop) :
  P JNull → (∀ b, P (JBool b)) → (∀ n, P (JNum n)) → (∀ s, P (JStr s)) →
  (∀ xs, Forall P xs → P (JArr xs)) →
  (∀ ms, Forall (λ kv, P (snd kv)) ms → P (JObj ms)) →
  ∀ v, P v.
Proof.
  intros Hnull Hbool Hnum Hstr Harr Hobj.
  fix IH 1. intros [|b|n|s|xs|ms].
  - apply Hnull.
  - apply Hbool.
  - apply Hnum.
  - apply Hstr.
  - apply Harr. induction xs as [|x xs IHxs]; constructor; [apply IH|apply IHxs].
  - apply Hobj. induction ms as [|[k v] ms IHms]; constructor;
      [apply IH|apply IHms].
Qed.

(** *** The lexer on the text of a string *)

Lemma lex_from_silent st c st' s :
  lex_step st c = Some ([], st') → lex_from st (c :: s) = lex_from st' s.
Proof.
  intros H. simpl. rewrite H. simpl. by destruct (lex_from st' s).
Qed.

Lemma lex_from_token st c t s :
  lex_step st c = Some ([t], LDefault) →
  lex_from st (c :: s) = rest ← lex_from LDefault s; Some (t :: rest).
Proof. intros H. simpl. by rewrite H. Qed.

Lemma hex_digit_hex_char d : (d < 16)%N → hex_digit (hex_char d) = Some d.
Proof.
  intros H. unfold hex_char, hex_digit.
  destruct (N.ltb_spec d 10).
  - replace ((48 <=? 48 + d) && (48 + d <=? 57))%N with true
      by (symmetry; apply andb_true_iff; split; apply N.leb_le; lia).
    f_equal. lia.
  - replace ((48 <=? 87 + d) && (87 + d <=? 57))%N with false
      by (symmetry; apply andb_false_iff; right; apply N.leb_gt; lia).
    replace ((97 <=? 87 + d) && (87 + d <=? 102))%N with true
      by (symmetry; apply andb_true_iff; split; apply N.leb_le; lia).
    f_equal. lia.
Qed.

Lemma hex_recompose c :
  (c < 65536)%N →
  ((((c / 4096 mod 16) * 16 + c / 256 mod 16) * 16 + c / 16 mod 16) * 16
   + c mod 16 = c)%N.
Proof. intros H. zify. Z.to_euclidean_division_equations. lia. Qed.

Lemma lex_unicode_escape c acc t :
  (c < 65536)%N →
  lex_from (LStr acc) (unicode_escape c ++ t) = lex_from (LStr (acc ++ [c])) t.
Proof.
  intros Hc. unfold unicode_escape. simpl app.
  rewrite (lex_from_silent (LStr acc) 92 (LEsc acc)) by reflexivity.
  rewrite (lex_from_silent (LEsc acc) 117 (LUni acc [])) by reflexivity.
  rewrite (lex_from_silent (LUni acc []) _ (LUni acc [c / 4096 mod 16]%N))
    by (simpl; rewrite hex_digit_hex_char; [done|by apply N.mod_lt]).
  rewrite (lex_from_silent (LUni acc [_]) _
             (LUni acc [c / 4096 mod 16; c / 256 mod 16]%N))
    by (simpl; rewrite hex_digit_hex_char; [done|by apply N.mod_lt]).
  rewrite (lex_from_silent (LUni acc [_; _]) _
             (LUni acc [c / 4096 mod 16; c / 256 mod 16; c / 16 mod 16]%N))
    by (simpl; rewrite hex_digit_hex_char; [done|by apply N.mod_lt]).
  rewrite (lex_from_silent (LUni acc [_; _; _]) _ (LStr (acc ++ [c])))
    by (simpl; rewrite hex_digit_hex_char; [|by apply N.mod_lt]; simpl;
        by rewrite hex_recompose).
  done.
Qed.

Lemma lex_plain_unit c acc t :
  c ≠ 34%N → c ≠ 92%N → (32 ≤ c)%N →
  lex_from (LStr acc) (c :: t) = lex_from (LStr (acc ++ [c])) t.
Proof.
  intros H1 H2 H3. apply lex_from_silent. simpl.
  destruct (N.eqb_spec c 34); [done|]. destruct (N.eqb_spec c 92); [done|].
  destruct (N.ltb_spec c 32); [lia|done].
Qed.

Lemma lex_quote_unit c acc t :
  (c < 65536)%N →
  lex_from (LStr acc) (quote_unit c ++ t) = lex_from (LStr (acc ++ [c])) t.
Proof.
  intros Hc. unfold quote_unit.
  repeat match goal with
         | |- context [(c =? ?k)%N] =>
             destruct (N.eqb_spec c k) as [->|?];
             [simpl app; rewrite (lex_from_silent (LStr acc) 92 (LEsc acc))
                by reflexivity; by apply lex_from_silent|]
         end.
  destruct (N.ltb_spec c 32); [by apply lex_unicode_escape|].
  destruct (is_high_surrogate c || is_low_surrogate c);
    [by apply lex_unicode_escape|].
  by apply lex_plain_unit.
Qed.

Lemma lex_quote_units s :
  (∀ acc t, code_units s = true →
     lex_from (LStr acc) (quote_units s ++ t) = lex_from (LStr (acc ++ s)) t)
  ∧ (∀ c acc t, code_units (c :: s) = true →
     lex_from (LStr acc) (quote_units (c :: s) ++ t)
     = lex_from (LStr (acc ++ c :: s)) t).
Proof.
  induction s as [|lo s [IH1 IH2]].
  - split.
    + intros acc t _. simpl. by rewrite app_nil_r.
    + intros c acc t Hc. simpl in *. apply andb_true_iff in Hc as [Hc _].
      apply N.ltb_lt in Hc. by apply lex_quote_unit.
  - split; [intros acc t; apply IH2|].
    intros c acc t Hc.
    change (code_units (c :: lo :: s)) with
      ((c <? 65536)%N && code_units (lo :: s)) in Hc.
    apply andb_true_iff in Hc as [Hc Hs]. apply N.ltb_lt in Hc.
    change (quote_units (c :: lo :: s)) with
      (if is_high_surrogate c && is_low_surrogate lo
       then c :: lo :: quote_units s
       else quote_unit c ++ quote_units (lo :: s)).
    destruct (is_high_surrogate c && is_low_surrogate lo) eqn:Hpair.
    + apply andb_true_iff in Hpair as [Hhi Hlo].
      unfold is_high_surrogate in Hhi. unfold is_low_surrogate in Hlo.
      apply andb_true_iff in Hhi as [Hhi1 Hhi2].
      apply andb_true_iff in Hlo as [Hlo1 Hlo2].
      apply N.leb_le in Hhi1, Hhi2, Hlo1, Hlo2.
      simpl app. rewrite lex_plain_unit by lia. rewrite lex_plain_unit by lia.
      change (code_units (lo :: s)) with
        ((lo <? 65536)%N && code_units s) in Hs.
      apply andb_true_iff in Hs as [_ Hs].
      rewrite IH1 by done. by rewrite <- !app_assoc.
    + rewrite <- app_assoc, lex_quote_unit by done.
      rewrite IH2 by done. by rewrite <- app_assoc.
Qed.

(** The lexer reads the text of a string back as that string. *)
Lemma lex_quote s r :
  code_units s = true →
  lex_from LDefault (quote s ++ r) =
  rest ← lex_from LDefault r; Some (TStr s :: rest).
Proof.
  intros Hs. unfold quote. simpl app.
  rewrite (lex_from_silent LDefault 34 (LStr [])) by reflexivity.
  rewrite <- app_assoc. rewrite (proj1 (lex_quote_units s)) by done.
  simpl app. by apply lex_from_token.
Qed.

(** *** The lexer on the text of a number *)

Lemma num_next_boundary p c : is_boundary c = true → num_next p c = None.
Proof.
  unfold is_boundary, is_ws. intros H.
  repeat (apply orb_true_iff in H as [H|H]);
    apply N.eqb_eq in H; subst c; by destruct p.
Qed.

Lemma lex_num_run n : ∀ p acc p' r,
  num_run p n = Some p' →
  lex_from (LNum p acc) (n ++ r) = lex_from (LNum p' (acc ++ n)) r.
Proof.
  induction n as [|c n IH]; intros p acc p' r; simpl num_run.
  - intros [= <-]. by rewrite app_nil_r.
  - destruct (num_next p c) as [p1|] eqn:Hnext; simpl; [|done].
    intros Hrun. rewrite Hnext. simpl.
    specialize (IH p1 (acc ++ [c]) p' r Hrun). rewrite <- app_assoc in IH.
    simpl in IH. rewrite <- IH.
    by destruct (lex_from (LNum p1 (acc ++ [c])) (n ++ r)).
Qed.

Lemma lex_num_end p acc r :
  num_accepting p = true → bounded r = true →
  lex_from (LNum p acc) r = rest ← lex_from LDefault r; Some (TNum acc :: rest).
Proof.
  intros Hacc Hr. destruct r as [|c r]; simpl.
  - by rewrite Hacc.
  - simpl in Hr. rewrite (num_next_boundary p c Hr), Hacc.
    destruct (lex_default c) as [[ts st']|]; simpl; [|done].
    by destruct (lex_from st' r).
Qed.

Lemma lex_default_num_start c p :
  num_start c = Some p → lex_default c = Some ([], LNum p [c]).
Proof.
  unfold num_start, lex_default, is_ws.
  destruct (N.eqb_spec c 45) as [->|?]; [by intros [= <-]|].
  destruct (N.eqb_spec c 48) as [->|?]; [by intros [= <-]|].
  destruct (is_digit c) eqn:Hd; [|done]. intros [= <-].
  unfold is_digit in Hd. apply andb_true_iff in Hd as [H1 H2].
  apply N.leb_le in H1, H2.
  repeat match goal with
         | |- context [(c =? ?k)%N] =>
             destruct (N.eqb_spec c k); [lia|]
         end.
  done.
Qed.

Lemma lex_number n : is_number n = true → lexes_to n [TNum n].
Proof.
  intros Hn r Hr. destruct n as [|c n]; [done|]. simpl in Hn.
  destruct (num_start c) as [p|] eqn:Hstart; simpl in Hn; [|done].
  destruct (num_run p n) as [p'|] eqn:Hrun; [|done].
  simpl app.
  rewrite (lex_from_silent LDefault c (LNum p [c]))
    by (by apply lex_default_num_start).
  rewrite (lex_num_run n p [c] p' r Hrun). by apply lex_num_end.
Qed.

(** *** The lexer on the text of an array or of an object *)

Lemma lexes_to_nil : lexes_to [] [].
Proof. intros r _. simpl. by destruct (lex_from LDefault r). Qed.

Lemma lexes_separated (parts : list (jsstring * list token)) :
  Forall (λ p, lexes_to (fst p) (snd p)) parts →
  ∀ r, bounded r = true →
    bounded (concat ((λ q, 44%N :: q) <$> (fst <$> parts)) ++ r) = true
    ∧ lex_from LDefault (concat ((λ q, 44%N :: q) <$> (fst <$> parts)) ++ r) =
      rest ← lex_from LDefault r;
      Some (concat ((λ q, TComma :: q) <$> (snd <$> parts)) ++ rest).
Proof.
  induction 1 as [|[s ts] parts Hp _ IH]; intros r Hr; csimpl.
  - split; [done|]. by destruct (lex_from LDefault r).
  - split; [done|]. destruct (IH r Hr) as [Hb Hlex]. simpl in Hp.
    rewrite <- app_assoc, (Hp _ Hb), Hlex.
    destruct (lex_from LDefault r) as [rest|]; simpl; [|done].
    by rewrite <- app_assoc.
Qed.

Lemma lexes_join (parts : list (jsstring * list token)) :
  Forall (λ p, lexes_to (fst p) (snd p)) parts →
  lexes_to (join_comma (fst <$> parts)) (join_tokens (snd <$> parts)).
Proof.
  intros Hparts. destruct Hparts as [|[s ts] parts Hp Hparts]; csimpl.
  - apply lexes_to_nil.
  - intros r Hr. destruct (lexes_separated parts Hparts r Hr) as [Hb Hlex].
    simpl in Hp. rewrite <- app_assoc, (Hp _ Hb), Hlex.
    destruct (lex_from LDefault r) as [rest|]; simpl; [|done].
    by rewrite <- app_assoc.
Qed.

Lemma lexes_enclosed (op cl : N) (top tcl : token) s ts :
  lex_step LDefault op = Some ([top], LDefault) →
  lex_step LDefault cl = Some ([tcl], LDefault) →
  is_boundary cl = true →
  lexes_to s ts → lexes_to ([op] ++ s ++ [cl]) ([top] ++ ts ++ [tcl]).
Proof.
  intros Hop Hcl Hb Hs r Hr. simpl app.
  rewrite (lex_from_token LDefault op top) by done.
  rewrite <- app_assoc. simpl app. rewrite (Hs (cl :: r)) by done.
  rewrite (lex_from_token LDefault cl tcl) by done.
  destruct (lex_from LDefault r) as [rest|]; simpl; [|done].
  by rewrite <- app_assoc.
Qed.

Lemma lexes_member k s ts :
  code_units k = true → lexes_to s ts →
  lexes_to (quote k ++ [58%N] ++ s) (TStr k :: TColon :: ts).
Proof.
  intros Hk Hs r Hr. rewrite <- !app_assoc. rewrite lex_quote by done.
  simpl app. rewrite (lex_from_token LDefault 58 TColon) by reflexivity.
  rewrite (Hs r Hr). by destruct (lex_from LDefault r).
Qed.

(** The lexer reads the text of a value as its tokens. *)
Lemma lex_stringify v :
  readable v = true → lexes_to (stringify v) (tokens v).
Proof.
  induction v as [|b|n|s|xs IH|ms IH] using value_nested_ind; intros Hwf.
  - intros r _. simpl. by destruct (lex_from LDefault r).
  - intros r _. destruct b; simpl; by destruct (lex_from LDefault r).
  - destruct n as [negative|negative|negative m e].
    + by apply lex_number, to_string_is_number.
    + intros r _. simpl. by destruct (lex_from LDefault r).
    + by apply lex_number, to_string_is_number.
  - intros r _. by apply lex_quote.
  - simpl in Hwf. simpl stringify. simpl tokens.
    apply (lexes_enclosed 91 93 TLBrack TRBrack); try done.
    pose proof (lexes_join ((λ x, (stringify x, tokens x)) <$> xs)) as Hj.
    rewrite <- !list_fmap_compose in Hj. apply Hj.
    apply Is_true_true, forallb_True in Hwf.
    rewrite Forall_forall in IH, Hwf.
    apply Forall_fmap, Forall_forall. intros x Hx. simpl.
    apply (IH x Hx). apply Is_true_true. by apply Hwf.
  - simpl in Hwf. apply andb_true_iff in Hwf as [Hwf _].
    simpl stringify. simpl tokens.
    apply (lexes_enclosed 123 125 TLBrace TRBrace); try done.
    pose proof (lexes_join
      ((λ kv, (quote (fst kv) ++ [58%N] ++ stringify (snd kv),
               TStr (fst kv) :: TColon :: tokens (snd kv))) <$> ms)) as Hj.
    rewrite <- !list_fmap_compose in Hj. apply Hj.
    apply Is_true_true, forallb_True in Hwf.
    rewrite Forall_forall in IH, Hwf.
    apply Forall_fmap, Forall_forall. intros [k x] Hkx. simpl.
    pose proof (IH _ Hkx) as Hx. pose proof (Hwf _ Hkx) as Hwx. simpl in *.
    apply Is_true_true in Hwx.
    apply andb_true_iff in Hwx as [Hk Hwx]. apply andb_true_iff in Hk as [Hk _].
    apply lexes_member; [done|by apply Hx].
Qed.

(** *** The parser on the tokens of a value *)

Lemma jsmap_set_fresh {V} (m : list (jsstring * V)) k v :
  k ∉ fst <$> m → JSMap.set m k v = m ++ [(k, v)].
Proof.
  induction m as [|[k' v'] m IH]; csimpl; [done|].
  intros Hk. apply not_elem_of_cons in Hk as [Hne Hk].
  destruct (decide (k' = k)); [done|]. by rewrite IH.
Qed.

(** A name that does not start with a digit takes the next place. *)
Lemma define_property_ordinary m k v :
  ordinary_key k = true → define_property m k v = JSMap.set m k v.
Proof.
  intros Hk. unfold define_property.
  replace (array_index k) with (@None Z); [done|].
  destruct k as [|c k]; [done|]. simpl in Hk. apply negb_true_iff in Hk.
  unfold array_index. simpl Number.read_digits.
  change (Number.is_digit c) with (is_digit c). by rewrite Hk.
Qed.

Lemma parse_array_start v stk :
  parse_run (PArrStart stk) (tokens v) =
  parse_run (PValue (FArr [] :: stk)) (tokens v).
Proof. by destruct v as [|[]|[]| | |]. Qed.

Lemma parse_elements xs :
  Forall (λ x, ∀ stk, parse_run (PValue stk) (tokens x)
                      = Some (complete (reread x) stk)) xs →
  ∀ acc stk,
    parse_run (PArrNext acc stk)
      (concat ((λ q, TComma :: q) <$> map tokens xs))
    = Some (PArrNext (acc ++ map reread xs) stk).
Proof.
  induction 1 as [|x xs Hx _ IH]; intros acc stk; csimpl.
  - by rewrite app_nil_r.
  - rewrite parse_run_app, Hx. simpl. rewrite IH. by rewrite <- app_assoc.
Qed.

Lemma parse_members ms :
  Forall (λ kv, ordinary_key (fst kv) = true
                ∧ ∀ stk, parse_run (PValue stk) (tokens (snd kv))
                         = Some (complete (reread (snd kv)) stk)) ms →
  ∀ acc stk,
    NoDup ((fst <$> acc) ++ (fst <$> ms)) →
    parse_run (PObjNext acc stk)
      (concat ((λ q, TComma :: q) <$>
               map (λ kv, TStr (fst kv) :: TColon :: tokens (snd kv)) ms))
    = Some (PObjNext (acc ++ map (λ kv, (fst kv, reread (snd kv))) ms) stk).
Proof.
  induction 1 as [|[k v] ms [Hk Hv] _ IH]; intros acc stk Hnd; csimpl.
  - by rewrite app_nil_r.
  - simpl in Hk, Hv. rewrite parse_run_app, Hv. simpl.
    csimpl in Hnd. apply NoDup_app in Hnd as (Hacc & Hdisj & Hms).
    apply NoDup_cons in Hms as [Hfresh Hms].
    rewrite define_property_ordinary by done.
    rewrite jsmap_set_fresh
      by (intros Hin; apply (Hdisj _ Hin); left).
    rewrite IH; [by rewrite <- app_assoc|].
    rewrite fmap_app. csimpl. apply NoDup_app. split_and!.
    + apply NoDup_app. split_and!; [done| |apply NoDup_singleton].
      intros x Hx ->%list_elem_of_singleton. apply (Hdisj _ Hx). left.
    + intros x [Hx| ->%list_elem_of_singleton]%elem_of_app Hin; [|done].
      apply (Hdisj _ Hx). by right.
    + done.
Qed.

(** The parser reads the tokens of a value back as what the peer reads
    of that value. *)
Lemma parse_tokens v :
  readable v = true →
  ∀ stk, parse_run (PValue stk) (tokens v) = Some (complete (reread v) stk).
Proof.
  induction v as [|b|n|s|xs IH|ms IH] using value_nested_ind; intros Hwf stk;
    try done.
  - by destruct b.
  - by destruct n.
  - simpl in Hwf. apply Is_true_true, forallb_True in Hwf.
    assert (Forall (λ x, ∀ stk, parse_run (PValue stk) (tokens x)
                                = Some (complete (reread x) stk)) xs) as Hxs.
    { rewrite Forall_forall in IH, Hwf |- *. intros x Hx.
      apply (IH x Hx). apply Is_true_true. by apply Hwf. }
    destruct Hxs as [|x xs Hx Hxs]; [done|].
    simpl tokens. simpl app. simpl parse_run.
    rewrite <- app_assoc, parse_run_app, parse_array_start, Hx. simpl.
    rewrite parse_run_app, parse_elements by done. done.
  - simpl in Hwf. apply andb_true_iff in Hwf as [Hwf Hnd].
    apply bool_decide_eq_true in Hnd.
    apply Is_true_true, forallb_True in Hwf.
    assert (Forall (λ kv, ordinary_key (fst kv) = true
                          ∧ ∀ stk, parse_run (PValue stk) (tokens (snd kv))
                                   = Some (complete (reread (snd kv)) stk))
              ms) as Hms.
    { rewrite Forall_forall in IH, Hwf |- *. intros [k x] Hkx.
      pose proof (Hwf _ Hkx) as Hwx. simpl in Hwx.
      apply Is_true_true in Hwx. apply andb_true_iff in Hwx as [Hk Hwx].
      apply andb_true_iff in Hk as [_ Hk]. split; [done|].
      by apply (IH _ Hkx). }
    destruct Hms as [|[k x] ms [Hk Hx] Hms]; [done|].
    simpl tokens. simpl app. simpl parse_run.
    rewrite <- app_assoc, parse_run_app. simpl in Hk, Hx. rewrite Hx. simpl.
    rewrite define_property_ordinary by done.
    change (JSMap.set [] k (reread x)) with [(k, reread x)].
    rewrite parse_run_app, (parse_members ms Hms [(k, reread x)] stk) by done.
    done.
Qed.

(** *** What is read back is what was written *)

Lemma search_reads fuel target p q n k c :
  Number.search fuel target p q n k = Some c →
  Number.reads_as target c = true.
Proof.
  revert k. induction fuel as [|fuel IH]; intros k; simpl; [done|].
  destruct (List.find _ _) as [c'|] eqn:Hfind; [|apply IH].
  intros [= <-]. by apply List.find_some in Hfind as [_ ?].
Qed.

Lemma of_ratio_finite negative p q m e :
  Number.of_ratio false p q = Number.Finite false m e →
  Number.of_ratio negative p q = Number.Finite negative m e.
Proof.
  unfold Number.of_ratio. cbv zeta.
  repeat case_match; try done; by intros [= <- <-].
Qed.

Lemma of_decimal_finite negative d x m e :
  Number.of_decimal false d x = Number.Finite false m e →
  Number.of_decimal negative d x = Number.Finite negative m e ∧ 0 < d.
Proof.
  unfold Number.of_decimal.
  destruct (Z.leb_spec d 0); [done|]. repeat case_match; try done;
    intros ?%(of_ratio_finite negative); (split; [done|lia]).
Qed.

(** A number that [Number::toString] finds the digits of reads back as
    itself. *)
Lemma number_round_trip x :
  number_ok x = true → Number.of_lexeme (Number.to_string x) = x.
Proof.
  destruct x as [[]|negative|negative m e]; try done.
  intros [[s x] Hfound]%bool_decide_eq_true.
  unfold Number.to_string, Number.shortest. rewrite Hfound. simpl.
  unfold Number.digits_found in Hfound. apply search_reads in Hfound.
  apply bool_decide_eq_true in Hfound. simpl in Hfound.
  destruct (of_decimal_finite negative _ _ _ _ Hfound) as [Hd Hs].
  by rewrite of_lexeme_format.
Qed.

Lemma reread_numbers_ok v : numbers_ok v = true → reread v = v.
Proof.
  induction v as [|b|n|s|xs IH|ms IH] using value_nested_ind; intros Hok;
    try done.
  - simpl in *. destruct n as [negative|negative|negative m e]; [|done|];
      simpl; by rewrite number_round_trip.
  - simpl in *. f_equal. apply Is_true_true, forallb_True in Hok.
    rewrite <- (list_fmap_id xs) at 2. apply Forall_fmap_ext.
    rewrite Forall_forall in IH, Hok |- *. intros x Hx.
    apply (IH x Hx). apply Is_true_true. by apply Hok.
  - simpl in *. f_equal. apply Is_true_true, forallb_True in Hok.
    rewrite <- (list_fmap_id ms) at 2. apply Forall_fmap_ext.
    rewrite Forall_forall in IH, Hok |- *. intros [k x] Hkx. simpl.
    f_equal. apply (IH _ Hkx). apply Is_true_true. by apply (Hok _ Hkx).
Qed.

Lemma reread_well_formed v : well_formed v = true → reread v = v.
Proof. intros [_ ?]%andb_true_iff. by apply reread_numbers_ok. Qed.

Lemma message_object_readable m :
  message_ok m = true → readable (message_object m) = true.
Proof.
  unfold message_ok. intros H.
  apply andb_true_iff in H as [H Hid]. apply andb_true_iff in H as [Hty Hp].
  unfold message_object.
  destruct (payload m) as [p|], (id m) as [i|]; simpl in *;
    rewrite ?Hty, ?Hp, ?Hid; done.
Qed.

(** The text of a value, followed by text that holds no token. *)
Lemma parse_stringify_then v r :
  readable v = true → bounded r = true → lex r = Some [] →
  parse (stringify v ++ r) = Some (reread v).
Proof.
  intros Hwf Hb Hr. unfold parse, lex in *.
  rewrite (lex_stringify v Hwf r Hb), Hr. simpl.
  by rewrite app_nil_r, parse_from_run, (parse_tokens v Hwf []).
Qed.

(** [JSON.parse] undoes [JSON.stringify] on a value that loses nothing
    when written. *)
Lemma value_round_trip v r :
  well_formed v = true → bounded r = true → lex r = Some [] →
  parse (stringify v ++ r) = Some v.
Proof.
  intros Hwf Hb Hr. pose proof (reread_well_formed v Hwf) as Hsame.
  apply andb_true_iff in Hwf as [Hread _].
  by rewrite parse_stringify_then, Hsame.
Qed.

End RoundTrip.

(** ** A client and a server on one connection *)

Section Exchange.
Import Server Registry Observations ClientObservations Wire.

Lemma trim_framed m : Client.trim (framed m) = stringify_message m.
Proof.
  unfold framed, stringify_message, newline, Client.trim.
  cbn [JSON.stringify].
  match goal with
  | |- context [JSON.join_comma ?l] => generalize (JSON.join_comma l)
  end.
  intros body. cbn [app Client.trim_start Client.is_js_space]. simpl.
  rewrite reverse_cons, <- app_assoc, reverse_app. simpl.
  by rewrite reverse_cons, reverse_app, reverse_involutive.
Qed.

Lemma server_reads m :
  message_ok m = true → JSON.parse (framed m) = Some (wire_value m).
Proof.
  intros Hm. apply message_object_readable in Hm.
  by apply (parse_stringify_then (message_object m) newline).
Qed.

Lemma client_reads m :
  message_ok m = true →
  JSON.parse (Client.trim (framed m)) = Some (wire_value m).
Proof.
  intros Hm. apply message_object_readable in Hm. rewrite trim_framed.
  unfold stringify_message. fold (message_object m).
  rewrite <- (app_nil_r (JSON.stringify _)).
  by apply parse_stringify_then.
Qed.

Lemma wire_value_type m :
  own_property (wire_value m) (js "type") = Some (JSON.JStr (type m)).
Proof. done. Qed.

Lemma wire_value_payload m :
  own_property (wire_value m) (js "payload") = reread <$> payload m.
Proof. by destruct m as [ty [p|] ts [i|]]. Qed.

Lemma wire_value_id m :
  own_property (wire_value m) (js "id") = reread <$> id m.
Proof. by destruct m as [ty [p|] ts [i|]]. Qed.

Lemma code_units_decimal z : code_units (decimal z) = true.
Proof.
  apply Is_true_true, forallb_True.
  eapply Forall_impl; [apply decimal_units|].
  simpl. intros c Hc. apply Is_true_true, N.ltb_lt. lia.
Qed.

Lemma code_units_js s : code_units (js s) = true.
Proof.
  unfold js. induction s as [|a s IH]; [done|]. csimpl.
  apply andb_true_iff. split; [|apply IH].
  apply N.ltb_lt. pose proof (N_ascii_bounded a). lia.
Qed.

Lemma code_units_id prefix n :
  code_units (js prefix ++ js "_" ++ decimal n) = true.
Proof.
  unfold code_units. rewrite !forallb_app.
  fold (code_units (js prefix)). fold (code_units (decimal n)).
  by rewrite code_units_js, code_units_decimal.
Qed.

Lemma data_request_ok now n data :
  optional_ok data = true → message_ok (data_request now n data) = true.
Proof.
  intros H. unfold message_ok, data_request. cbn [type payload id].
  replace (optional_readable data) with true.
  - cbn [optional_readable readable]. by rewrite code_units_id, code_units_js.
  - destruct data as [v|]; [|done]. simpl in *.
    by apply andb_true_iff in H as [-> _].
Qed.

Lemma keepalive_probe_ok now n : message_ok (keepalive_probe now n) = true.
Proof.
  unfold message_ok, keepalive_probe. cbn [type payload id].
  cbn [optional_readable readable]. by rewrite code_units_id, code_units_js.
Qed.

(** [console.log] formats every value that has a conversion to a
    primitive. *)
Lemma console_log_convertible format v :
  ToString_throws v = false → console_log_throws format (Some v) = false.
Proof.
  intros Hv. unfold console_log_throws. rewrite Hv.
  destruct (first_specifier format); [apply andb_false_r|done].
Qed.

(** The effect of one well-formed message on a registered connection of
    the server, up to the [switch], once its log line is written. *)
Lemma server_dispatches m now socket connectionId ci s :
  message_ok m = true →
  console_log_throws
    (received_line (Some (JSON.JStr (type m))) connectionId)
    (reread <$> payload m) = false →
  JSMap.get (Server.connections s) connectionId = Some ci →
  Server.step s (Server.OnData now socket connectionId (framed m)) =
  snd ((let socket := Server.socket (Server.heap s !!! ci) in
   if Server.is_type (Some (JSON.JStr (type m))) "data" then
     Server.sendMessage socket
       {| type := js "data"; payload := reread <$> payload m;
          timestamp := now; id := reread <$> id m |}
   else if Server.is_type (Some (JSON.JStr (type m))) "ping" then
     Server.sendMessage socket
       {| type := js "pong";
          payload := Some (JSON.JObj [(js "message", JSON.JStr (js "pong"))]);
          timestamp := now; id := reread <$> id m |}
   else if Server.is_type (Some (JSON.JStr (type m))) "keepalive" then
     Server.sendMessage socket
       {| type := js "keepalive";
          payload := Some (JSON.JObj [(js "status", JSON.JStr (js "alive"))]);
          timestamp := now; id := reread <$> id m |}
   else if Server.is_type (Some (JSON.JStr (type m))) "close" then
     Server.sendMessage socket
       {| type := js "close";
          payload := Some (JSON.JObj [(js "message",
                       JSON.JStr (js "Connection closed by client"))]);
          timestamp := now; id := None |};;
     emit (Server.End socket)
   else mret ()) (touch now ci s)).
Proof.
  intros Hm Hlog Hc.
  assert (undispatchable connectionId (wire_value m) = false) as Hok.
  { change (undispatchable connectionId (wire_value m))
      with (false || console_log_throws
              (received_line (own_property (wire_value m) (js "type"))
                 connectionId)
              (own_property (wire_value m) (js "payload"))).
    by rewrite wire_value_type, wire_value_payload. }
  rewrite (on_data_dispatchable now socket connectionId (framed m)
             (wire_value m) s (server_reads m Hm) Hok).
  rewrite (handleMessage_dispatchable _ _ _ _ _ Hok Hc). cbv zeta.
  by rewrite wire_value_type, wire_value_payload, wire_value_id.
Qed.

End Exchange.

Section ExchangeTheorems.
Import Server Registry Observations ClientObservations Wire Scenario.

(** X19: What [sendMessage] writes on one side, the ['data'] handler of the
    other side decodes as the message that was written: the server gives
    [JSON.parse] the chunk as it is, with the newline that ends the
    message, and the client gives it the chunk trimmed. The members of
    the message are values that stand for a JavaScript value and lose
    nothing when written: strings of 16-bit code units; numbers that are
    doubles, finite and not the negative zero (an infinity is written
    [null] and the negative zero [0]); objects with one property per
    name, none of them starting with a digit (an array index is
    enumerated before the other names). A number is written in the
    shortest digits that read back as it: [-2500] for [-2.5e3], [0.1] for
    [0.10], [1e+21] for [1000000000000000000000]. The message nests no
    deeper than the stack allows. *)
Theorem stringify_parse_round_trip m :
  message_ok m = true →
  numbers_ok (message_object m) = true →
  shallow (message_object m) = true →
  JSON.parse (framed m) = Some (message_object m)
  ∧ JSON.parse (Client.trim (framed m)) = Some (message_object m).
Proof.
  intros Hm Hnum _.
  rewrite server_reads, client_reads by done. unfold wire_value.
  by rewrite reread_numbers_ok.
Qed.

Lemma stringify_parse_round_trip_witness :
  JSON.parse
    (jq "{'a':[1.0,-2.5e3,0.10,1000000000000000000000,'say \'hi\'',null,true],'b':{}}")
  = Some (JSON.JObj
            [(js "a",
              JSON.JArr [JSON.JNum (Number.of_Z 1);
                         JSON.JNum (Number.of_Z (-2500));
                         JSON.JNum (Number.Finite false 3602879701896397 (-55));
                         JSON.JNum (Number.of_Z (10 ^ 21));
                         JSON.JStr (jq "say 'hi'"); JSON.JNull;
                         JSON.JBool true]);
             (js "b", JSON.JObj [])])
  ∧ framed
      {| type := js "data";
         payload :=
           Some (JSON.JObj
                   [(js "a",
                     JSON.JArr
                       [JSON.JNum (Number.of_Z 1);
                        JSON.JNum (Number.of_Z (-2500));
                        JSON.JNum (Number.Finite false 3602879701896397 (-55));
                        JSON.JNum (Number.of_Z (10 ^ 21));
                        JSON.JStr (jq "say 'hi'"); JSON.JNull;
                        JSON.JBool true]);
                    (js "b", JSON.JObj [])]);
         timestamp := 2000; id := Some (JSON.JStr (js "d1")) |}
    = jq "{'type':'data','payload':{'a':[1,-2500,0.1,1e+21,'say \'hi\'',null,true],'b':{}},'timestamp':2000,'id':'d1'}"
      ++ newline
  ∧ JSON.parse
      (jq "{'type':'data','payload':{'a':[1,-2500,0.1,1e+21,'say \'hi\'',null,true],'b':{}},'timestamp':2000,'id':'d1'}"
       ++ newline)
    = Some (JSON.JObj
              [(js "type", JSON.JStr (js "data"));
               (js "payload",
                JSON.JObj
                  [(js "a",
                    JSON.JArr
                      [JSON.JNum (Number.of_Z 1);
                       JSON.JNum (Number.of_Z (-2500));
                       JSON.JNum (Number.Finite false 3602879701896397 (-55));
                       JSON.JNum (Number.of_Z (10 ^ 21));
                       JSON.JStr (jq "say 'hi'"); JSON.JNull;
                       JSON.JBool true]);
                   (js "b", JSON.JObj [])]);
               (js "timestamp", JSON.JNum (Number.of_Z 2000));
               (js "id", JSON.JStr (js "d1"))]).
Proof.
  destruct (stringify_parse_round_trip
              {| type := js "data";
                 payload :=
                   Some (JSON.JObj
                           [(js "a",
                             JSON.JArr
                               [JSON.JNum (Number.of_Z 1);
                                JSON.JNum (Number.of_Z (-2500));
                                JSON.JNum (Number.Finite false 3602879701896397 (-55));
                                JSON.JNum (Number.of_Z (10 ^ 21));
                                JSON.JStr (jq "say 'hi'"); JSON.JNull;
                                JSON.JBool true]);
                            (js "b", JSON.JObj [])]);
                 timestamp := 2000; id := Some (JSON.JStr (js "d1")) |})
    as [H _].
  - vm_compute. reflexivity.
  - vm_compute. reflexivity.
  - vm_compute. reflexivity.
  - split; [vm_compute; reflexivity|]. split; [vm_compute; reflexivity|].
    refine (eq_trans _ (eq_trans H _)); vm_compute; reflexivity.
Defined.

(** X20: What a connected client writes for [send] reaches the dispatcher of
    the server, when it arrives as one chunk on a registered connection,
    and is echoed: the server writes back a [data] message with the same
    payload (none, if [send] was given [undefined]) and the id the client
    gave the message. The payload is a value that loses nothing when
    written (see [well_formed]: a number is a double, finite and not the
    negative zero, and is written in its shortest digits), it nests no
    deeper than the stack allows, and the log line of the dispatcher is
    written. *)
Theorem sent_data_is_echoed c s now now' socket connectionId ci data :
  Client.isConnected c = true →
  optional_ok data = true →
  from_option shallow true data = true →
  logged "data" connectionId data = true →
  JSMap.get (Server.connections s) connectionId = Some ci →
  Client.trace (Client.step c (Client.CallSend now data)) =
  Client.trace c ++
  [Client.Write (framed (data_request now (Client.messageId c + 1) data))]
  ∧ Server.step s
      (Server.OnData now' socket connectionId
         (framed (data_request now (Client.messageId c + 1) data)))
    = reply (Server.socket (Server.heap s !!! ci))
        {| type := js "data"; payload := data; timestamp := now';
           id := Some (JSON.JStr (js "data" ++ js "_"
                                  ++ decimal (Client.messageId c + 1))) |}
        (touch now' ci s).
Proof.
  intros Hconn Hdata _ Hlog Hc.
  assert (reread <$> data = data) as Hsame.
  { destruct data as [v|]; [|done]. simpl in *.
    by rewrite reread_well_formed. }
  split.
  - unfold Client.step, exec. simpl.
    unfold Client.send, Client.next_id, Client.sendMessage, mbind, M_bind,
      gets, modify. simpl. rewrite Hconn. simpl. done.
  - rewrite (server_dispatches _ now' socket connectionId ci s);
      [|by apply data_request_ok| |done].
    + cbn [type payload id data_request]. by rewrite Hsame.
    + cbn [type payload data_request]. rewrite Hsame.
      by apply negb_true_iff in Hlog.
Qed.

Lemma sent_data_is_echoed_witness :
  Client.trace
    (Client.step client1
       (Client.CallSend 2000
          (Some (JSON.JObj [(js "x", JSON.JNum (Number.of_Z 1));
                            (js "y", JSON.JNum (Number.of_Z (-2500)))]))))
  = Client.trace client1 ++
    [Client.Write
       (jq "{'type':'data','payload':{'x':1,'y':-2500},'timestamp':2000,'id':'data_1'}"
        ++ newline)]
  ∧ trace
      (step server1
         (OnData 2003 7%nat alice
            (jq "{'type':'data','payload':{'x':1,'y':-2500},'timestamp':2000,'id':'data_1'}"
             ++ newline)))
    = trace server1 ++
      [Write 7%nat
         (jq "{'type':'data','payload':{'x':1,'y':-2500},'timestamp':2003,'id':'data_1'}"
          ++ newline)].
Proof.
  destruct (sent_data_is_echoed client1 server1 2000 2003 7%nat alice 0%nat
              (Some (JSON.JObj [(js "x", JSON.JNum (Number.of_Z 1));
                                (js "y", JSON.JNum (Number.of_Z (-2500)))])))
    as [Hclient Hserver].
  - vm_compute. reflexivity.
  - vm_compute. reflexivity.
  - vm_compute. reflexivity.
  - vm_compute. reflexivity.
  - vm_compute. reflexivity.
  - assert (framed (data_request 2000 (Client.messageId client1 + 1)
                      (Some (JSON.JObj
                               [(js "x", JSON.JNum (Number.of_Z 1));
                                (js "y", JSON.JNum (Number.of_Z (-2500)))])))
            = jq "{'type':'data','payload':{'x':1,'y':-2500},'timestamp':2000,'id':'data_1'}"
              ++ newline) as Hline by (vm_compute; reflexivity).
    rewrite Hline in Hclient, Hserver. split.
    + exact Hclient.
    + rewrite Hserver. vm_compute. reflexivity.
Defined.

(** X21: The keepalive a connected client writes when its probe interval runs
    is acknowledged by the server, when it arrives as one chunk on a
    registered connection: the server records the activity of the
    connection and writes back a [keepalive] message with the id of the
    probe. *)
Theorem probe_is_acknowledged c s h p d now' socket connectionId ci :
  Client.isConnected c = true →
  Client.timers c !! h = Some {| Client.callback := Client.Probe;
                                 Client.period := Some p;
                                 Client.due := d |} →
  JSMap.get (connections s) connectionId = Some ci →
  Client.trace (Client.step c (Client.OnTimer h)) =
  Client.trace c ++
  [Client.Write (framed (keepalive_probe d (Client.messageId c + 1)))]
  ∧ step s
      (OnData now' socket connectionId
         (framed (keepalive_probe d (Client.messageId c + 1))))
    = reply (Server.socket (heap s !!! ci))
        {| type := js "keepalive";
           payload := Some (JSON.JObj [(js "status", JSON.JStr (js "alive"))]);
           timestamp := now';
           id := Some (JSON.JStr (js "keepalive" ++ js "_"
                                  ++ decimal (Client.messageId c + 1))) |}
        (touch now' ci s).
Proof.
  intros Hconn Ht Hc. split.
  - unfold Client.step, exec. simpl. unfold Client.fire.
    rewrite bind_gets, Ht.
    unfold mbind, M_bind, modify, Client.reschedule. simpl.
    unfold mbind, M_bind, gets. simpl. rewrite Hconn. simpl.
    unfold Client.next_id, Client.sendMessage, mbind, M_bind, gets, modify.
    simpl. by rewrite Hconn.
  - by rewrite (server_dispatches _ now' socket connectionId ci s);
      [|apply keepalive_probe_ok|apply console_log_convertible|].
Qed.

Lemma probe_is_acknowledged_witness :
  Client.trace (Client.step client1 (Client.OnTimer 0%nat))
  = Client.trace client1 ++
    [Client.Write
       (jq "{'type':'keepalive','payload':{'message':'keepalive'},'timestamp':11000,'id':'keepalive_1'}"
        ++ newline)]
  ∧ trace
      (step server1
         (OnData 11002 7%nat alice
            (jq "{'type':'keepalive','payload':{'message':'keepalive'},'timestamp':11000,'id':'keepalive_1'}"
             ++ newline)))
    = trace server1 ++
      [Write 7%nat
         (jq "{'type':'keepalive','payload':{'status':'alive'},'timestamp':11002,'id':'keepalive_1'}"
          ++ newline)].
Proof.
  destruct (probe_is_acknowledged client1 server1 0%nat 10000 11000 11002
              7%nat alice 0%nat) as [Hclient Hserver].
  - vm_compute. reflexivity.
  - vm_compute. reflexivity.
  - vm_compute. reflexivity.
  - assert (framed (keepalive_probe 11000 (Client.messageId client1 + 1))
            = jq "{'type':'keepalive','payload':{'message':'keepalive'},'timestamp':11000,'id':'keepalive_1'}"
              ++ newline) as Hline by (vm_compute; reflexivity).
    rewrite Hline in Hclient, Hserver. split.
    + exact Hclient.
    + rewrite Hserver. vm_compute. reflexivity.
Defined.

(** X22: The closing handshake makes the client ask twice. [disconnect] writes
    a [close] message and arms the timer that ends the socket; the server
    answers a [close] with a [close] of its own and ends its side; and
    that answer, when it reaches the client still connected, makes the
    client call [disconnect] again: it writes a second [close] message and
    arms a second timer. *)
Theorem close_request_is_sent_twice c s t0 t1 t2 socket connectionId ci :
  Client.isConnected c = true →
  JSMap.get (connections s) connectionId = Some ci →
  Client.trace (Client.step c (Client.CallDisconnect t0)) =
  Client.trace c ++ [Client.Write (framed (close_request t0));
                     Client.SetTimeout (Client.next_handle c)]
  ∧ trace (step s (OnData t1 socket connectionId (framed (close_request t0))))
    = trace s ++ [Write (Server.socket (heap s !!! ci)) (framed (close_reply t1));
                  End (Server.socket (heap s !!! ci))]
  ∧ Client.trace
      (Client.run c [Client.CallDisconnect t0;
                     Client.OnData t2 (framed (close_reply t1))])
    = Client.trace c ++ [Client.Write (framed (close_request t0));
                         Client.SetTimeout (Client.next_handle c);
                         Client.Write (framed (close_request t2));
                         Client.SetTimeout (S (Client.next_handle c))].
Proof.
  intros Hconn Hc.
  assert (Client.step c (Client.CallDisconnect t0) =
          Client.set_trace
            (Client.trace c ++ [Client.Write (framed (close_request t0));
                                Client.SetTimeout (Client.next_handle c)])
            (Client.set_next_handle (S (Client.next_handle c))
               (Client.set_timers
                  (<[Client.next_handle c :=
                       {| Client.callback := Client.EndSocket;
                          Client.period := None;
                          Client.due := t0 + 100 |}]> (Client.timers c))
                  (Client.set_lastActivity t0 c)))) as Hstep.
  { unfold Client.step, exec. simpl.
    unfold Client.disconnect, Client.sendMessage, mbind, M_bind, gets. simpl.
    rewrite Hconn. simpl. unfold Client.set_trace. simpl.
    by rewrite <- app_assoc. }
  split_and!.
  - by rewrite Hstep.
  - rewrite (server_dispatches _ t1 socket connectionId ci s);
      [|done|by apply console_log_convertible|done].
    simpl. by rewrite <- app_assoc.
  - change (Client.run c [Client.CallDisconnect t0;
                          Client.OnData t2 (framed (close_reply t1))])
      with (Client.step (Client.step c (Client.CallDisconnect t0))
              (Client.OnData t2 (framed (close_reply t1)))).
    rewrite (on_data_close_state t2 (framed (close_reply t1))).
    + rewrite Hstep. simpl. by rewrite <- app_assoc.
    + unfold asks_to_close. rewrite client_reads by done.
      change (undispatchable (js "server") (wire_value (close_reply t1)))
        with (false || console_log_throws
                (received_line
                   (own_property (wire_value (close_reply t1)) (js "type"))
                   (js "server"))
                (own_property (wire_value (close_reply t1)) (js "payload"))).
      rewrite wire_value_type, wire_value_payload.
      change (reread <$> payload (close_reply t1))
        with (Some (JSON.JObj [(js "message",
                      JSON.JStr (js "Connection closed by client"))])).
      by rewrite console_log_convertible.
    + by rewrite Hstep.
Qed.

Lemma close_request_is_sent_twice_witness :
  Client.trace
    (Client.run client1
       [Client.CallDisconnect 5000;
        Client.OnData 5004
          (jq "{'type':'close','payload':{'message':'Connection closed by client'},'timestamp':5002}"
           ++ newline)])
  = Client.trace client1 ++
    [Client.Write
       (jq "{'type':'close','payload':{'message':'Client disconnecting'},'timestamp':5000}"
        ++ newline);
     Client.SetTimeout 2%nat;
     Client.Write
       (jq "{'type':'close','payload':{'message':'Client disconnecting'},'timestamp':5004}"
        ++ newline);
     Client.SetTimeout 3%nat].
Proof.
  destruct (close_request_is_sent_twice client1 server1 5000 5002 5004 7%nat
              alice 0%nat) as (_ & _ & Htwice).
  - vm_compute. reflexivity.
  - vm_compute. reflexivity.
  - assert (framed (close_reply 5002)
            = jq "{'type':'close','payload':{'message':'Connection closed by client'},'timestamp':5002}"
              ++ newline) as Hline by (vm_compute; reflexivity).
    rewrite Hline in Htwice. rewrite Htwice. vm_compute. reflexivity.
Defined.

End ExchangeTheorems.

(** ** A client that is not connected *)

Section Unconnected.
Import Client ClientObservations.
Variable k : list Effect.

Lemma unconnected_emit e : writes e = false → preserves (unconnected k) (emit e).
Proof.
  intros He c [Hc Hk]. split; [done|]. simpl.
  rewrite List.filter_app. simpl. by rewrite He, app_nil_r.
Qed.

Lemma unconnected_modify (f : TCPClient → TCPClient) :
  (∀ c, isConnected c = false → isConnected (f c) = false) →
  (∀ c, trace (f c) = trace c) →
  preserves (unconnected k) (modify f).
Proof.
  intros Hconn Htrace c [Hc Hk]. split; simpl; [by apply Hconn|].
  by rewrite Htrace.
Qed.

Lemma unconnected_schedule t (e : handle → Effect) :
  (∀ h, writes (e h) = false) → preserves (unconnected k) (schedule t e).
Proof.
  intros He c [Hc Hk]. split; [done|]. simpl.
  rewrite List.filter_app. simpl. by rewrite He, app_nil_r.
Qed.

Lemma unconnected_clearInterval h : preserves (unconnected k) (clearInterval h).
Proof.
  unfold clearInterval. apply preserves_bind.
  - by apply unconnected_modify.
  - intros _. by apply unconnected_emit.
Qed.

(** [sendMessage] returns before it writes. *)
Lemma unconnected_sendMessage now message :
  preserves (unconnected k) (sendMessage now message).
Proof.
  intros c [Hc Hk]. unfold sendMessage, mbind, M_bind, gets. by rewrite Hc.
Qed.

Lemma unconnected_next_id prefix : preserves (unconnected k) (next_id prefix).
Proof.
  unfold next_id. apply preserves_bind; [apply preserves_gets|]. intros n.
  apply preserves_bind; [by apply unconnected_modify|]. intros _.
  apply preserves_ret.
Qed.

Hint Resolve unconnected_clearInterval unconnected_sendMessage
  unconnected_next_id : preserves.

Lemma unconnected_stopKeepAlive : preserves (unconnected k) stopKeepAlive.
Proof.
  pose proof (unconnected_modify (set_keepAliveTimer None)
                (λ _ H, H) (λ _, eq_refl)).
  pose proof (unconnected_modify (set_timeoutTimer None)
                (λ _ H, H) (λ _, eq_refl)).
  unfold stopKeepAlive. preserves_steps.
Qed.

Lemma unconnected_disconnect now : preserves (unconnected k) (disconnect now).
Proof.
  pose proof (λ t, unconnected_schedule t SetTimeout (λ _, eq_refl)).
  unfold disconnect, setTimeout. preserves_steps.
Qed.

Hint Resolve unconnected_stopKeepAlive unconnected_disconnect : preserves.

Lemma unconnected_on_data now data : preserves (unconnected k) (on_data now data).
Proof.
  pose proof (unconnected_modify (set_lastActivity now)
                (λ _ H, H) (λ _, eq_refl)).
  unfold on_data, handleMessage. preserves_steps.
Qed.

Lemma unconnected_closed : preserves (unconnected k) (modify (set_isConnected false)).
Proof. by apply unconnected_modify. Qed.

(** The probe tests [isConnected] before it takes an id. *)
Lemma unconnected_run_callback now cb :
  preserves (unconnected k) (run_callback now cb).
Proof.
  destruct cb; simpl.
  - intros c [Hc Hk]. unfold mbind, M_bind, gets. by rewrite Hc.
  - pose proof (unconnected_emit Destroy eq_refl). preserves_steps.
  - by apply unconnected_emit.
Qed.

Lemma unconnected_fire h : preserves (unconnected k) (fire h).
Proof.
  pose proof unconnected_run_callback.
  assert (∀ t, preserves (unconnected k)
                 (modify (λ c, set_timers (reschedule h t (timers c)) c))).
  { intros t. by apply unconnected_modify. }
  unfold fire. preserves_steps.
Qed.

Lemma unconnected_step e c :
  is_connect e = false → unconnected k c → unconnected k (step c e).
Proof.
  intros He. revert c. change (preserves (unconnected k) (handler e)).
  pose proof unconnected_closed.
  destruct e; simpl; try discriminate.
  - apply unconnected_on_data.
  - apply unconnected_closed.
  - unfold on_end. preserves_steps.
  - unfold on_close. preserves_steps.
  - apply unconnected_fire.
  - pose proof (λ p h, unconnected_emit (Connect p h) eq_refl).
    unfold connect. preserves_steps.
  - unfold send. preserves_steps.
  - unfold ping. preserves_steps.
  - apply unconnected_disconnect.
Qed.

Lemma unconnected_run events : ∀ c,
  Forall (λ e, is_connect e = false) events →
  unconnected k c → unconnected k (run c events).
Proof.
  induction events as [|e events IH]; intros c Hev Hc; [done|].
  apply Forall_cons in Hev as [He Hev]. simpl.
  apply IH; [done|]. by apply unconnected_step.
Qed.

End Unconnected.

Section UnconnectedTheorem.
Import Client ClientObservations Scenario.

(** X23: A client whose socket is not connected writes nothing, whatever is
    called on it and whatever it receives or runs, until the socket
    reports that it is connected: what [send], [ping] and [disconnect] are
    given in the meantime is dropped, not queued. *)
Theorem unconnected_client_writes_nothing c events :
  isConnected c = false →
  Forall (λ e, is_connect e = false) events →
  isConnected (run c events) = false
  ∧ List.filter writes (trace (run c events)) = List.filter writes (trace c).
Proof.
  intros Hc Hev. by apply (unconnected_run _ events c Hev).
Qed.

Lemma unconnected_client_writes_nothing_witness :
  List.filter writes
    (trace (run client0 [CallConnect; CallSend 10 (Some (JSON.JStr (js "hi")));
                         CallPing 20; CallDisconnect 30; OnTimer 0%nat]))
  = [].
Proof.
  destruct (unconnected_client_writes_nothing client0
              [CallConnect; CallSend 10 (Some (JSON.JStr (js "hi")));
               CallPing 20; CallDisconnect 30; OnTimer 0%nat])
    as [_ Hwrites].
  - reflexivity.
  - repeat constructor.
  - rewrite Hwrites. reflexivity.
Defined.

End UnconnectedTheorem.

(** ** A timeout that is not positive *)

Section TimeoutBounds.
Import Server Registry Scenario.

(** The state a registration leaves, as far as the first timeout check
    reads it. *)
Lemma on_connection_check now socket remoteAddress remotePort s :
  let s1 := step s (OnConnection now socket remoteAddress remotePort) in
  timers s1 !! S (next_handle s) =
    Some {| callback := TimeoutCheck (length (heap s))
                          (connectionId_of remoteAddress remotePort);
            period := timer_delay (keepAliveTimeout s);
            due := now + timer_delay (keepAliveTimeout s) |}
  ∧ heap s1 !!! length (heap s) =
    {| Server.socket := socket; lastActivity := now;
       keepAliveInterval := Some (next_handle s); isAlive := true |}
  ∧ JSMap.get (connections s1) (connectionId_of remoteAddress remotePort)
    = Some (length (heap s))
  ∧ keepAliveTimeout s1 = keepAliveTimeout s.
Proof.
  unfold step, exec. simpl. unfold on_connection, mbind, M_bind, alloc.
  simpl. unfold startKeepAlive, mbind, M_bind, gets. simpl.
  rewrite jsmap_get_set_eq. simpl.
  split_and!.
  - by rewrite lookup_insert_eq.
  - rewrite list_lookup_total_alt, list_lookup_alter_eq, lookup_app_r,
      Nat.sub_diag; [done|lia].
  - apply jsmap_get_set_eq.
  - done.
Qed.

(** X24: A server whose timeout is zero or negative closes every connection
    one millisecond after it registers it. The timer clamps the period of
    the timeout check to 1 ms, and at the first check the connection has
    been silent for longer than the timeout: the check destroys the
    socket and tears the connection down. *)
Theorem nonpositive_timeout_closes_at_once now socket remoteAddress remotePort s :
  keepAliveTimeout s ≤ 0 →
  timers (step s (OnConnection now socket remoteAddress remotePort))
    !! S (next_handle s) =
  Some {| callback := TimeoutCheck (length (heap s))
                        (connectionId_of remoteAddress remotePort);
          period := 1; due := now + 1 |}
  ∧ trace (run s [OnConnection now socket remoteAddress remotePort;
                  OnTimer (S (next_handle s))]) =
    trace (step s (OnConnection now socket remoteAddress remotePort))
    ++ [Destroy socket; ClearInterval (next_handle s)]
  ∧ JSMap.get
      (connections (run s [OnConnection now socket remoteAddress remotePort;
                           OnTimer (S (next_handle s))]))
      (connectionId_of remoteAddress remotePort) = None.
Proof.
  intros HT.
  destruct (on_connection_check now socket remoteAddress remotePort s)
    as (Ht & Hobj & Hc & Htimeout).
  assert (timer_delay (keepAliveTimeout s) = 1) as Hdelay.
  { unfold timer_delay. destruct (Z.leb_spec 1 (keepAliveTimeout s)); [lia|].
    done. }
  rewrite Hdelay in Ht.
  change (run s [OnConnection now socket remoteAddress remotePort;
                 OnTimer (S (next_handle s))])
    with (step (step s (OnConnection now socket remoteAddress remotePort))
            (OnTimer (S (next_handle s)))).
  set (s1 := step s (OnConnection now socket remoteAddress remotePort)) in *.
  rewrite (timeout_check_expired s1 _ _ _ _ _ Ht)
    by (rewrite Htimeout, Hobj; simpl; lia).
  unfold teardown, exec.
  rewrite (cleanupConnection_present _ (length (heap s)) (next_handle s));
    [|done|by simpl; rewrite Hobj].
  simpl. rewrite Hobj. simpl. split_and!.
  - done.
  - by rewrite <- app_assoc.
  - apply jsmap_get_delete_eq.
Qed.

Lemma nonpositive_timeout_closes_at_once_witness :
  trace (run (new_TCPServer (Some 4000) (Some 0) (Some 10000))
           [OnConnection 1000 7%nat (Some (js "127.0.0.1")) (Some 5000%N);
            OnTimer 1%nat])
  = [SetInterval 0%nat; SetInterval 1%nat; Destroy 7%nat; ClearInterval 0%nat].
Proof.
  destruct (nonpositive_timeout_closes_at_once 1000 7%nat
              (Some (js "127.0.0.1")) (Some 5000%N)
              (new_TCPServer (Some 4000) (Some 0) (Some 10000)))
    as (_ & Htrace & _).
  - simpl. lia.
  - change (next_handle (new_TCPServer (Some 4000) (Some 0) (Some 10000)))
      with 0%nat in Htrace.
    rewrite Htrace. vm_compute. reflexivity.
Defined.

End TimeoutBounds.
